(** * canspec: the CAN schema generator (_convert.py, _xml.py, canspec.py)

    A shallow embedding of the generator: the schema model loaded from the
    YAML value tree, the layout calculator, the topological sort, the KCD
    (bus descriptor) emitter, the C++ codec emitter and the command line
    driver, then what the emitted C++ computes, followed by the properties
    of the specification that were checked against them.

    Conventions.
    - A Python call either returns or raises: [outcome A].
    - Python recursion is bounded by the interpreter's recursion limit.  The
      recursive functions take the number [depth] of further nested calls the
      interpreter still allows; a call that would go deeper raises
      [RecursionError], as CPython does.
    - A Python [dict] keeps insertion order, and the generator iterates over
      [keys()]: dictionaries are association lists.
    - [int] is [Z]; [str(int)] is stdpp's [pretty].  (An interpreter that
      limits the digits of a converted integer, 4300 by default, raises
      [ValueError] beyond the limit; the integers of a schema are taken to
      be below it, and a property that asserts an output says so.)
    - The generator formats one float, the slope of a signal.  Its text is
      taken from a parameter [float_str]; only the emitted C++ is evaluated
      on doubles (Rocq's binary64 floats).
    - The YAML tree is untyped.  Where the source stores a leaf under a type
      annotation, a leaf of another type ends the model with [OutsideModel],
      which is no exception of Python's. *)

From stdpp Require Import base option list strings pretty relations gmap.
From Stdlib Require Import Ascii ZArith Uint63 Floats.PrimFloat Floats.FloatOps Floats.SpecFloat.

Set Warnings "-register-all".

Local Open Scope string_scope.
Local Open Scope list_scope.
Local Open Scope Z_scope.

(** ** Python outcomes *)

Inductive exn :=
| AttributeError
| KeyError (key : string)
| IndexError
| TypeError
| ValueError
| ZeroDivisionError
| OverflowError
| RecursionError
| FileNotFoundError
| CANSemanticException
| OutsideModel.

Inductive outcome (A : Type) :=
| Done (a : A)
| Raise (e : exn).
Arguments Done {A} a.
Arguments Raise {A} e.

#[global] Instance outcome_ret : MRet outcome := @Done.
#[global] Instance outcome_bind : MBind outcome := fun A B f m =>
  match m with
  | Done a => f a
  | Raise e => Raise e
  end.
#[global] Instance outcome_fmap : FMap outcome := fun A B f m =>
  match m with
  | Done a => Done (f a)
  | Raise e => Raise e
  end.

(** [for x in l: s = f(s, x)], stopping at the first exception. *)
Fixpoint for_each {A S : Type} (f : S -> A -> outcome S) (l : list A) (s : S) : outcome S :=
  match l with
  | [] => Done s
  | x :: l' => s' ← f s x; for_each f l' s'
  end.

(** [list(map(f, l))] for a fallible [f]. *)
Fixpoint map_each {A B : Type} (f : A -> outcome B) (l : list A) : outcome (list B) :=
  match l with
  | [] => Done []
  | x :: l' => y ← f x; ys ← map_each f l'; Done (y :: ys)
  end.

(** [getattr(self, attr)] for an attribute that [__init__] may not have set. *)
Definition getattr {A : Type} (attr : option A) : outcome A :=
  match attr with
  | Some a => Done a
  | None => Raise AttributeError
  end.

(** [str(i)] for a Python int. *)
Definition str (i : Z) : string := pretty i.

(** [enumerate(l)]. *)
Definition enumerate {A : Type} (l : list A) : list (Z * A) :=
  imap (fun i x => (Z.of_nat i, x)) l.

(** ** Python dictionaries with string keys *)

Definition dict (V : Type) : Type := list (string * V).

Definition keys {V : Type} (d : dict V) : list string := d.*1.

(** [d[k]] *)
Fixpoint dict_get {V : Type} (k : string) (d : dict V) : outcome V :=
  match d with
  | [] => Raise (KeyError k)
  | (k', v) :: d' => if decide (k = k') then Done v else dict_get k d'
  end.

(** [k in d] *)
Definition dict_has {V : Type} (k : string) (d : dict V) : bool :=
  bool_decide (k ∈ keys d).

(** [d[k] = v]: a key already present keeps its position. *)
Fixpoint dict_set {V : Type} (k : string) (v : V) (d : dict V) : dict V :=
  match d with
  | [] => [(k, v)]
  | (k', v') :: d' => if decide (k = k') then (k, v) :: d' else (k', v') :: dict_set k v d'
  end.

(** ** The YAML value tree handed to the generator *)

Inductive scalar :=
| SStr (s : string)
| SInt (i : Z)
| SNull.

Inductive yaml :=
| YScalar (s : scalar)
| YList (items : list yaml)
| YDict (items : list (string * yaml)).

(** [s.rstrip(c)] for a one-character argument. *)
Fixpoint rstrip (c : ascii) (s : string) : string :=
  match s with
  | "" => ""
  | String a s' =>
      let r := rstrip c s' in
      if decide (r = "" ∧ a = c) then "" else String a r
  end.

(** ** class XML (_xml.py) *)

Module XML.

Inductive t := new {
  name : string;
  properties : list (string * string);
  children : list t;
  content : string;
}.

Definition dquote : string := String "034"%char "".

Definition nl : string := String "010"%char "".

Definition spaces (n : nat) : string := String.string_of_list_ascii (replicate n " "%char).

(** [''.join([f' {k}="{self.properties[k]}"' for k in self.properties])] *)
Definition attributes (props : list (string * string)) : string :=
  String.concat "" (map (fun kv : string * string =>
                           " " +:+ kv.1 +:+ "=" +:+ dquote +:+ kv.2 +:+ dquote) props).

(** [human_readable(self, indent)].  The recursion follows the tree, whose
    depth in a descriptor document is fixed (six levels). *)
Fixpoint human_readable (indent : nat) (self : t) : string :=
  spaces indent +:+ "<" +:+ name self +:+ attributes (properties self) +:+ ">" +:+ nl
  +:+ String.concat "" (map (human_readable (indent + 2)) (children self))
  +:+ (if decide (content self = "") then ""
       else spaces (indent + 2) +:+ content self +:+ nl)
  +:+ spaces indent +:+ "</" +:+ name self +:+ ">" +:+ nl.

(** A property of a node, as [self.properties[key]]. *)
Definition property (key : string) (self : t) : outcome string :=
  dict_get key (properties self).

End XML.

(** ** class KCDMessageSerializer *)

Module KCDMessageSerializer.

Record t := new { bit_pos : Z; contents : list XML.t }.

(** [__init__(self)] *)
Definition __init__ : t := new 0 [].

(** [write(self, xml, size)] *)
Definition write (self : t) (xml : XML.t) (size : Z) : t :=
  new (bit_pos self + size) (contents self ++ [xml]).

End KCDMessageSerializer.

(** ** class CANSignal *)

Module CANSignal.

Record t := new { unit : string; min : Z; max : Z; size : Z }.

(** [CANSignal.__init__(self, params)].  A leaf whose type is not the
    annotated one (a unit that is not a string, bounds or a size that are
    not integers) is outside this model. *)
Definition __init__ (params : yaml) : outcome t :=
  match params with
  | YDict d =>
      unit ← (if dict_has "unit" d
              then u ← dict_get "unit" d;
                   match u with YScalar (SStr s) => Done s | _ => Raise OutsideModel end
              else Done "");
      range ← dict_get "range" d;
      '(lo, hi) ← match range with
                  | YList (YScalar (SInt lo) :: YScalar (SInt hi) :: _) => Done (lo, hi)
                  | YList (_ :: _ :: _) => Raise OutsideModel
                  | YList _ => Raise IndexError
                  | _ => Raise OutsideModel
                  end;
      size ← (if dict_has "size" d
              then s ← dict_get "size" d;
                   match s with YScalar (SInt n) => Done n | _ => Raise OutsideModel end
              else Done 8);
      Done (new unit lo hi size)
  | _ => Raise TypeError
  end.

(** The least magnitude that has no double: 2^1024 - 2^970, halfway
    between the largest double and 2^1024 (the tie rounds up). *)
Definition double_overflow : Z := 2 ^ 1024 - 2 ^ 970.

(** Whether [output_range / input_range] raises [OverflowError], the size
    not being 0.  For a positive size both operands are integers, the
    quotient is rounded once, and the division raises when the rounded
    quotient is no double.  For a negative size [2 ** self.size] is a float,
    so [input_range] is one, and [output_range] is converted first, which
    raises when it is no double; the float division after it raises
    nothing. *)
Definition overflows (self : t) : bool :=
  let output_range := max self - min self in
  if 0 <? size self
  then double_overflow * (2 ^ size self - 1) <=? Z.abs output_range
  else double_overflow <=? Z.abs output_range.

(** [slope(self)], as the text [str(self.slope())] that both emitters
    interpolate.  [input_range = 2 ** self.size - 1] is the integer 0
    exactly when the size is 0, and the division then raises
    [ZeroDivisionError]; otherwise it raises [OverflowError] when the
    quotient is out of the doubles' range.  The floating-point quotient and
    its shortest decimal rendering are Python's;
    [float_str output_range size] stands for
    [str(output_range / (2 ** size - 1))]. *)
Definition slope (float_str : Z -> Z -> string) (self : t) : outcome string :=
  let output_range := max self - min self in
  if decide (size self = 0) then Raise ZeroDivisionError
  else if overflows self then Raise OverflowError
  else Done (float_str output_range (size self)).

(** [CANSignal.serialize_kcd(self, serializer, name)] *)
Definition serialize_kcd (float_str : Z -> Z -> string)
    (self : t) (serializer : KCDMessageSerializer.t) (name : string)
  : outcome KCDMessageSerializer.t :=
  slope ← slope float_str self;
  Done (KCDMessageSerializer.write serializer
    (XML.new "Signal"
       [("name", name);
        ("offset", str (KCDMessageSerializer.bit_pos serializer));
        ("length", str (size self))]
       [XML.new "Value"
          [("type", "unsigned");
           ("unit", unit self);
           ("slope", slope);
           ("intercept", str (min self));
           ("min", str (min self));
           ("max", str (max self))]
          [] ""]
       "")
    (size self)).

End CANSignal.

(** A struct member is a signal or the name of another definition. *)
Inductive member :=
| MSignal (s : CANSignal.t)
| MRef (typ : string).

(** ** class CANStruct: the schema model and the layout calculator *)

Module CANStruct.

(** The attributes [__init__] sets; which ones depends on the node's shape. *)
Record t := new {
  name : string;
  is_enum : option bool;
  struct_members : option (list (string * member));
  enum_members : option (list string);
}.

Definition _member_type_to_signal (y : yaml) : outcome member :=
  match y with
  | YScalar (SStr s) => Done (MRef s)
  | _ => MSignal <$> CANSignal.__init__ y
  end.

(** One element of the struct body: [(list(member.keys())[0],
    _member_type_to_signal(list(member.values())[0]))]. *)
Definition load_member (m : yaml) : outcome (string * member) :=
  match m with
  | YDict [] => Raise IndexError
  | YDict ((k, v) :: _) => typ ← _member_type_to_signal v; Done (k, typ)
  | _ => Raise AttributeError
  end.

Definition load_label (y : yaml) : outcome string :=
  match y with
  | YScalar (SStr s) => Done s
  | _ => Raise OutsideModel
  end.

(** The three objects [__init__] can leave behind: a struct (the node is a
    list), an enum (the node is the mapping [{enum: labels}]), and an object
    with only its name (the node is neither a list nor a mapping). *)
Definition struct_def (name : string) (members : list (string * member)) : t :=
  new name (Some false) (Some members) None.

Definition enum_def (name : string) (labels : list string) : t :=
  new name (Some true) None (Some labels).

Definition shapeless (name : string) : t :=
  new name None None None.

(** [CANStruct.__init__(self, name, yaml)].  Labels that are not a list of
    strings are outside this model. *)
Definition __init__ (name : string) (y : yaml) : outcome t :=
  match y with
  | YList items =>
      members ← map_each load_member items;
      Done (struct_def name members)
  | YDict d =>
      if decide (keys d = ["enum"]) then
        labels ← dict_get "enum" d;
        match labels with
        | YList ls => ls' ← map_each load_label ls; Done (enum_def name ls')
        | _ => Raise OutsideModel
        end
      else Raise CANSemanticException
  | YScalar _ => Done (shapeless name)
  end.

(** The loop of [dependencies]: [if isinstance(member, str) and member not in
    built_in: deps.append(member)], with [built_in = ['bool']]. *)
Definition referenced (members : list (string * member)) : list string :=
  omap (M := list) (fun nm : string * member =>
          match nm.2 with
          | MRef typ => if decide (typ = "bool") then None else Some typ
          | MSignal _ => None
          end) members.

(** [dependencies(self)]: the referenced names, [bool] filtered out. *)
Definition dependencies (self : t) : outcome (list string) :=
  e ← getattr (is_enum self);
  if e : bool then Done []
  else
    members ← getattr (struct_members self);
    Done (referenced members).

(** [math.ceil(math.log2(n))] for a list length [n]: [log2(0)] raises
    [ValueError]; for [n >= 1] the double [log2(n)] is exact at powers of
    two and lies strictly between the neighbouring integers otherwise (for
    every length below 2^47, more than a list can hold), so the ceiling
    is the exact one. *)
Definition ceil_log2 (n : nat) : outcome Z :=
  if decide (n = 0%nat) then Raise ValueError else Done (Z.log2_up (Z.of_nat n)).

(** [size(self, struct_defs)]: the width in bits. *)
Fixpoint size (depth : nat) (struct_defs : dict t) (self : t) : outcome Z :=
  e ← getattr (is_enum self);
  if e : bool then
    labels ← getattr (enum_members self);
    ceil_log2 (length labels)
  else
    members ← getattr (struct_members self);
    for_each (fun total (nm : string * member) =>
                match nm.2 with
                | MSignal s => Done (total + CANSignal.size s)
                | MRef typ =>
                    def ← dict_get typ struct_defs;
                    n ← match depth with
                        | O => Raise RecursionError
                        | S d => size d struct_defs def
                        end;
                    Done (total + n)
                end) members 0.

(** *** The bus descriptor (KCD) emitter *)

(** The leaf written for a [bool] member. *)
Definition bool_signal (serializer : KCDMessageSerializer.t) (name : string) : XML.t :=
  XML.new "Signal"
    [("name", name);
     ("offset", str (KCDMessageSerializer.bit_pos serializer));
     ("length", "1")]
    [XML.new "Value" [("type", "unsigned")] [] ""]
    "".

(** The leaf written for an enum. *)
Definition enum_signal (serializer : KCDMessageSerializer.t) (name_base : string)
    (length : Z) (labels : list string) : XML.t :=
  XML.new "Signal"
    [("name", rstrip "_" name_base);
     ("offset", str (KCDMessageSerializer.bit_pos serializer));
     ("length", str length)]
    [XML.new "LabelSet" []
       (map (fun member : Z * string =>
               XML.new "Label" [("name", member.2); ("value", str member.1)] [] "")
            (enumerate labels))
       ""]
    "".

(** [CANStruct.serialize_members_kcd(self, serializer, struct_defs, name_base)].
    The serializer is mutated in place; it is threaded through here. *)
Fixpoint serialize_members_kcd (float_str : Z -> Z -> string) (depth : nat)
    (self : t) (serializer : KCDMessageSerializer.t) (struct_defs : dict t)
    (name_base : string) : outcome KCDMessageSerializer.t :=
  e ← getattr (is_enum self);
  if e : bool then
    length ← size depth [] self;
    labels ← getattr (enum_members self);
    Done (KCDMessageSerializer.write serializer
            (enum_signal serializer name_base length labels) length)
  else
    members ← getattr (struct_members self);
    for_each (fun serializer (member : string * member) =>
                match member.2 with
                | MSignal s => CANSignal.serialize_kcd float_str s serializer (name_base +:+ member.1)
                | MRef typ =>
                    if decide (typ = "bool") then
                      Done (KCDMessageSerializer.write serializer
                              (bool_signal serializer (name_base +:+ member.1)) 1)
                    else
                      def ← dict_get typ struct_defs;
                      match depth with
                      | O => Raise RecursionError
                      | S d => serialize_members_kcd float_str d def serializer struct_defs
                                 (name_base +:+ member.1 +:+ "_")
                      end
                end) members serializer.

(** [CANStruct.serialize_message_kcd(self, struct_defs, id)] *)
Definition serialize_message_kcd (float_str : Z -> Z -> string) (depth : nat)
    (self : t) (struct_defs : dict t) (id : Z) : outcome XML.t :=
  serializer ← serialize_members_kcd float_str depth self KCDMessageSerializer.__init__
                 struct_defs "";
  Done (XML.new "Message" [("id", str id); ("name", name self)]
          (KCDMessageSerializer.contents serializer) "").

(** *** The C++ codec emitter *)

(** The bit count interpolated for a member that is not a signal:
    [1] for [bool], otherwise [struct_defs[typ].size(struct_defs)]. *)
Definition reference_size (depth : nat) (struct_defs : dict t) (typ : string) : outcome Z :=
  if decide (typ = "bool") then Done 1
  else def ← dict_get typ struct_defs; size depth struct_defs def.

(** The line of [<T>_deserialize] for one member. *)
Definition deserialize_line (float_str : Z -> Z -> string) (depth : nat)
    (struct_defs : dict t) (m : string * member) : outcome string :=
  match m.2 with
  | MSignal s =>
      slope ← CANSignal.slope float_str s;
      Done ("  self." +:+ m.1 +:+ " = (double)read(buffer, " +:+ str (CANSignal.size s) +:+ ")"
            +:+ " * " +:+ slope +:+ " + " +:+ str (CANSignal.min s) +:+ ";")
  | MRef typ =>
      n ← reference_size depth struct_defs typ;
      Done ("  self." +:+ m.1 +:+ " = " +:+ typ +:+ "_deserialize("
            +:+ "read(buffer, " +:+ str n +:+ "));")
  end.

(** The line of [serialize] for one member. *)
Definition serialize_line (float_str : Z -> Z -> string) (depth : nat)
    (struct_defs : dict t) (m : string * member) : outcome string :=
  match m.2 with
  | MSignal s =>
      slope ← CANSignal.slope float_str s;
      let value := "(data." +:+ m.1 +:+ " - " +:+ str (CANSignal.min s) +:+ ") / " +:+ slope in
      Done ("  write(ser, " +:+ str (CANSignal.size s) +:+ ", " +:+ value +:+ ");")
  | MRef typ =>
      n ← reference_size depth struct_defs typ;
      Done ("  write(ser, " +:+ str n +:+ ", serialize(data." +:+ m.1 +:+ "));")
  end.

(** The enum branch of [serialize_cpp]. *)
Definition serialize_cpp_enum (name : string) (labels : list string) : list string :=
  ["enum class " +:+ name +:+ " {"]
  ++ map (fun ix : Z * string => "  " +:+ ix.2 +:+ " = " +:+ str ix.1 +:+ ",") (enumerate labels)
  ++ ["};";
      "";
      "inline " +:+ name +:+ " " +:+ name +:+ "_deserialize(" +:+ "uint64_t buffer) {";
      "  return (" +:+ name +:+ ")buffer;";
      "}";
      "";
      "inline uint64_t serialize(" +:+ name +:+ " data) {";
      "  return (uint64_t)data;";
      "}";
      "";
      "inline std::ostream &operator<<(std::ostream &os, const " +:+ name +:+ " &self) {";
      "  switch (self) {"]
  ++ concat (map (fun item : string =>
                    ["  case " +:+ name +:+ "::" +:+ item +:+ ":";
                     "    os << " +:+ XML.dquote +:+ name +:+ "::" +:+ item +:+ XML.dquote +:+ ";";
                     "    break;"]) labels)
  ++ ["  }";
      "  return os;";
      "}"].

(** [CANStruct.serialize_cpp(self, output, struct_defs)]: the lines handed
    to [output], in order. *)
Definition serialize_cpp (float_str : Z -> Z -> string) (depth : nat)
    (self : t) (struct_defs : dict t) : outcome (list string) :=
  e ← getattr (is_enum self);
  if e : bool then
    labels ← getattr (enum_members self);
    Done (serialize_cpp_enum (name self) labels)
  else
    members ← getattr (struct_members self);
    let fields := map (fun m : string * member =>
                         let typename := match m.2 with MSignal _ => "double" | MRef typ => typ end in
                         "  " +:+ typename +:+ " " +:+ m.1 +:+ ";") members in
    reads ← map_each (deserialize_line float_str depth struct_defs) members;
    writes ← map_each (serialize_line float_str depth struct_defs) (reverse members);
    Done (["struct " +:+ name self +:+ " {"] ++ fields
          ++ ["};";
              "";
              "inline " +:+ name self +:+ " " +:+ name self +:+ "_deserialize(" +:+ "uint64_t buffer) {";
              "  " +:+ name self +:+ " self;"]
          ++ reads
          ++ ["  return self;";
              "}";
              "";
              "inline uint64_t serialize(" +:+ name self +:+ " data) {";
              "  uint64_t ser = 0;"]
          ++ writes
          ++ ["  return ser;";
              "}";
              "";
              "inline std::ostream &operator<<(std::ostream &os, const " +:+ name self +:+ " &self) {";
              "  return os << " +:+ XML.dquote +:+ "{ " +:+ XML.dquote]
          ++ map (fun m : string * member =>
                    "            << " +:+ XML.dquote +:+ m.1 +:+ " = " +:+ XML.dquote +:+ " << self." +:+ m.1
                    +:+ " << " +:+ XML.dquote +:+ ", " +:+ XML.dquote) members
          ++ ["            << " +:+ XML.dquote +:+ "}" +:+ XML.dquote +:+ ";";
              "}"]).

End CANStruct.

(** ** The database: the top-level YAML mapping *)

Record Database := {
  db_name : string;
  db_structs : dict yaml;
  db_messages : dict yaml;
}.

(** The two loops that open both [database_to_kcd] and [database_to_cpp]:
    [struct_defs[struct_name] = CANStruct(struct_name, section[struct_name])]
    over the structs, then over the messages. *)
Definition load_section (section : dict yaml) (struct_defs : dict CANStruct.t)
  : outcome (dict CANStruct.t) :=
  for_each (fun defs struct_name =>
              y ← dict_get struct_name section;
              def ← CANStruct.__init__ struct_name y;
              Done (dict_set struct_name def defs)) (keys section) struct_defs.

Definition load_struct_defs (database : Database) : outcome (dict CANStruct.t) :=
  struct_defs ← load_section (db_structs database) [];
  load_section (db_messages database) struct_defs.

(** [database_to_kcd(database)] *)
Definition database_to_kcd (float_str : Z -> Z -> string) (depth : nat)
    (database : Database) : outcome XML.t :=
  struct_defs ← load_struct_defs database;
  messages ← map_each (fun ix : Z * string =>
                         def ← dict_get ix.2 struct_defs;
                         CANStruct.serialize_message_kcd float_str depth def struct_defs ix.1)
                (enumerate (keys (db_messages database)));
  Done (XML.new "NetworkDefinition"
          [("xmlns:xsi", "http://www.w3.org/2001/XMLSchema-instance");
           ("xmlns", "http://kayak.2codeornot2code.org/1.0");
           ("xsi:noNamespaceSchemaLocation", "Definition.xsd")]
          [XML.new "Document"
             [("name", db_name database);
              ("version", "1.0");
              ("author", "autogenerated");
              ("date", "1970-01-01")]
             [] "Autogenerated from canspec.";
           XML.new "Bus" [("name", "Main")] messages ""]
          "").

(** ** The topological sort *)

Section topological_sort.
Context {T : Type} `{EqDecision T}.
Variable edges : T -> outcome (list T).

(** The inner function [explore(node)]; [result] is the enclosing
    function's list, appended to in place. *)
Fixpoint explore (depth : nat) (node : T) (result : list T) : outcome (list T) :=
  if decide (node ∈ result) then Done result
  else
    targets ← edges node;
    result ← for_each (fun result edge =>
                         match depth with
                         | O => Raise RecursionError
                         | S d => explore d edge result
                         end) targets result;
    Done (result ++ [node]).

(** [_topological_sort(nodes, edges)] *)
Definition _topological_sort (depth : nat) (nodes : list T) : outcome (list T) :=
  for_each (fun result node => explore depth node result) nodes [].

End topological_sort.

(** ** The C++ header *)

(** The two bit primitives, as emitted. *)
Definition read_lines : list string :=
  ["";
   "inline uint64_t read(uint64_t &buffer, uint8_t bits) {";
   "  uint64_t res = buffer & ((1 << bits) - 1);";
   "  return buffer >>= bits, res;";
   "}"].

Definition write_lines : list string :=
  ["";
   "inline void write(uint64_t &buffer, uint8_t bits, " +:+ "uint64_t data) {";
   "  buffer <<= bits;";
   "  buffer |= data;";
   "}"].

(** The message discriminator enumeration: one constant per message,
    [f'  {name} = {index},']. *)
Definition discriminator_constants (messages : list string) : list string :=
  map (fun ix : Z * string => "  " +:+ ix.2 +:+ " = " +:+ str ix.1 +:+ ",") (enumerate messages).

Definition discriminator_lines (messages : list string) : list string :=
  ["enum class MessageDiscriminator {"] ++ discriminator_constants messages ++ ["};"].

Definition bool_lines : list string :=
  ["";
   "inline bool bool_deserialize(uint64_t buffer) { return buffer; }";
   "";
   "inline uint64_t serialize(bool data) { return data; }"].

(** [struct_order = _topological_sort(struct_defs.keys(),
                     lambda name: struct_defs[name].dependencies())] *)
Definition struct_order (depth : nat) (struct_defs : dict CANStruct.t) : outcome (list string) :=
  _topological_sort (fun name => def ← dict_get name struct_defs; CANStruct.dependencies def)
    depth (keys struct_defs).

(** The lines that open and close the header. *)
Definition preamble (database : Database) : list string :=
  ["// Structures and conversions generated by can.py.";
   "#ifndef " +:+ db_name database +:+ "_H";
   "#define " +:+ db_name database +:+ "_H";
   "#include <stdint.h>";
   "#include <ostream>";
   "namespace can_" +:+ db_name database +:+ " {"].

Definition closing (database : Database) : list string :=
  ["} // namespace can_" +:+ db_name database;
   "#endif // " +:+ db_name database +:+ "_H"].

(** [database_to_cpp(database)], as the list of lines passed to [putline].
    Nothing before the sort can raise once the definitions are loaded. *)
Definition database_to_cpp_lines (float_str : Z -> Z -> string) (depth : nat)
    (database : Database) : outcome (list string) :=
  struct_defs ← load_struct_defs database;
  order ← struct_order depth struct_defs;
  body ← map_each (fun struct_name =>
                     if decide (struct_name = "bool") then Done []
                     else def ← dict_get struct_name struct_defs;
                          CANStruct.serialize_cpp float_str depth def struct_defs) order;
  Done (preamble database ++ read_lines ++ write_lines
        ++ discriminator_lines (keys (db_messages database))
        ++ bool_lines ++ concat body ++ closing database).

(** [putline] appends the line and a newline to [out]. *)
Definition database_to_cpp (float_str : Z -> Z -> string) (depth : nat)
    (database : Database) : outcome string :=
  lines ← database_to_cpp_lines float_str depth database;
  Done (String.concat "" (map (fun line => line +:+ XML.nl) lines)).

(** ** The command line driver (canspec.py) *)

Record Args := { infile : string; kcd : option string; hpp : option string }.

(** How [_main] ends: it returns, calls [exit(code)], or an exception
    escapes it. *)
Inductive ending :=
| Returned
| Exited (code : Z)
| Escaped (e : exn).

(** Truthiness of an optional path: [None] and the empty string are false. *)
Definition given (path : option string) : option string :=
  match path with
  | Some p => if decide (p = "") then None else Some p
  | None => None
  end.

(** [with open(path, 'w') as file: file.write(text)], where computing [text]
    may raise.  [open] comes first.  [open_w fs path] is the exception it
    raises, if any, with the files as they are in [fs] (a missing
    directory, a directory in place of the file, no permission): then
    nothing is created and [text] is not evaluated.  Otherwise the file is
    created (or truncated) before [text] is evaluated, and the write to the
    opened file completes. *)
Definition write_file (open_w : gmap string string -> string -> option exn)
    (path : string) (text : outcome string) (fs : gmap string string)
  : gmap string string * ending :=
  match open_w fs path with
  | Some e => (fs, Escaped e)
  | None =>
      let fs := <[path := ""]> fs in
      match text with
      | Done s => (<[path := s]> fs, Returned)
      | Raise e => (fs, Escaped e)
      end
  end.

(** [_main()].  The file system maps a path to the file's text; argument
    parsing and the YAML parser are the libraries' ([yaml_load]); the message
    printed before [exit(-1)] is not recorded. *)
Definition _main (yaml_load : string -> outcome Database)
    (open_w : gmap string string -> string -> option exn)
    (float_str : Z -> Z -> string) (depth : nat)
    (parsed : Args) (fs : gmap string string) : gmap string string * ending :=
  match given (kcd parsed), given (hpp parsed) with
  | None, None => (fs, Exited (-1))
  | kcd_path, hpp_path =>
      match fs !! infile parsed with
      | None => (fs, Escaped FileNotFoundError)
      | Some text =>
          match yaml_load text with
          | Raise e => (fs, Escaped e)
          | Done input =>
              let '(fs, e) :=
                match kcd_path with
                | Some path =>
                    write_file open_w path
                      (XML.human_readable 2 <$> database_to_kcd float_str depth input) fs
                | None => (fs, Returned)
                end in
              match e with
              | Returned =>
                  match hpp_path with
                  | Some path =>
                      write_file open_w path (database_to_cpp float_str depth input) fs
                  | None => (fs, Returned)
                  end
              | _ => (fs, e)
              end
          end
      end
  end.

(** ** What the emitted C++ computes

    The emitted routines work on [uint64_t] buffers: arithmetic modulo 2^64.
    The literal [1] in [read] is an [int], 32 bits wide, so [(1 << bits) - 1]
    is computed in [int]: shifting by 32 or more is undefined, and for 31 the
    subtraction overflows.  A [uint8_t] parameter receives its argument
    modulo 256.  [None] is "no defined result". *)

Module Codec.

Import CANStruct.

Definition uint64 (z : Z) : Z := z mod 2 ^ 64.

(** The conversion to [int], the underlying type of an [enum class], that
    the cast [(T)buffer] goes through: the value modulo 2^32, in the range
    of [int] (what C++20 prescribes and compilers did before it).  The cast
    back, [(uint64_t)data], is [uint64] of that. *)
Definition int32 (z : Z) : Z := (z + 2 ^ 31) mod 2 ^ 32 - 2 ^ 31.

(** [uint64_t res = buffer & ((1 << bits) - 1); return buffer >>= bits, res;]
    The result is [(res, buffer)], the buffer as the call leaves it. *)
Definition read (buffer bits : Z) : option (Z * Z) :=
  let bits := bits mod 256 in
  if bits <? 31 then Some (Z.land buffer (Z.shiftl 1 bits - 1), Z.shiftr buffer bits)
  else None.

(** [buffer <<= bits; buffer |= data;] *)
Definition write (buffer bits data : Z) : option Z :=
  let bits := bits mod 256 in
  if bits <? 64 then Some (Z.lor (uint64 (Z.shiftl buffer bits)) data)
  else None.

(** A value of an emitted type: [bool], an enum class, a [double] field, or
    a struct with its fields in declared order. *)
Inductive value :=
| VBool (b : bool)
| VEnum (discriminant : Z)
| VDouble (x : float)
| VStruct (fields : list value).

(** An integer below 2^63 as a [double] (correctly rounded, as the C++
    conversion and Python's [float(int)]). *)
Definition double_of_Z (z : Z) : float :=
  match z with
  | Z0 => PrimFloat.zero
  | Zpos _ => PrimFloat.of_uint63 (Uint63.of_Z z)
  | Zneg p => PrimFloat.opp (PrimFloat.of_uint63 (Uint63.of_Z (Zpos p)))
  end.

(** The implicit conversion [double -> uint64_t] of [write]'s third
    argument: truncation towards zero, undefined when the truncated value is
    not a [uint64_t]. *)
Definition uint64_of_double (x : float) : option Z :=
  match Prim2SF x with
  | S754_zero _ => Some 0
  | S754_finite s m e =>
      let t := if 0 <=? e then Z.pos m * 2 ^ e else Z.pos m / 2 ^ (- e) in
      if s then (if decide (t = 0) then Some 0 else None)
      else if t <? 2 ^ 64 then Some t else None
  | _ => None
  end.

(** The double that the slope literal denotes: Python's quotient
    [output_range / input_range] of two integers below 2^53 is the IEEE
    quotient of their doubles, its [str] is the shortest decimal that reads
    back as the same double, and the C++ compiler reads it back. *)
Definition slope_double (s : CANSignal.t) : float :=
  PrimFloat.div (double_of_Z (CANSignal.max s - CANSignal.min s))
                (double_of_Z (2 ^ CANSignal.size s - 1)).

Definition generated {A : Type} (o : outcome A) : option A :=
  match o with
  | Done a => Some a
  | Raise _ => None
  end.

(** The body of [<T>_deserialize]: one [read] per member, in the order of
    the emitted lines, each on the buffer the previous one left. *)
Fixpoint read_fields {M : Type} (field : M -> Z -> option (Z * value))
    (members : list M) (buffer : Z) : option (list value) :=
  match members with
  | [] => Some []
  | m :: members' =>
      '(buffer', v) ← field m buffer;
      vs ← read_fields field members' buffer';
      Some (v :: vs)
  end.

(** [<T>_deserialize(buffer)] for the definition [self], with the widths
    that [serialize_cpp] interpolated ([depth] is the generator's).
    [fuel] bounds the nesting of calls. *)
Fixpoint deserialize (fuel : nat) (depth : nat) (struct_defs : dict t) (self : t)
    (buffer : Z) : option value :=
  e ← is_enum self;
  if e : bool then Some (VEnum (int32 buffer))
  else
    members ← struct_members self;
    VStruct <$> read_fields (fun (m : string * member) buffer =>
      match m.2 with
      | MSignal s =>
          '(raw, buffer') ← read buffer (CANSignal.size s);
          Some (buffer', VDouble (PrimFloat.add (PrimFloat.mul (double_of_Z raw) (slope_double s))
                                                (double_of_Z (CANSignal.min s))))
      | MRef typ =>
          n ← generated (CANStruct.reference_size depth struct_defs typ);
          '(raw, buffer') ← read buffer n;
          v ← (if decide (typ = "bool") then Some (VBool (bool_decide (raw ≠ 0)))
               else
                 def ← generated (dict_get typ struct_defs);
                 match fuel with
                 | O => None
                 | S fuel' => deserialize fuel' depth struct_defs def raw
                 end);
          Some (buffer', v)
      end) members buffer.

(** The body of [serialize]: one [write] per pair of a member and its
    field, in the order given. *)
Fixpoint write_fields {M : Type} (field : M -> value -> option (Z * Z))
    (fields : list (M * value)) (ser : Z) : option Z :=
  match fields with
  | [] => Some ser
  | (m, v) :: fields' =>
      '(bits, data) ← field m v;
      ser' ← write ser bits data;
      write_fields field fields' ser'
  end.

(** [serialize(data)] for the definition [self]: [ser = 0], then the
    writes over the members reversed. *)
Fixpoint serialize (fuel : nat) (depth : nat) (struct_defs : dict t) (self : t)
    (data : value) : option Z :=
  e ← is_enum self;
  if e : bool then
    match data with
    | VEnum n => Some (uint64 n)
    | _ => None
    end
  else
    members ← struct_members self;
    match data with
    | VStruct fields =>
        if decide (length fields = length members) then
          write_fields (fun (m : string * member) (v : value) =>
            match m.2, v with
            | MSignal s, VDouble x =>
                raw ← uint64_of_double
                        (PrimFloat.div (PrimFloat.sub x (double_of_Z (CANSignal.min s)))
                                       (slope_double s));
                Some (CANSignal.size s, raw)
            | MRef typ, v =>
                n ← generated (CANStruct.reference_size depth struct_defs typ);
                raw ← (if decide (typ = "bool") then
                         match v with
                         | VBool b => Some (if b then 1 else 0)
                         | _ => None
                         end
                       else
                         def ← generated (dict_get typ struct_defs);
                         match fuel with
                         | O => None
                         | S fuel' => serialize fuel' depth struct_defs def v
                         end);
                Some (n, raw)
            | _, _ => None
            end) (reverse (zip members fields)) 0
        else None
    | _ => None
    end.

End Codec.

(** * Vocabulary of the properties

    The recursive calls named, the reference graph of a schema, and the
    inputs of the scenarios. *)

(** ** Recursion of the layout calculator and of the descriptor emitter *)

(** The recursive call [struct_defs[member].size(struct_defs)] made from
    inside [size] at [depth]. *)
Definition nested_size (depth : nat) (struct_defs : dict CANStruct.t) (def : CANStruct.t)
  : outcome Z :=
  match depth with
  | O => Raise RecursionError
  | S d => CANStruct.size d struct_defs def
  end.

(** What one member adds to [total] in the loop of [size]. *)
Definition member_size (depth : nat) (struct_defs : dict CANStruct.t) (m : member) : outcome Z :=
  match m with
  | MSignal s => Done (CANSignal.size s)
  | MRef typ => def ← dict_get typ struct_defs; nested_size depth struct_defs def
  end.

(** The recursive call [struct_defs[member[1]].serialize_members_kcd(...)]
    made from inside [serialize_members_kcd] at [depth]. *)
Definition nested_kcd (float_str : Z -> Z -> string) (depth : nat) (def : CANStruct.t)
    (serializer : KCDMessageSerializer.t) (struct_defs : dict CANStruct.t)
    (name_base : string) : outcome KCDMessageSerializer.t :=
  match depth with
  | O => Raise RecursionError
  | S d => CANStruct.serialize_members_kcd float_str d def serializer struct_defs name_base
  end.

(** One turn of the loop over the members. *)
Definition member_kcd (float_str : Z -> Z -> string) (depth : nat)
    (struct_defs : dict CANStruct.t) (name_base : string)
    (serializer : KCDMessageSerializer.t) (m : string * member)
  : outcome KCDMessageSerializer.t :=
  match m.2 with
  | MSignal s => CANSignal.serialize_kcd float_str s serializer (name_base +:+ m.1)
  | MRef typ =>
      if decide (typ = "bool") then
        Done (KCDMessageSerializer.write serializer
                (CANStruct.bool_signal serializer (name_base +:+ m.1)) 1)
      else
        def ← dict_get typ struct_defs;
        nested_kcd float_str depth def serializer struct_defs (name_base +:+ m.1 +:+ "_")
  end.

(** [xml] is a [Signal] leaf whose [length] attribute is [n]. *)
Definition leaf_length (xml : XML.t) (n : Z) : Prop :=
  XML.name xml = "Signal" /\ XML.property "length" xml = Done (str n).

(** From [serializer] to [serializer']: leaves were appended, and the cursor
    advanced by the sum of their lengths. *)
Definition advanced (serializer serializer' : KCDMessageSerializer.t) : Prop :=
  exists new ns,
    KCDMessageSerializer.contents serializer' = KCDMessageSerializer.contents serializer ++ new
    /\ Forall2 leaf_length new ns
    /\ KCDMessageSerializer.bit_pos serializer'
       = KCDMessageSerializer.bit_pos serializer + foldr Z.add 0 ns.

(** The bit count that [serialize_cpp] interpolates for a member. *)
Definition member_bits (depth : nat) (struct_defs : dict CANStruct.t) (m : member) : outcome Z :=
  match m with
  | MSignal s => Done (CANSignal.size s)
  | MRef typ => CANStruct.reference_size depth struct_defs typ
  end.

(** A run that, at every recursion limit, is ended by the limit. *)
Definition exhausts_recursion_limit {A : Type} (run : nat -> outcome A) : Prop :=
  forall depth, run depth = Raise RecursionError.

(** ** Graphs given by an [edges] function *)

Section topological_sort_vocabulary.
Context {T : Type} `{EqDecision T}.
Variable edges : T -> outcome (list T).

(** [m] is among the nodes that [edges(n)] returns. *)
Definition edge (n m : T) : Prop :=
  exists targets, edges n = Done targets /\ m ∈ targets.

Definition acyclic : Prop := forall n, ~ tc edge n n.

(** The call [explore(edge)] made from inside [explore] at [depth]. *)
Definition nested (depth : nat) (result : list T) (node : T) : outcome (list T) :=
  match depth with
  | O => Raise RecursionError
  | S d => explore edges d node result
  end.

(** Every node of the list comes after the nodes it has edges to. *)
Definition dependency_ordered (result : list T) : Prop :=
  forall i n m, result !! i = Some n -> edge n m -> m ∈ take i result.

(** The invariant of [result]. *)
Definition sorted (result : list T) : Prop :=
  dependency_ordered result /\ (acyclic -> NoDup result).

(** What a completed [explore(node)] has done to [result]. *)
Definition explored (node : T) (result result' : list T) : Prop :=
  sorted result' /\ node ∈ result'
  /\ exists new, result' = result ++ new /\ forall x, x ∈ new -> rtc edge node x.

Definition nested_explored (depth : nat) : Prop :=
  forall node result result',
    nested depth result node = Done result' -> sorted result -> explored node result result'.

(** [edges] answers on every node of [K], with nodes of [K]. *)
Definition closed (K : list T) : Prop :=
  forall n, n ∈ K -> exists targets, edges n = Done targets /\ forall m, m ∈ targets -> m ∈ K.

Definition nested_raises_RecursionError (K : list T) (depth : nat) : Prop :=
  forall node result e, node ∈ K -> nested depth result node = Raise e -> e = RecursionError.

(** The nodes being explored, innermost first: each one was reached by an
    edge of the one below it. *)
Inductive chain : list T -> Prop :=
| chain_nil : chain []
| chain_one n : chain [n]
| chain_cons m n stack : edge n m -> chain (n :: stack) -> chain (m :: n :: stack).

End topological_sort_vocabulary.

(** ** The reference graph of a schema *)

(** [A] is a struct with a member that names [B], and [B] is not [bool]. *)
Definition references (struct_defs : dict CANStruct.t) (A B : string) : Prop :=
  exists def members field,
    dict_get A struct_defs = Done def
    /\ CANStruct.is_enum def = Some false
    /\ CANStruct.struct_members def = Some members
    /\ (field, MRef B) ∈ members
    /\ B <> "bool".

(** The definition is a struct or an enum. *)
Definition has_shape (def : CANStruct.t) : Prop :=
  CANStruct.is_enum def = Some true
  \/ (CANStruct.is_enum def = Some false /\ is_Some (CANStruct.struct_members def)).

Definition loaded (struct_defs : dict CANStruct.t) : Prop :=
  forall name def, dict_get name struct_defs = Done def -> has_shape def.

Definition resolved (struct_defs : dict CANStruct.t) : Prop :=
  forall A B, references struct_defs A B -> B ∈ keys struct_defs.

Definition schema_acyclic (struct_defs : dict CANStruct.t) : Prop :=
  forall A, ~ tc (references struct_defs) A A.

(** [i] comes before [j] in the list. *)
Definition before (x y : string) (order : list string) : Prop :=
  exists i j, order !! i = Some x /\ order !! j = Some y /\ (i < j)%nat.

(** The [edges] argument that [database_to_cpp] passes to the sort. *)
Definition dependencies_of (struct_defs : dict CANStruct.t) (name : string)
  : outcome (list string) :=
  def ← dict_get name struct_defs; CANStruct.dependencies def.

(** Every definition carries the name it is filed under, and no name is
    filed twice. *)
Definition well_named (struct_defs : dict CANStruct.t) : Prop :=
  NoDup (keys struct_defs)
  /\ forall k def, dict_get k struct_defs = Done def -> CANStruct.name def = k.

(** ** Scenarios *)

(** The scenario struct [{a: bool, b: {range: [0, 10], size: 4}}]. *)
Definition scenario_node : yaml :=
  YList [YDict [("a", YScalar (SStr "bool"))];
         YDict [("b", YDict [("range", YList [YScalar (SInt 0); YScalar (SInt 10)]);
                             ("size", YScalar (SInt 4))])]].

Definition scenario_struct (name : string) : CANStruct.t :=
  CANStruct.struct_def name
    [("a", MRef "bool"); ("b", MSignal (CANSignal.new "" 0 10 4))].

(** A schema to try the sort on: a message that refers to a struct, an enum
    and [bool], declared before them. *)
Definition demo_defs : dict CANStruct.t :=
  [("Pong", CANStruct.struct_def "Pong"
              [("pos", MRef "Pos"); ("c", MRef "Color"); ("ok", MRef "bool")]);
   ("Pos", CANStruct.struct_def "Pos"
             [("x", MSignal (CANSignal.new "m" 0 10 4)); ("y", MSignal (CANSignal.new "m" 0 10 4))]);
   ("Color", CANStruct.enum_def "Color" ["RED"; "GREEN"; "BLUE"])].

(** The scenario of two types that reference each other. *)
Definition cyclic_db : Database :=
  {| db_name := "cyclic";
     db_structs := [("A", YList [YDict [("b", YScalar (SStr "B"))]]);
                    ("B", YList [YDict [("a", YScalar (SStr "A"))]])];
     db_messages := [] |}.

Definition cyclic_defs : dict CANStruct.t :=
  [("A", CANStruct.struct_def "A" [("b", MRef "B")]);
   ("B", CANStruct.struct_def "B" [("a", MRef "A")])].

(** The scenario of two messages declared [Ping], [Pong]. *)
Definition ping_pong_db : Database :=
  {| db_name := "net";
     db_structs := [];
     db_messages := [("Ping", YList [YDict [("request", YScalar (SStr "bool"))]]);
                     ("Pong", YList [YDict [("reply", YScalar (SStr "bool"))]])] |}.


Definition demo_args : Args :=
  {| infile := "net.yaml"; kcd := Some "net.kcd"; hpp := Some "net.hpp" |}.

Definition demo_fs : gmap string string := {["net.yaml" := "(the schema text)"]}.

(** A struct with a 32-bit signal after a flag. *)
Definition wide_struct : CANStruct.t :=
  CANStruct.struct_def "Wide"
    [("flag", MRef "bool"); ("count", MSignal (CANSignal.new "" 0 100 32))].

(** ** Vocabulary of the further properties *)

(** A signal mapping [{range: [0, 10], size: 0}]: nothing rejects the width. *)
Definition zero_width_node : yaml :=
  YList [YDict [("z", YDict [("range", YList [YScalar (SInt 0); YScalar (SInt 10)]);
                             ("size", YScalar (SInt 0))])]].

(** A struct body whose second element has two keys. *)
Definition two_key_node : yaml :=
  YList [YDict [("a", YScalar (SStr "bool"))];
         YDict [("b", YScalar (SStr "Pos")); ("c", YScalar (SStr "bool"))]].

(** [xml] is a [Signal] leaf of [n] bits at bit [offset]. *)
Definition leaf_at (xml : XML.t) (offset n : Z) : Prop :=
  XML.name xml = "Signal"
  /\ XML.property "offset" xml = Done (str offset)
  /\ XML.property "length" xml = Done (str n).

(** The leaves lie one after the other from bit [start], with the lengths [ns]. *)
Fixpoint contiguous (start : Z) (leaves : list XML.t) (ns : list Z) : Prop :=
  match leaves, ns with
  | [], [] => True
  | xml :: leaves, n :: ns => leaf_at xml start n /\ contiguous (start + n) leaves ns
  | _, _ => False
  end.

(** From [serializer] to [serializer']: contiguous leaves were appended from
    the cursor on, and the cursor stands after the last of them. *)
Definition laid_out (serializer serializer' : KCDMessageSerializer.t) : Prop :=
  exists new ns,
    KCDMessageSerializer.contents serializer' = KCDMessageSerializer.contents serializer ++ new
    /\ contiguous (KCDMessageSerializer.bit_pos serializer) new ns
    /\ KCDMessageSerializer.bit_pos serializer'
       = KCDMessageSerializer.bit_pos serializer + foldr Z.add 0 ns.

(** The demo schema declared leaves first. *)
Definition ordered_defs : dict CANStruct.t :=
  [("Color", CANStruct.enum_def "Color" ["RED"; "GREEN"; "BLUE"]);
   ("Pos", CANStruct.struct_def "Pos"
             [("x", MSignal (CANSignal.new "m" 0 10 4)); ("y", MSignal (CANSignal.new "m" 0 10 4))]);
   ("Pong", CANStruct.struct_def "Pong"
              [("pos", MRef "Pos"); ("c", MRef "Color"); ("ok", MRef "bool")])].

(** A struct that names a type the schema does not have. *)
Definition dangling_defs : dict CANStruct.t :=
  [("Unused", CANStruct.struct_def "Unused" [("x", MRef "Missing")])].

(** [edges] has answered on every node of the list. *)
Definition answered {T : Type} (edges : T -> outcome (list T)) (result : list T) : Prop :=
  forall x, x ∈ result -> exists targets, edges x = Done targets.

(** A message whose member is a struct that has a [bool] member. *)
Definition flags_defs : dict CANStruct.t :=
  [("Flags", CANStruct.struct_def "Flags" [("ok", MRef "bool")]);
   ("Status", CANStruct.struct_def "Status" [("flags", MRef "Flags")])].

(** A database in which a message has the name of a struct. *)
Definition shadow_db : Database :=
  {| db_name := "net";
     db_structs := [("Ping", YDict [("enum", YList [YScalar (SStr "A"); YScalar (SStr "B")])])];
     db_messages := [("Ping", YList [YDict [("request", YScalar (SStr "bool"))]])] |}.

(** The read of one member in [<T>_deserialize], as [Codec.deserialize]
    has it: the buffer left and the field's value. *)
Definition read_field (fuel depth : nat) (struct_defs : dict CANStruct.t)
    (m : string * member) (buffer : Z) : option (Z * Codec.value) :=
  match m.2 with
  | MSignal s =>
      '(raw, buffer') ← Codec.read buffer (CANSignal.size s);
      Some (buffer', Codec.VDouble
                       (PrimFloat.add (PrimFloat.mul (Codec.double_of_Z raw) (Codec.slope_double s))
                                      (Codec.double_of_Z (CANSignal.min s))))
  | MRef typ =>
      n ← Codec.generated (CANStruct.reference_size depth struct_defs typ);
      '(raw, buffer') ← Codec.read buffer n;
      v ← (if decide (typ = "bool") then Some (Codec.VBool (bool_decide (raw ≠ 0)))
           else
             def ← Codec.generated (dict_get typ struct_defs);
             match fuel with
             | O => None
             | S fuel' => Codec.deserialize fuel' depth struct_defs def raw
             end);
      Some (buffer', v)
  end.

(** The write of one member in [serialize], as [Codec.serialize] has it:
    the bit count and the data. *)
Definition write_field (fuel depth : nat) (struct_defs : dict CANStruct.t)
    (m : string * member) (v : Codec.value) : option (Z * Z) :=
  match m.2, v with
  | MSignal s, Codec.VDouble x =>
      raw ← Codec.uint64_of_double
              (PrimFloat.div (PrimFloat.sub x (Codec.double_of_Z (CANSignal.min s)))
                             (Codec.slope_double s));
      Some (CANSignal.size s, raw)
  | MRef typ, v =>
      n ← Codec.generated (CANStruct.reference_size depth struct_defs typ);
      raw ← (if decide (typ = "bool") then
               match v with
               | Codec.VBool b => Some (if b then 1 else 0)
               | _ => None
               end
             else
               def ← Codec.generated (dict_get typ struct_defs);
               match fuel with
               | O => None
               | S fuel' => Codec.serialize fuel' depth struct_defs def v
               end);
      Some (n, raw)
  | _, _ => None
  end.

(** No member of the definition is a signal. *)
Definition signal_free (def : CANStruct.t) : Prop :=
  forall members field s,
    CANStruct.struct_members def = Some members -> (field, MSignal s) ∉ members.

(** A signal-free schema: an enum, a struct of two of them, and a message
    with a flag, the struct and the enum. *)
Definition lamp_defs : dict CANStruct.t :=
  [("Color", CANStruct.enum_def "Color" ["RED"; "GREEN"; "BLUE"]);
   ("Pair", CANStruct.struct_def "Pair" [("first", MRef "Color"); ("second", MRef "Color")]);
   ("Lamp", CANStruct.struct_def "Lamp"
              [("on", MRef "bool"); ("pair", MRef "Pair"); ("c", MRef "Color")])].

(** A message that refers to one of two structs that reference each other. *)
Definition cyclic_message_db : Database :=
  {| db_name := "cyclic";
     db_structs := [("A", YList [YDict [("b", YScalar (SStr "B"))]]);
                    ("B", YList [YDict [("a", YScalar (SStr "A"))]])];
     db_messages := [("M", YList [YDict [("a", YScalar (SStr "A"))]])] |}.

Definition cyclic_message_defs : dict CANStruct.t :=
  [("A", CANStruct.struct_def "A" [("b", MRef "B")]);
   ("B", CANStruct.struct_def "B" [("a", MRef "A")]);
   ("M", CANStruct.struct_def "M" [("a", MRef "A")])].

(** An integer that [str] converts under the interpreter's default limit
    of 4300 digits. *)
Definition printable (z : Z) : Prop := Z.abs z < 10 ^ 4300.

(** A signal that both emitters can write: a width from 1 to 64 bits, a
    range whose quotient by [2 ** size - 1] is within the doubles, and
    bounds that [str] converts. *)
Definition emittable (s : CANSignal.t) : Prop :=
  0 < CANSignal.size s <= 64
  /\ CANSignal.overflows s = false
  /\ printable (CANSignal.min s) /\ printable (CANSignal.max s).

(** What the emitters need of a definition: an enum has a label, and every
    signal of a struct can be written. *)
Definition well_formed (def : CANStruct.t) : Prop :=
  (CANStruct.is_enum def = Some true ->
   exists label labels, CANStruct.enum_members def = Some (label :: labels))
  /\ (forall members field s,
        CANStruct.struct_members def = Some members ->
        (field, MSignal s) ∈ members -> emittable s).

(** No member of the definition is a [bool]. *)
Definition flag_free (def : CANStruct.t) : Prop :=
  forall members field,
    CANStruct.struct_members def = Some members -> (field, MRef "bool") ∉ members.

(** Every definition that is the type of a member is free of [bool]. *)
Definition member_types_flag_free (struct_defs : dict CANStruct.t) : Prop :=
  forall A B def,
    references struct_defs A B -> dict_get B struct_defs = Done def -> flag_free def.

(** The demo schema as a database: three messages, the first made of the
    other two. *)
Definition demo_db : Database :=
  {| db_name := "demo";
     db_structs := [];
     db_messages :=
       [("Pong", YList [YDict [("pos", YScalar (SStr "Pos"))];
                        YDict [("c", YScalar (SStr "Color"))];
                        YDict [("ok", YScalar (SStr "bool"))]]);
        ("Pos", YList [YDict [("x", YDict [("unit", YScalar (SStr "m"));
                                           ("range", YList [YScalar (SInt 0); YScalar (SInt 10)]);
                                           ("size", YScalar (SInt 4))])];
                       YDict [("y", YDict [("unit", YScalar (SStr "m"));
                                           ("range", YList [YScalar (SInt 0); YScalar (SInt 10)]);
                                           ("size", YScalar (SInt 4))])]]);
        ("Color", YDict [("enum", YList [YScalar (SStr "RED"); YScalar (SStr "GREEN");
                                         YScalar (SStr "BLUE")])])] |}.

(** * Properties *)

(** ** Outcomes, loops, dictionaries, strings *)

Lemma bind_Done {A B : Type} (m : outcome A) (f : A -> outcome B) (b : B) :
  m ≫= f = Done b <-> exists a, m = Done a /\ f a = Done b.
Proof.
  destruct m as [a|e]; cbn; split.
  - intros H. by exists a.
  - by intros (a' & [= <-] & H).
  - intros [=].
  - by intros (a' & [=] & _).
Qed.

Lemma bind_Raise {A B : Type} (m : outcome A) (f : A -> outcome B) (e : exn) :
  m ≫= f = Raise e <-> m = Raise e \/ exists a, m = Done a /\ f a = Raise e.
Proof.
  destruct m as [a|e']; cbn; split.
  - intros H. right. by exists a.
  - by intros [[=]|(a' & [= <-] & H)].
  - intros [= ->]. by left.
  - by intros [[= ->]|(a' & [=] & _)].
Qed.

Lemma for_each_ext {A S : Type} (f g : S -> A -> outcome S) (l : list A) (s : S) :
  (forall s x, f s x = g s x) -> for_each f l s = for_each g l s.
Proof.
  intros Hfg. revert s. induction l as [|x l IH]; intros s; simpl; [done|].
  rewrite Hfg. destruct (g s x); cbn; auto.
Qed.

(** The loop of [size] adds up what the members contribute. *)
Lemma for_each_sum {A : Type} (g : A -> outcome Z) (l : list A) (total r : Z) :
  for_each (fun total x => n ← g x; Done (total + n)) l total = Done r <->
  exists ns, Forall2 (fun x n => g x = Done n) l ns /\ r = total + foldr Z.add 0 ns.
Proof.
  revert total. induction l as [|x l IH]; intros total; simpl.
  - split.
    + intros [= <-]. exists []. split; [constructor|simpl; lia].
    + intros (ns & Hns & ->). inversion Hns; subst. simpl. f_equal. lia.
  - rewrite bind_Done. split.
    + intros (t1 & (n & Hn & [= <-])%bind_Done & (ns & Hns & ->)%IH).
      exists (n :: ns). split; [by constructor|simpl; lia].
    + intros (ns & Hns & ->). inversion Hns as [|? n ? ns' Hn Hns']; subst.
      exists (total + n). split; [by rewrite Hn|].
      apply IH. exists ns'. split; [done|simpl; lia].
Qed.

Lemma map_each_Done_length {A B : Type} (f : A -> outcome B) (l : list A) (r : list B) :
  map_each f l = Done r -> length r = length l.
Proof.
  revert r. induction l as [|x l IH]; intros r; simpl.
  - by intros [= <-].
  - destruct (f x); [|done]. simpl. destruct (map_each f l); [|done].
    simpl. intros [= <-]. simpl. f_equal. by apply IH.
Qed.

Lemma map_each_Done_lookup {A B : Type} (f : A -> outcome B) (l : list A) (r : list B)
    (i : nat) (x : A) :
  map_each f l = Done r -> l !! i = Some x -> exists y, r !! i = Some y /\ f x = Done y.
Proof.
  revert r i. induction l as [|x' l IH]; intros r i; simpl; [done|].
  destruct (f x') as [y'|] eqn:Hx'; [|done]. simpl.
  destruct (map_each f l) as [ys|]; [|done]. simpl. intros [= <-].
  destruct i as [|i]; simpl.
  - intros [= <-]. eauto.
  - intros Hi. by apply IH.
Qed.

Lemma enumerate_lookup {A : Type} (l : list A) (i : nat) (x : A) :
  l !! i = Some x -> enumerate l !! i = Some (Z.of_nat i, x).
Proof. intros Hi. unfold enumerate. by rewrite list_lookup_imap, Hi. Qed.

Lemma dict_get_Done {V : Type} (k : string) (d : dict V) :
  k ∈ keys d <-> exists v, dict_get k d = Done v.
Proof.
  unfold keys. induction d as [|[k' v'] d IH]; simpl.
  - split; [by intros ?%elem_of_nil|by intros [? ?]].
  - destruct (decide (k = k')) as [->|Hne].
    + split; [by eexists|intros _; by left].
    + rewrite elem_of_cons, IH. split; [by intros [?|?]|by right].
Qed.

Lemma dict_get_set {V : Type} (k k' : string) (v : V) (d : dict V) :
  dict_get k (dict_set k' v d) = if decide (k = k') then Done v else dict_get k d.
Proof.
  induction d as [|[k0 v0] d IH]; simpl.
  - by destruct (decide (k = k')).
  - destruct (decide (k' = k0)) as [->|Hne]; simpl.
    + by destruct (decide (k = k0)).
    + destruct (decide (k = k0)) as [->|]; [|done].
      by rewrite decide_False by done.
Qed.

Lemma keys_dict_set {V : Type} (k : string) (v : V) (d : dict V) :
  keys (dict_set k v d) = if decide (k ∈ keys d) then keys d else keys d ++ [k].
Proof.
  unfold keys. induction d as [|[k0 v0] d IH]; simpl; [done|].
  destruct (decide (k = k0)) as [->|Hne]; rewrite !fmap_cons; simpl.
  - rewrite decide_True by (by left). done.
  - rewrite IH. destruct (decide (k ∈ d.*1)).
    + rewrite decide_True by (by right). done.
    + rewrite decide_False; [done|]. by intros [?|?]%elem_of_cons.
Qed.

Lemma append_assoc (s1 s2 s3 : string) : (s1 +:+ s2) +:+ s3 = s1 +:+ s2 +:+ s3.
Proof.
  induction s1 as [|a s1 IH]; [done|].
  change (String a ((s1 +:+ s2) +:+ s3) = String a (s1 +:+ s2 +:+ s3)). by f_equal.
Qed.

(** ** Layout calculator *)

Lemma size_unfold (depth : nat) (struct_defs : dict CANStruct.t) (self : CANStruct.t) :
  CANStruct.size depth struct_defs self =
  e ← getattr (CANStruct.is_enum self);
  if e : bool then
    labels ← getattr (CANStruct.enum_members self);
    CANStruct.ceil_log2 (length labels)
  else
    members ← getattr (CANStruct.struct_members self);
    for_each (fun total (nm : string * member) =>
                n ← member_size depth struct_defs nm.2; Done (total + n)) members 0.
Proof.
  destruct depth; simpl; destruct (getattr (CANStruct.is_enum self)) as [[]|]; cbn; try done;
    destruct (getattr (CANStruct.struct_members self)); cbn; try done;
    apply for_each_ext; intros total [field [s|typ]]; cbn; try done;
    destruct (dict_get typ struct_defs); cbn; done.
Qed.

(** The struct case of [size], as the specification words it: the sum over
    the members of the signal's width, or the size of the referenced
    definition. *)
Lemma size_struct_sum (depth : nat) (struct_defs : dict CANStruct.t) (name : string)
    (members : list (string * member)) (r : Z) :
  CANStruct.size depth struct_defs (CANStruct.struct_def name members) = Done r <->
  exists ns, Forall2 (fun (nm : string * member) n => member_size depth struct_defs nm.2 = Done n)
               members ns
             /\ r = foldr Z.add 0 ns.
Proof.
  rewrite size_unfold. cbn. rewrite for_each_sum.
  split; intros (ns & Hns & ->); exists ns; (split; [done|lia]).
Qed.

(** C8.  An enum with N >= 1 labels has size ceil(log2 N): the size is the
    least k with N <= 2^k; it is 0 for one label, 1 for two, 8 for 256 and 9
    for 257 labels. *)
Theorem enum_size_is_ceil_log2 (depth : nat) (struct_defs : dict CANStruct.t)
    (name label : string) (labels : list string) :
  let N := Z.of_nat (length (label :: labels)) in
  exists k,
    CANStruct.size depth struct_defs (CANStruct.enum_def name (label :: labels)) = Done k
    /\ 0 <= k /\ N <= 2 ^ k /\ (forall j, 0 <= j -> N <= 2 ^ j -> k <= j)
    /\ (N = 1 -> k = 0) /\ (N = 2 -> k = 1) /\ (N = 256 -> k = 8) /\ (N = 257 -> k = 9).
Proof.
  intros N. exists (Z.log2_up N).
  assert (HN : 0 < N) by (unfold N; simpl; lia).
  split; [by destruct depth|].
  split; [apply Z.log2_up_nonneg|].
  split; [apply Z.log2_up_le_pow2; [done|lia]|].
  split; [intros j _ Hj; by apply Z.log2_up_le_pow2|].
  repeat split; intros ->; reflexivity.
Qed.

(** The mapping [{enum: labels}] loads as the enum with these labels. *)
Lemma enum_node_loaded (name : string) (labels : list string) :
  CANStruct.__init__ name (YDict [("enum", YList (map (fun l => YScalar (SStr l)) labels))])
  = Done (CANStruct.enum_def name labels).
Proof.
  assert (Hlabels : map_each CANStruct.load_label (map (fun l => YScalar (SStr l)) labels)
                    = Done labels).
  { induction labels as [|l labels IH]; [done|]. simpl. by rewrite IH. }
  unfold CANStruct.__init__. rewrite decide_True by done. simpl.
  repeat case_decide; try done. by rewrite Hlabels.
Qed.

Lemma scenario_struct_loaded (name : string) :
  CANStruct.__init__ name scenario_node = Done (scenario_struct name).
Proof. reflexivity. Qed.

(** [size] looks every member that is not a signal up in [struct_defs],
    [bool] included: a struct with a [bool] member has no size unless the
    schema itself defines a type called [bool]. *)
Lemma size_with_bool_member (depth : nat) (struct_defs : dict CANStruct.t)
    (name field : string) (members : list (string * member)) :
  "bool" ∉ keys struct_defs ->
  (field, MRef "bool") ∈ members ->
  forall n, CANStruct.size depth struct_defs (CANStruct.struct_def name members) <> Done n.
Proof.
  intros Hbool Hin n.
  assert (Hget : dict_get "bool" struct_defs = Raise (KeyError "bool")).
  { clear -Hbool. induction struct_defs as [|[k v] d IH]; simpl; [done|].
    unfold keys in *. simpl in Hbool. apply not_elem_of_cons in Hbool as [? ?].
    destruct (decide ("bool" = k)); [done|]. by apply IH. }
  assert (Hloop : forall total,
    for_each (fun total (nm : string * member) =>
                match nm.2 with
                | MSignal s => Done (total + CANSignal.size s)
                | MRef typ =>
                    def ← dict_get typ struct_defs;
                    n ← match depth with
                        | O => Raise RecursionError
                        | S d => CANStruct.size d struct_defs def
                        end;
                    Done (total + n)
                end) members total <> Done n).
  { induction members as [|m members IH]; intros total; [by apply elem_of_nil in Hin|].
    apply elem_of_cons in Hin as [<-|Hin]; simpl.
    - by rewrite Hget.
    - match goal with |- context [mbind _ ?x] => destruct x end; simpl; [by apply IH|done]. }
  destruct depth; simpl; apply Hloop.
Qed.

(** C3 (the code departs from the claim).  On the scenario struct
    [{a: bool, b: {range: [0, 10], size: 4}}] the layout calculator does not
    return 5: it looks the [bool] member up in the definition map and raises
    [KeyError]. *)
Theorem size_of_scenario_struct_raises (depth : nat) :
  exists S,
    CANStruct.__init__ "S" scenario_node = Done S
    /\ CANStruct.size depth [("S", S)] S = Raise (KeyError "bool").
Proof.
  exists (scenario_struct "S"). split; [reflexivity|]. by destruct depth.
Qed.

(** ** Loading a node that is neither a sequence nor a mapping *)

(** C10.  Loading a scalar node raises nothing: the object has neither the
    enum flag nor a member list, and [dependencies], [size] and both
    emitters raise [AttributeError] on it. *)
Theorem scalar_node_loads_shapeless (name : string) (s : scalar) :
  exists obj,
    CANStruct.__init__ name (YScalar s) = Done obj
    /\ CANStruct.is_enum obj = None
    /\ CANStruct.struct_members obj = None
    /\ CANStruct.enum_members obj = None
    /\ CANStruct.dependencies obj = Raise AttributeError
    /\ (forall depth struct_defs, CANStruct.size depth struct_defs obj = Raise AttributeError)
    /\ (forall float_str depth serializer struct_defs name_base,
          CANStruct.serialize_members_kcd float_str depth obj serializer struct_defs name_base
          = Raise AttributeError)
    /\ (forall float_str depth struct_defs id,
          CANStruct.serialize_message_kcd float_str depth obj struct_defs id = Raise AttributeError)
    /\ (forall float_str depth struct_defs,
          CANStruct.serialize_cpp float_str depth obj struct_defs = Raise AttributeError).
Proof.
  exists (CANStruct.shapeless name).
  repeat split; try reflexivity.
  - by intros [].
  - by intros ? [].
  - intros ? [] ? ?; reflexivity.
Qed.

(** ** Descriptor emitter: cursor and lengths *)

Lemma serialize_members_kcd_unfold (float_str : Z -> Z -> string) (depth : nat)
    (self : CANStruct.t) (serializer : KCDMessageSerializer.t)
    (struct_defs : dict CANStruct.t) (name_base : string) :
  CANStruct.serialize_members_kcd float_str depth self serializer struct_defs name_base =
  e ← getattr (CANStruct.is_enum self);
  if e : bool then
    length ← CANStruct.size depth [] self;
    labels ← getattr (CANStruct.enum_members self);
    Done (KCDMessageSerializer.write serializer
            (CANStruct.enum_signal serializer name_base length labels) length)
  else
    members ← getattr (CANStruct.struct_members self);
    for_each (member_kcd float_str depth struct_defs name_base) members serializer.
Proof. destruct depth; reflexivity. Qed.

Lemma advanced_refl (serializer : KCDMessageSerializer.t) : advanced serializer serializer.
Proof. exists [], []. split; [by rewrite app_nil_r|]. split; [constructor|simpl; lia]. Qed.

Lemma advanced_trans (s1 s2 s3 : KCDMessageSerializer.t) :
  advanced s1 s2 -> advanced s2 s3 -> advanced s1 s3.
Proof.
  intros (new1 & ns1 & Hc1 & Hl1 & Hp1) (new2 & ns2 & Hc2 & Hl2 & Hp2).
  exists (new1 ++ new2), (ns1 ++ ns2). split; [by rewrite Hc2, Hc1, app_assoc|].
  split; [by apply Forall2_app|]. rewrite Hp2, Hp1, foldr_app.
  assert (Hsum : forall l a, foldr Z.add a l = foldr Z.add 0 l + a).
  { induction l as [|x l IH]; intros a; simpl; [lia|]. rewrite IH. lia. }
  rewrite (Hsum ns1 (foldr Z.add 0 ns2)). lia.
Qed.

Lemma advanced_write (serializer : KCDMessageSerializer.t) (xml : XML.t) (n : Z) :
  leaf_length xml n -> advanced serializer (KCDMessageSerializer.write serializer xml n).
Proof.
  intros Hleaf. exists [xml], [n]. split; [done|].
  split; [by constructor|simpl; lia].
Qed.

(** Whatever the members are, the cursor advances by the sum of the
    lengths of the leaves written. *)
Lemma serialize_members_kcd_advanced (float_str : Z -> Z -> string) (depth : nat)
    (self : CANStruct.t) (serializer serializer' : KCDMessageSerializer.t)
    (struct_defs : dict CANStruct.t) (name_base : string) :
  CANStruct.serialize_members_kcd float_str depth self serializer struct_defs name_base
  = Done serializer' ->
  advanced serializer serializer'.
Proof.
  revert self serializer serializer' name_base.
  assert (Hstep : forall depth,
    (forall def s s' base, nested_kcd float_str depth def s struct_defs base = Done s' ->
                           advanced s s') ->
    forall self s s' base,
      CANStruct.serialize_members_kcd float_str depth self s struct_defs base = Done s' ->
      advanced s s').
  { intros d Hn self s s' base. rewrite serialize_members_kcd_unfold.
    intros ([] & _ & Hbody)%bind_Done.
    - apply bind_Done in Hbody as (len & _ & (labels & _ & [= <-])%bind_Done).
      by apply advanced_write.
    - apply bind_Done in Hbody as (members & _ & Hloop). clear self.
      revert s Hloop. induction members as [|[field m] members IH]; intros s; simpl.
      + intros [= <-]. apply advanced_refl.
      + intros (s1 & Hm & Hrest)%bind_Done.
        apply advanced_trans with s1; [|by apply IH].
        unfold member_kcd in Hm. simpl in Hm. destruct m as [sig|typ].
        * unfold CANSignal.serialize_kcd in Hm.
          apply bind_Done in Hm as (slope & _ & [= <-]). by apply advanced_write.
        * destruct (decide (typ = "bool")).
          -- injection Hm as <-. by apply advanced_write.
          -- apply bind_Done in Hm as (def & _ & Hm). by apply Hn in Hm. }
  induction depth as [|d IH]; apply Hstep.
  - by intros def s s' base [=].
  - intros def s s' base. apply IH.
Qed.

(** Where [size] returns (in a schema that does not itself define a type
    called [bool]), the cursor advances by exactly the size. *)
Lemma serialize_members_kcd_size (float_str : Z -> Z -> string) (depth : nat)
    (self : CANStruct.t) (serializer serializer' : KCDMessageSerializer.t)
    (struct_defs : dict CANStruct.t) (name_base : string) (n : Z) :
  "bool" ∉ keys struct_defs ->
  CANStruct.size depth struct_defs self = Done n ->
  CANStruct.serialize_members_kcd float_str depth self serializer struct_defs name_base
  = Done serializer' ->
  KCDMessageSerializer.bit_pos serializer' = KCDMessageSerializer.bit_pos serializer + n.
Proof.
  intros Hbool. revert self serializer serializer' name_base n.
  assert (Hstep : forall depth,
    (forall def s s' base n,
       nested_size depth struct_defs def = Done n ->
       nested_kcd float_str depth def s struct_defs base = Done s' ->
       KCDMessageSerializer.bit_pos s' = KCDMessageSerializer.bit_pos s + n) ->
    forall self s s' base n,
      CANStruct.size depth struct_defs self = Done n ->
      CANStruct.serialize_members_kcd float_str depth self s struct_defs base = Done s' ->
      KCDMessageSerializer.bit_pos s' = KCDMessageSerializer.bit_pos s + n).
  { intros d Hn self s s' base n. rewrite serialize_members_kcd_unfold, !size_unfold.
    destruct (getattr (CANStruct.is_enum self)) as [[]|]; cbn; [| |done].
    - intros Hsize Hk. rewrite Hsize in Hk. cbn in Hk.
      by apply bind_Done in Hk as (labels & _ & [= <-]).
    - intros (members & -> & Hsize)%bind_Done. cbn. clear self.
      apply for_each_sum in Hsize as (ns & Hns & ->). rewrite Z.add_0_l.
      revert s. induction Hns as [|[field m] k members ns Hm _ IH]; intros s; simpl.
      + intros [= <-]. lia.
      + intros (s1 & Hk & Hrest)%bind_Done. rewrite (IH _ Hrest).
        enough (KCDMessageSerializer.bit_pos s1 = KCDMessageSerializer.bit_pos s + k) by lia.
        unfold member_kcd in Hk. simpl in Hk, Hm. destruct m as [sig|typ]; simpl in Hm.
        * injection Hm as <-. unfold CANSignal.serialize_kcd in Hk.
          by apply bind_Done in Hk as (slope & _ & [= <-]).
        * apply bind_Done in Hm as (def & Hget & Hm).
          destruct (decide (typ = "bool")) as [->|].
          -- exfalso. apply Hbool, dict_get_Done. by exists def.
          -- rewrite Hget in Hk. by eapply Hn. }
  induction depth as [|d IH]; apply Hstep.
  - by intros def s s' base n [=].
  - intros def s s' base n. apply IH.
Qed.

(** C4 (the code departs from the claim).  For the scenario message the
    descriptor holds two leaves of lengths 1 and 4 at offsets 0 and 1, and
    the cursor ends at 5, while [size] of the message raises [KeyError]
    (the defect of C3): the two sides are not equal. *)
Theorem scenario_message_lengths_without_size (float_str : Z -> Z -> string) (depth : nat) :
  let M := scenario_struct "M" in
  exists serializer,
    CANStruct.serialize_members_kcd float_str depth M KCDMessageSerializer.__init__ [("M", M)] ""
    = Done serializer
    /\ KCDMessageSerializer.bit_pos serializer = 5
    /\ XML.property "length" <$> KCDMessageSerializer.contents serializer = [Done "1"; Done "4"]
    /\ XML.property "offset" <$> KCDMessageSerializer.contents serializer = [Done "0"; Done "1"]
    /\ CANStruct.size depth [("M", M)] M = Raise (KeyError "bool").
Proof.
  intros M. eexists. split; [by destruct depth|].
  split; [reflexivity|]. split; [reflexivity|]. split; [reflexivity|]. by destruct depth.
Qed.

(** ** The topological sort, over any graph *)

Section topological_sort_properties.
Context {T : Type} `{EqDecision T}.
Variable edges : T -> outcome (list T).

Local Abbreviation edge := (edge edges).
Local Abbreviation acyclic := (acyclic edges).
Local Abbreviation nested := (nested edges).
Local Abbreviation dependency_ordered := (dependency_ordered edges).
Local Abbreviation sorted := (sorted edges).
Local Abbreviation explored := (explored edges).
Local Abbreviation nested_explored := (nested_explored edges).
Local Abbreviation closed := (closed edges).
Local Abbreviation nested_raises_RecursionError := (nested_raises_RecursionError edges).
Local Abbreviation chain := (chain edges).

Lemma explore_unfold (depth : nat) (node : T) (result : list T) :
  explore edges depth node result =
  if decide (node ∈ result) then Done result
  else
    targets ← edges node;
    result' ← for_each (nested depth) targets result;
    Done (result' ++ [node]).
Proof. destruct depth; reflexivity. Qed.

Lemma topological_sort_unfold (depth : nat) (nodes : list T) :
  _topological_sort edges depth nodes = for_each (nested (S depth)) nodes [].
Proof. reflexivity. Qed.

Lemma sorted_nil : sorted [].
Proof. split; [by intros i n m ?|intros _; constructor]. Qed.

Lemma dependency_ordered_snoc (result : list T) (node : T) :
  dependency_ordered result ->
  (forall m, edge node m -> m ∈ result) ->
  dependency_ordered (result ++ [node]).
Proof.
  intros Hord Hnode i n m Hi He.
  destruct (decide (i < length result)%nat) as [Hlt|Hge].
  - rewrite lookup_app_l in Hi by done.
    rewrite take_app_le by lia. by eapply Hord.
  - apply lookup_lt_Some in Hi as Hlen. rewrite length_app in Hlen. simpl in Hlen.
    assert (i = length result) as -> by lia.
    rewrite list_lookup_middle in Hi by done. injection Hi as <-.
    rewrite take_app_length. by apply Hnode.
Qed.

(** A node of a cycle is never in a dependency-ordered list. *)
Lemma dependency_ordered_no_cycle (result : list T) (n : T) :
  dependency_ordered result -> n ∈ result -> ~ tc edge n n.
Proof.
  intros Hord Hin. apply list_elem_of_lookup in Hin as [i Hi].
  revert n Hi. induction (lt_wf i) as [i _ IH]. intros n Hi Hcycle.
  inversion Hcycle as [? ? He|? m ? He Hm]; subst.
  - pose proof (Hord i n n Hi He) as Hn.
    apply list_elem_of_lookup in Hn as [j Hj].
    apply lookup_take_Some in Hj as [Hj Hlt]. by apply (IH j Hlt n Hj).
  - pose proof (Hord i n m Hi He) as Hn.
    apply list_elem_of_lookup in Hn as [j Hj].
    apply lookup_take_Some in Hj as [Hj Hlt].
    apply (IH j Hlt m Hj). eapply tc_r; [exact Hm|exact He].
Qed.

Lemma for_each_nested_explored (depth : nat) (targets : list T) (result result' : list T) :
  nested_explored depth ->
  for_each (nested depth) targets result = Done result' ->
  sorted result ->
  sorted result' /\ (forall e, e ∈ targets -> e ∈ result')
  /\ exists new, result' = result ++ new
       /\ forall x, x ∈ new -> exists e, e ∈ targets /\ rtc edge e x.
Proof.
  intros Hn. revert result. induction targets as [|e targets IH]; intros result; simpl.
  - intros [= <-] Hs. split; [done|]. split; [by intros e ?%elem_of_nil|].
    exists []. split; [by rewrite app_nil_r|]. by intros x ?%elem_of_nil.
  - intros (r1 & He & Hrest)%bind_Done Hs.
    destruct (Hn _ _ _ He Hs) as (Hs1 & Hin1 & new1 & -> & Hnew1).
    destruct (IH _ Hrest Hs1) as (Hs' & Hin' & new2 & -> & Hnew2).
    split; [done|]. split.
    + intros e' [->|?]%elem_of_cons; [|by apply Hin'].
      apply elem_of_app. by left.
    + exists (new1 ++ new2). split; [by rewrite app_assoc|].
      intros x [Hx|Hx]%elem_of_app.
      * exists e. split; [by left|by apply Hnew1].
      * destruct (Hnew2 x Hx) as (e' & ? & ?). exists e'. split; [by right|done].
Qed.

Lemma explore_step_explored (depth : nat) (node : T) (result result' : list T) :
  nested_explored depth ->
  explore edges depth node result = Done result' ->
  sorted result ->
  explored node result result'.
Proof.
  intros Hn. rewrite explore_unfold. destruct (decide (node ∈ result)) as [Hin|Hnotin].
  - intros [= <-] Hs. split; [done|]. split; [done|].
    exists []. split; [by rewrite app_nil_r|]. by intros x ?%elem_of_nil.
  - intros (targets & Hedges & (r1 & Hloop & [= <-])%bind_Done)%bind_Done Hs.
    destruct (for_each_nested_explored _ _ _ _ Hn Hloop Hs)
      as ((Hord1 & Hnodup1) & Hin1 & new & -> & Hnew).
    assert (Hreach : forall x, x ∈ new -> tc edge node x).
    { intros x Hx. destruct (Hnew x Hx) as (e & He & Hrtc).
      eapply tc_rtc_r; [|exact Hrtc]. apply tc_once. by exists targets. }
    split; [split|split].
    + apply dependency_ordered_snoc; [done|].
      intros m (targets' & Hedges' & Hm). rewrite Hedges in Hedges'.
      injection Hedges' as <-. by apply Hin1.
    + intros Hacyclic. apply NoDup_app. split; [by apply Hnodup1|].
      split; [|apply NoDup_singleton].
      intros x Hx Hx'. apply list_elem_of_singleton in Hx' as ->.
      apply elem_of_app in Hx as [Hx|Hx]; [done|].
      by apply (Hacyclic node), Hreach.
    + apply elem_of_app. right. by apply list_elem_of_singleton.
    + exists (new ++ [node]). split; [by rewrite app_assoc|].
      intros x [Hx|Hx]%elem_of_app.
      * by apply tc_rtc, Hreach.
      * by apply list_elem_of_singleton in Hx as ->.
Qed.

Lemma explore_explored (depth : nat) (node : T) (result result' : list T) :
  explore edges depth node result = Done result' ->
  sorted result ->
  explored node result result'.
Proof.
  revert node result result'. induction depth as [|d IH]; intros node result result'.
  - apply explore_step_explored. by intros n r r' [=].
  - apply explore_step_explored. intros n r r'. apply IH.
Qed.

(** A completed sort: the list is in dependency order, holds every node
    given, and only nodes that the given ones reach. *)
Lemma topological_sort_Done (depth : nat) (nodes result : list T) :
  _topological_sort edges depth nodes = Done result ->
  sorted result
  /\ (forall n, n ∈ nodes -> n ∈ result)
  /\ (forall x, x ∈ result -> exists n, n ∈ nodes /\ rtc edge n x).
Proof.
  rewrite topological_sort_unfold. intros Hsort.
  destruct (for_each_nested_explored (S depth) nodes [] result) as (Hs & Hin & new & -> & Hnew).
  - intros n r r'. apply explore_explored.
  - done.
  - apply sorted_nil.
  - done.
Qed.

(** *** Which exceptions can escape *)

Lemma for_each_nested_raises (K : list T) (depth : nat) (targets result : list T) (e : exn) :
  nested_raises_RecursionError K depth ->
  (forall m, m ∈ targets -> m ∈ K) ->
  for_each (nested depth) targets result = Raise e ->
  e = RecursionError.
Proof.
  intros Hn. revert result. induction targets as [|m targets IH]; intros result HK; simpl; [done|].
  intros [Hm|(r1 & _ & Hrest)]%bind_Raise.
  - eapply Hn; [|exact Hm]. apply HK. by left.
  - eapply IH; [|exact Hrest]. intros m' ?. apply HK. by right.
Qed.

Lemma explore_raises_RecursionError (K : list T) (depth : nat) (node : T)
    (result : list T) (e : exn) :
  closed K -> node ∈ K -> explore edges depth node result = Raise e -> e = RecursionError.
Proof.
  intros HK. revert node result e.
  assert (Hstep : forall depth, nested_raises_RecursionError K depth ->
            forall node result e, node ∈ K ->
              explore edges depth node result = Raise e -> e = RecursionError).
  { intros d Hn node result e Hin. rewrite explore_unfold.
    destruct (decide (node ∈ result)); [done|].
    destruct (HK node Hin) as (targets & -> & Htargets). cbn.
    intros [Hloop|(r1 & _ & [=])]%bind_Raise.
    by eapply for_each_nested_raises. }
  induction depth as [|d IH]; intros node result e; apply Hstep.
  - by intros n r e' _ [= <-].
  - intros n r e'. apply IH.
Qed.

Lemma topological_sort_raises_RecursionError (K : list T) (depth : nat) (e : exn) :
  closed K -> _topological_sort edges depth K = Raise e -> e = RecursionError.
Proof.
  intros HK. rewrite topological_sort_unfold.
  apply for_each_nested_raises with (K := K); [|done].
  intros node result e' Hin Hraise.
  by apply (explore_raises_RecursionError K depth node result).
Qed.

(** A cyclic graph: the sort never completes, whatever the recursion limit. *)
Lemma topological_sort_cyclic (K : list T) (depth : nat) (n : T) :
  closed K -> n ∈ K -> tc edge n n -> _topological_sort edges depth K = Raise RecursionError.
Proof.
  intros HK HnK Hcycle.
  destruct (_topological_sort edges depth K) as [result|e] eqn:Hsort.
  - exfalso. destruct (topological_sort_Done _ _ _ Hsort) as ((Hord & _) & Hin & _).
    apply (dependency_ordered_no_cycle result n Hord); [|done]. by apply Hin.
  - f_equal. by apply (topological_sort_raises_RecursionError K depth).
Qed.

(** *** Termination on acyclic graphs *)

Lemma chain_reaches (m : T) (stack : list T) (x : T) :
  chain (m :: stack) -> x ∈ stack -> tc edge x m.
Proof.
  revert m. induction stack as [|n stack IH]; intros m Hchain Hx.
  - by apply elem_of_nil in Hx.
  - inversion Hchain as [| |? ? ? He Hrest]; subst.
    apply elem_of_cons in Hx as [->|Hx].
    + by apply tc_once.
    + eapply tc_r; [|exact He]. by apply IH.
Qed.

Lemma chain_NoDup (stack : list T) : acyclic -> chain stack -> NoDup stack.
Proof.
  intros Hacyclic. induction stack as [|m stack IH]; intros Hchain; [constructor|].
  constructor.
  - intros Hm. apply (Hacyclic m). by apply chain_reaches with stack.
  - apply IH. inversion Hchain; subst; [constructor|done].
Qed.

Lemma for_each_nested_Done (depth : nat) (targets : list T) :
  (forall e result, e ∈ targets -> exists result', nested depth result e = Done result') ->
  forall result, exists result', for_each (nested depth) targets result = Done result'.
Proof.
  induction targets as [|e targets IH]; intros Hn result; simpl; [by eexists|].
  destruct (Hn e result) as [r1 ->]; [by left|]. cbn.
  apply IH. intros e' r ?. apply Hn. by right.
Qed.

(** With [K] closed and acyclic, [explore] completes as soon as the
    recursion limit leaves room for as many nested calls as [K] has nodes
    that are not on the stack yet. *)
Lemma explore_terminates (K : list T) (depth : nat) (node : T) (stack result : list T) :
  closed K -> acyclic ->
  chain (node :: stack) -> (forall x, x ∈ node :: stack -> x ∈ K) ->
  (length K <= depth + length (node :: stack))%nat ->
  exists result', explore edges depth node result = Done result'.
Proof.
  intros HK Hacyclic. revert node stack result.
  induction depth as [|d IH]; intros node stack result Hchain Hsub Hlen;
    rewrite explore_unfold; (destruct (decide (node ∈ result)); [by eexists|]);
    (destruct (HK node) as (targets & Hedges & Htargets); [apply Hsub; by left|]);
    rewrite Hedges; cbn.
  - destruct (for_each_nested_Done 0 targets) with (result := result) as [r1 ->];
      [|cbn; by eexists].
    intros e r He. exfalso.
    assert (Hchain' : chain (e :: node :: stack)).
    { constructor; [by exists targets|done]. }
    apply chain_NoDup in Hchain'; [|done].
    apply NoDup_submseteq with (k := K) in Hchain'.
    + apply submseteq_length in Hchain'. simpl in *. lia.
    + intros x [->|Hx]%elem_of_cons; [by apply Htargets|by apply Hsub].
  - destruct (for_each_nested_Done (S d) targets) with (result := result) as [r1 ->];
      [|cbn; by eexists].
    intros e r He. simpl. apply IH with (stack := node :: stack).
    + constructor; [by exists targets|done].
    + intros x [->|Hx]%elem_of_cons; [by apply Htargets|by apply Hsub].
    + simpl in *. lia.
Qed.

Lemma topological_sort_terminates (K : list T) (depth : nat) :
  closed K -> acyclic -> (length K <= S depth)%nat ->
  exists result, _topological_sort edges depth K = Done result.
Proof.
  intros HK Hacyclic Hlen. rewrite topological_sort_unfold.
  apply for_each_nested_Done. intros e result He. simpl.
  apply explore_terminates with (K := K) (stack := []); [done|done|constructor| |simpl; lia].
  intros x Hx. apply list_elem_of_singleton in Hx as ->. done.
Qed.

End topological_sort_properties.

(** ** The schema's reference graph *)

Lemma elem_of_referenced (members : list (string * member)) (B : string) :
  B ∈ CANStruct.referenced members <->
  (exists field, (field, MRef B) ∈ members) /\ B <> "bool".
Proof.
  unfold CANStruct.referenced. rewrite list_elem_of_omap. split.
  - intros ([field [s|typ]] & Hin & Hf); simpl in Hf; [done|].
    destruct (decide (typ = "bool")); [done|]. injection Hf as <-.
    split; [by exists field|done].
  - intros [[field Hin] Hne]. exists (field, MRef B). split; [done|].
    simpl. by destruct (decide (B = "bool")).
Qed.

Lemma edge_references (struct_defs : dict CANStruct.t) (A B : string) :
  edge (dependencies_of struct_defs) A B <-> references struct_defs A B.
Proof.
  unfold edge, dependencies_of, references, CANStruct.dependencies. split.
  - intros (targets & (def & Hget & Hdeps)%bind_Done & Hin).
    apply bind_Done in Hdeps as ([] & He & Hdeps).
    + injection Hdeps as <-. by apply elem_of_nil in Hin.
    + apply bind_Done in Hdeps as (members & Hm & [= <-]).
      apply elem_of_referenced in Hin as [[field Hin] Hne].
      exists def, members, field.
      destruct (CANStruct.is_enum def) as [[]|]; try done.
      destruct (CANStruct.struct_members def); try done.
      by injection Hm as ->.
  - intros (def & members & field & Hget & He & Hm & Hin & Hne).
    exists (CANStruct.referenced members). split.
    + rewrite Hget. cbn. rewrite He. cbn. by rewrite Hm.
    + apply elem_of_referenced. split; [by exists field|done].
Qed.

Lemma tc_edge_references (struct_defs : dict CANStruct.t) (A B : string) :
  tc (edge (dependencies_of struct_defs)) A B <-> tc (references struct_defs) A B.
Proof.
  split; apply (tc_congruence (fun x => x)); intros x y; apply edge_references.
Qed.

Lemma acyclic_schema (struct_defs : dict CANStruct.t) :
  schema_acyclic struct_defs -> acyclic (dependencies_of struct_defs).
Proof. intros Hacyclic n Hn. by apply (Hacyclic n), tc_edge_references. Qed.

Lemma closed_keys (struct_defs : dict CANStruct.t) :
  loaded struct_defs -> resolved struct_defs ->
  closed (dependencies_of struct_defs) (keys struct_defs).
Proof.
  intros Hloaded Hresolved n [def Hget]%dict_get_Done.
  assert (exists targets, CANStruct.dependencies def = Done targets) as [targets Hdeps].
  { unfold CANStruct.dependencies.
    destruct (Hloaded n def Hget) as [->|[-> [members ->]]]; cbn; by eexists. }
  exists targets. split.
  - unfold dependencies_of. by rewrite Hget.
  - intros m Hm. apply (Hresolved n), edge_references.
    exists targets. split; [|done]. unfold dependencies_of. by rewrite Hget.
Qed.

Lemma closed_rtc {T : Type} (edges : T -> outcome (list T)) (K : list T) (n x : T) :
  closed edges K -> n ∈ K -> rtc (edge edges) n x -> x ∈ K.
Proof.
  intros HK Hn Hrtc. induction Hrtc as [|n m x (targets & He & Hm) _ IH]; [done|].
  apply IH. destruct (HK n Hn) as (targets' & He' & Htargets).
  rewrite He in He'. injection He' as <-. by apply Htargets.
Qed.

Lemma references_key (struct_defs : dict CANStruct.t) (A B : string) :
  references struct_defs A B -> A ∈ keys struct_defs.
Proof. intros (def & _ & _ & Hget & _). apply dict_get_Done. by exists def. Qed.

Lemma acyclic_by_rank (struct_defs : dict CANStruct.t) (rank : string -> nat) :
  (forall A B, references struct_defs A B -> (rank B < rank A)%nat) ->
  schema_acyclic struct_defs.
Proof.
  intros Hrank A Hcycle.
  assert (Hlt : forall x y, tc (references struct_defs) x y -> (rank y < rank x)%nat).
  { intros x y Hxy. induction Hxy as [x y Hxy|x y z Hxy _ IH]; [by apply Hrank|].
    apply Hrank in Hxy. lia. }
  apply Hlt in Hcycle. lia.
Qed.

(** ** The order in which the codec emits the types *)

Lemma struct_order_Done (struct_defs : dict CANStruct.t) (depth : nat) (order : list string) :
  NoDup (keys struct_defs) -> loaded struct_defs -> resolved struct_defs ->
  schema_acyclic struct_defs ->
  struct_order depth struct_defs = Done order ->
  order ≡ₚ keys struct_defs
  /\ forall A B, references struct_defs A B -> before B A order.
Proof.
  intros Hkeys Hloaded Hresolved Hacyclic Hsort.
  pose proof (closed_keys _ Hloaded Hresolved) as HK.
  destruct (topological_sort_Done _ _ _ _ Hsort) as ((Hord & Hnodup) & Hall & Honly).
  split.
  - apply NoDup_Permutation; [by apply Hnodup, acyclic_schema|done|].
    intros x. split; [|apply Hall].
    intros (n & Hn & Hrtc)%Honly. by apply (closed_rtc _ _ n x HK).
  - intros A B Href.
    pose proof (Hall A (references_key _ _ _ Href)) as [j Hj]%list_elem_of_lookup.
    pose proof (Hord j A B Hj (proj2 (edge_references _ _ _) Href)) as [i Hi]%list_elem_of_lookup.
    apply lookup_take_Some in Hi as [Hi Hlt]. by exists i, j.
Qed.

(** C2.  For an acyclic schema whose references all resolve, the
    topological sort returns (as soon as the recursion limit allows one
    nested call per type) a list that holds every type name exactly once
    and in which, for every reference A -> B ([bool] excluded, enums having
    none), B comes before A. *)
Theorem topological_sort_orders_dependencies (struct_defs : dict CANStruct.t) :
  NoDup (keys struct_defs) -> loaded struct_defs -> resolved struct_defs ->
  schema_acyclic struct_defs ->
  (forall depth, (length struct_defs <= S depth)%nat ->
     exists order, struct_order depth struct_defs = Done order)
  /\ (forall depth order, struct_order depth struct_defs = Done order ->
        NoDup order
        /\ (forall name, name ∈ order <-> name ∈ keys struct_defs)
        /\ forall A B, references struct_defs A B -> before B A order).
Proof.
  intros Hkeys Hloaded Hresolved Hacyclic. split.
  - intros depth Hlen. apply topological_sort_terminates.
    + by apply closed_keys.
    + by apply acyclic_schema.
    + unfold keys. by rewrite length_fmap.
  - intros depth order Hsort.
    destruct (struct_order_Done _ _ _ Hkeys Hloaded Hresolved Hacyclic Hsort) as [Hperm Hbefore].
    split; [by rewrite Hperm|]. split; [|done].
    intros name. by rewrite Hperm.
Qed.

Lemma demo_defs_references (A B : string) :
  references demo_defs A B -> A = "Pong" /\ (B = "Pos" \/ B = "Color").
Proof.
  intros (def & members & field & Hget & He & Hm & Hin & Hne). simpl in Hget.
  repeat case_decide; simplify_eq/=;
    repeat (apply elem_of_cons in Hin as [Hin|Hin]; [simplify_eq; solve [auto|done]|]);
    by apply elem_of_nil in Hin.
Qed.

Lemma demo_defs_ok :
  NoDup (keys demo_defs) /\ loaded demo_defs /\ resolved demo_defs /\ schema_acyclic demo_defs.
Proof.
  split; [|split; [|split]].
  - by compute_done.
  - intros name def Hget. simpl in Hget.
    repeat (case_decide; [injection Hget as <-|]); try done.
    + right. by split; [|eexists].
    + right. by split; [|eexists].
    + by left.
  - intros A B [_ [->| ->]]%demo_defs_references; by compute_done.
  - apply acyclic_by_rank with (rank := fun s => if decide (s = "Pong") then 1%nat else 0%nat).
    intros A B [-> [->| ->]]%demo_defs_references; simpl; lia.
Qed.

(** The sort on the demo schema: the message, declared first, comes last. *)
Lemma topological_sort_orders_dependencies_witness :
  struct_order 2 demo_defs = Done ["Pos"; "Color"; "Pong"]
  /\ (forall depth, (length demo_defs <= S depth)%nat ->
        exists order, struct_order depth demo_defs = Done order)
  /\ (forall depth order, struct_order depth demo_defs = Done order ->
        NoDup order
        /\ (forall name, name ∈ order <-> name ∈ keys demo_defs)
        /\ forall A B, references demo_defs A B -> before B A order).
Proof.
  split; [reflexivity|].
  apply (topological_sort_orders_dependencies demo_defs); apply demo_defs_ok.
Defined.

(** ** Cyclic schemas *)

(** [size] of a definition on a cycle never returns. *)
Lemma size_on_cycle (struct_defs : dict CANStruct.t) (depth : nat) (A : string)
    (def : CANStruct.t) (n : Z) :
  tc (references struct_defs) A A ->
  dict_get A struct_defs = Done def ->
  CANStruct.size depth struct_defs def <> Done n.
Proof.
  revert A def n. induction depth as [|d IH]; intros A def n Hcycle Hget Hsize.
  all: assert (exists B, references struct_defs A B /\ tc (references struct_defs) B B)
         as (B & Href & HB).
  1,3: inversion Hcycle as [? ? Href|? B ? Href HBA]; subst;
         [by exists A|exists B; split; [done|]; eapply tc_r; [exact HBA|exact Href]].
  all: destruct Href as (def' & members & field & Hget' & He & Hm & Hin & Hne).
  all: rewrite Hget in Hget'; injection Hget' as <-.
  all: rewrite size_unfold, He in Hsize; cbn in Hsize; rewrite Hm in Hsize; cbn in Hsize.
  all: apply for_each_sum in Hsize as (ns & Hns & _).
  all: apply list_elem_of_lookup in Hin as [i Hi].
  all: destruct (Forall2_lookup_l _ _ _ _ _ Hns Hi) as (nB & _ & HnB); simpl in HnB.
  all: apply bind_Done in HnB as (defB & HgetB & HnB); simpl in HnB.
  - done.
  - by apply (IH B defB nB).
Qed.

Lemma cyclic_defs_ok :
  load_struct_defs cyclic_db = Done cyclic_defs
  /\ loaded cyclic_defs /\ resolved cyclic_defs /\ tc (references cyclic_defs) "A" "A".
Proof.
  split; [reflexivity|]. split; [|split].
  - intros name def Hget. simpl in Hget.
    repeat (case_decide; [injection Hget as <-|]); try done; right; by split; [|eexists].
  - intros A B (def & members & field & Hget & He & Hm & Hin & Hne). simpl in Hget.
    repeat case_decide; simplify_eq/=;
      repeat (apply elem_of_cons in Hin as [Hin|Hin]; [simplify_eq; by compute_done|]);
      by apply elem_of_nil in Hin.
  - apply tc_l with "B"; [|apply tc_once].
    + exists (CANStruct.struct_def "A" [("b", MRef "B")]), [("b", MRef "B")], "b".
      repeat split; try done. by left.
    + exists (CANStruct.struct_def "B" [("a", MRef "A")]), [("a", MRef "A")], "a".
      repeat split; try done. by left.
Qed.

Lemma database_to_cpp_order_raises (float_str : Z -> Z -> string) (depth : nat)
    (database : Database) (struct_defs : dict CANStruct.t) (e : exn) :
  load_struct_defs database = Done struct_defs ->
  struct_order depth struct_defs = Raise e ->
  database_to_cpp float_str depth database = Raise e.
Proof.
  intros Hload Hsort. unfold database_to_cpp, database_to_cpp_lines.
  rewrite Hload. cbn -[struct_order]. by rewrite Hsort.
Qed.

Lemma struct_order_cyclic (struct_defs : dict CANStruct.t) (A : string) :
  loaded struct_defs -> resolved struct_defs -> tc (references struct_defs) A A ->
  exhausts_recursion_limit (fun depth => struct_order depth struct_defs).
Proof.
  intros Hloaded Hresolved Hcycle depth.
  apply topological_sort_cyclic with (n := A).
  - by apply closed_keys.
  - inversion Hcycle as [? ? Href|? ? ? Href _]; subst; by apply references_key in Href.
  - by apply tc_edge_references.
Qed.

(** C1, as the code has it (counterexample to the claim).  With A
    referencing B and B referencing A nothing detects the revisit: codec
    generation and [size] recurse until the interpreter's recursion limit
    ends them, whatever that limit is, and the exception is the
    interpreter's [RecursionError]. *)
Lemma mutual_reference_recurses_to_the_limit :
  exhausts_recursion_limit (fun depth => database_to_cpp (fun _ _ => "") depth cyclic_db)
  /\ exhausts_recursion_limit
       (fun depth => def ← dict_get "A" cyclic_defs; CANStruct.size depth cyclic_defs def).
Proof.
  destruct cyclic_defs_ok as (Hload & Hloaded & Hresolved & Hcycle). split.
  - intros depth. apply database_to_cpp_order_raises with cyclic_defs; [done|].
    apply (struct_order_cyclic cyclic_defs "A" Hloaded Hresolved Hcycle depth).
  - assert (Hboth : forall depth,
      CANStruct.size depth cyclic_defs (CANStruct.struct_def "A" [("b", MRef "B")])
      = Raise RecursionError
      /\ CANStruct.size depth cyclic_defs (CANStruct.struct_def "B" [("a", MRef "A")])
         = Raise RecursionError).
    { induction depth as [|d [IHA IHB]]; [done|].
      split; rewrite size_unfold; cbn -[CANStruct.size]; repeat case_decide; try done;
        cbn -[CANStruct.size].
      - by rewrite IHB.
      - by rewrite IHA. }
    intros depth. apply Hboth.
Qed.

(** C1, amended.  In a loaded schema whose references resolve and whose
    reference graph has a cycle, the topological sort (and with it codec
    generation) ends in [RecursionError] at every recursion limit, and
    [size] of a type on the cycle returns at no recursion limit. *)
Theorem cyclic_schema_exhausts_recursion_limit (struct_defs : dict CANStruct.t) (A : string) :
  loaded struct_defs -> resolved struct_defs -> tc (references struct_defs) A A ->
  exhausts_recursion_limit (fun depth => struct_order depth struct_defs)
  /\ (forall float_str database,
        load_struct_defs database = Done struct_defs ->
        exhausts_recursion_limit (fun depth => database_to_cpp float_str depth database))
  /\ (forall depth def n,
        dict_get A struct_defs = Done def -> CANStruct.size depth struct_defs def <> Done n).
Proof.
  intros Hloaded Hresolved Hcycle.
  pose proof (struct_order_cyclic struct_defs A Hloaded Hresolved Hcycle) as Hsort.
  split; [done|]. split.
  - intros float_str database Hload depth.
    apply database_to_cpp_order_raises with struct_defs; [done|apply Hsort].
  - intros depth def n. by apply size_on_cycle.
Qed.

(** The theorem at the two types that reference each other. *)
Lemma cyclic_schema_exhausts_recursion_limit_witness :
  exhausts_recursion_limit (fun depth => struct_order depth cyclic_defs)
  /\ (forall float_str database,
        load_struct_defs database = Done cyclic_defs ->
        exhausts_recursion_limit (fun depth => database_to_cpp float_str depth database))
  /\ (forall depth def n,
        dict_get "A" cyclic_defs = Done def -> CANStruct.size depth cyclic_defs def <> Done n).
Proof.
  apply (cyclic_schema_exhausts_recursion_limit cyclic_defs "A"); apply cyclic_defs_ok.
Defined.

(** ** The loaded definition map *)

Lemma init_name (name : string) (y : yaml) (def : CANStruct.t) :
  CANStruct.__init__ name y = Done def -> CANStruct.name def = name.
Proof.
  destruct y as [s|items|d]; simpl.
  - by intros [= <-].
  - by intros (members & _ & [= <-])%bind_Done.
  - destruct (decide (keys d = ["enum"])); [|done].
    intros ([| |] & _ & Hdef)%bind_Done; try done.
    by apply bind_Done in Hdef as (labels & _ & [= <-]).
Qed.

Lemma load_section_well_named (section : dict yaml) (defs defs' : dict CANStruct.t) :
  load_section section defs = Done defs' -> well_named defs -> well_named defs'.
Proof.
  unfold load_section. generalize (keys section) as names.
  intros names. revert defs. induction names as [|name names IH]; intros defs; simpl.
  - by intros [= <-].
  - intros (defs1 & (y & _ & (def & Hinit & [= <-])%bind_Done)%bind_Done & Hrest)%bind_Done
      [Hnodup Hnames].
    apply (IH _ Hrest). split.
    + rewrite keys_dict_set. destruct (decide (name ∈ keys defs)); [done|].
      apply NoDup_app. split; [done|]. split; [|apply NoDup_singleton].
      intros x Hx Hx'. by apply list_elem_of_singleton in Hx' as ->.
    + intros k def'. rewrite dict_get_set. destruct (decide (k = name)) as [->|].
      * intros [= <-]. by apply init_name in Hinit.
      * apply Hnames.
Qed.

Lemma load_struct_defs_well_named (database : Database) (struct_defs : dict CANStruct.t) :
  load_struct_defs database = Done struct_defs -> well_named struct_defs.
Proof.
  intros (defs & Hstructs & Hmessages)%bind_Done.
  apply (load_section_well_named _ _ _ Hmessages).
  apply (load_section_well_named _ _ _ Hstructs).
  split; [constructor|done].
Qed.

(** ** Message discriminators *)

(** C5.  In the outputs of one database, the message declared at position
    [i] of the [messages] section has a [Message] node, the [i]-th child of
    the [Bus] node, whose [id] is [i] and whose [name] is the message's,
    and the [i]-th constant of [enum class MessageDiscriminator] is the
    message's name with value [i]. *)
Theorem message_ids_follow_declaration_order (float_str : Z -> Z -> string) (depth : nat)
    (database : Database) (xml : XML.t) (lines : list string) :
  database_to_kcd float_str depth database = Done xml ->
  database_to_cpp_lines float_str depth database = Done lines ->
  exists document bus pre constants post,
    XML.children xml = [document; bus]
    /\ XML.name bus = "Bus"
    /\ length (XML.children bus) = length (keys (db_messages database))
    /\ lines = pre ++ ["enum class MessageDiscriminator {"] ++ constants ++ ["};"] ++ post
    /\ length pre = 16%nat
    /\ length constants = length (keys (db_messages database))
    /\ forall (i : nat) (name : string),
         keys (db_messages database) !! i = Some name ->
         (exists message,
            XML.children bus !! i = Some message
            /\ XML.name message = "Message"
            /\ XML.property "id" message = Done (str (Z.of_nat i))
            /\ XML.property "name" message = Done name)
         /\ constants !! i = Some ("  " +:+ name +:+ " = " +:+ str (Z.of_nat i) +:+ ",").
Proof.
  intros (struct_defs & Hload & (messages & Hmessages & [= <-])%bind_Done)%bind_Done Hcpp.
  unfold database_to_cpp_lines in Hcpp. rewrite Hload in Hcpp.
  apply bind_Done in Hcpp as (defs' & [= <-] & Hcpp).
  apply bind_Done in Hcpp as (order & _ & (body & _ & [= <-])%bind_Done).
  pose proof (load_struct_defs_well_named _ _ Hload) as [_ Hnames].
  eexists _, _. exists (preamble database ++ read_lines ++ write_lines),
    (discriminator_constants (keys (db_messages database))),
    (bool_lines ++ concat body ++ closing database).
  split; [reflexivity|]. split; [reflexivity|].
  split; [|split; [|split; [|split]]].
  - cbn [XML.children]. apply map_each_Done_length in Hmessages. rewrite Hmessages.
    unfold enumerate. by rewrite length_imap.
  - unfold discriminator_lines. by rewrite <- !app_assoc.
  - reflexivity.
  - unfold discriminator_constants, enumerate. by rewrite length_fmap, length_imap.
  - intros i name Hi. split.
    + destruct (map_each_Done_lookup _ _ _ i _ Hmessages (enumerate_lookup _ _ _ Hi))
        as (message & Hmessage & Hser).
      exists message. split; [done|]. simpl in Hser.
      apply bind_Done in Hser as (def & Hget & Hser).
      apply bind_Done in Hser as (serializer & _ & [= <-]).
      split; [done|]. split; [done|]. unfold XML.property. simpl.
      repeat (case_decide; try done). f_equal. by apply Hnames.
    + unfold discriminator_constants.
      by rewrite list_lookup_fmap, (enumerate_lookup _ _ _ Hi).
Qed.

(** The theorem at the messages [Ping], [Pong]: ids 0 and 1. *)
Lemma message_ids_follow_declaration_order_witness :
  exists xml lines,
    database_to_kcd (fun _ _ => "") 0 ping_pong_db = Done xml
    /\ database_to_cpp_lines (fun _ _ => "") 0 ping_pong_db = Done lines
    /\ exists document bus pre constants post,
         XML.children xml = [document; bus]
         /\ XML.name bus = "Bus"
         /\ length (XML.children bus) = length (keys (db_messages ping_pong_db))
         /\ lines = pre ++ ["enum class MessageDiscriminator {"] ++ constants ++ ["};"] ++ post
         /\ length pre = 16%nat
         /\ length constants = length (keys (db_messages ping_pong_db))
         /\ forall (i : nat) (name : string),
              keys (db_messages ping_pong_db) !! i = Some name ->
              (exists message,
                 XML.children bus !! i = Some message
                 /\ XML.name message = "Message"
                 /\ XML.property "id" message = Done (str (Z.of_nat i))
                 /\ XML.property "name" message = Done name)
              /\ constants !! i = Some ("  " +:+ name +:+ " = " +:+ str (Z.of_nat i) +:+ ",").
Proof.
  destruct (database_to_kcd (fun _ _ => "") 0 ping_pong_db) as [xml|e] eqn:Hkcd;
    [|vm_compute in Hkcd; discriminate].
  destruct (database_to_cpp_lines (fun _ _ => "") 0 ping_pong_db) as [lines|e] eqn:Hcpp;
    [|vm_compute in Hcpp; discriminate].
  exists xml, lines. split; [reflexivity|]. split; [reflexivity|].
  exact (message_ids_follow_declaration_order (fun _ _ => "") 0 ping_pong_db xml lines Hkcd Hcpp).
Defined.

(** ** The driver: what a failed run leaves behind *)





(** ** The emitted routines: order and widths *)

(** The decode routine has one line per member, in declared order: the
    line of a member assigns its field from a read of the member's bit
    count. *)
Lemma deserialize_lines_in_declared_order (float_str : Z -> Z -> string) (depth : nat)
    (struct_defs : dict CANStruct.t) (members : list (string * member))
    (reads : list string) (i : nat) (m : string * member) :
  map_each (CANStruct.deserialize_line float_str depth struct_defs) members = Done reads ->
  members !! i = Some m ->
  match m.2 with
  | MSignal s =>
      exists slope,
        CANSignal.slope float_str s = Done slope
        /\ reads !! i
           = Some ("  self." +:+ m.1 +:+ " = (double)read(buffer, " +:+ str (CANSignal.size s)
                   +:+ ") * " +:+ slope +:+ " + " +:+ str (CANSignal.min s) +:+ ";")
  | MRef typ =>
      exists bits,
        CANStruct.reference_size depth struct_defs typ = Done bits
        /\ reads !! i
           = Some ("  self." +:+ m.1 +:+ " = " +:+ typ +:+ "_deserialize(read(buffer, "
                   +:+ str bits +:+ "));")
  end.
Proof.
  intros Hreads Hi.
  destruct (map_each_Done_lookup _ _ _ _ _ Hreads Hi) as (line & -> & Hline).
  destruct m as [field [s|typ]]; unfold CANStruct.deserialize_line in Hline; simpl in *.
  - apply bind_Done in Hline as (slope & Hslope & [= <-]). exists slope. split; [done|].
    first [done|simpl; by rewrite ?append_assoc].
  - apply bind_Done in Hline as (n & Hn & [= <-]). exists n. split; [done|].
    first [done|simpl; by rewrite ?append_assoc].
Qed.

(** The encode routine has one line per member, in reverse declared order:
    the line of a member writes the member's bit count and the member's
    field. *)
Lemma serialize_lines_in_reverse_order (float_str : Z -> Z -> string) (depth : nat)
    (struct_defs : dict CANStruct.t) (members : list (string * member))
    (writes : list string) (i : nat) (m : string * member) :
  map_each (CANStruct.serialize_line float_str depth struct_defs) (reverse members) = Done writes ->
  members !! i = Some m ->
  match m.2 with
  | MSignal s =>
      exists slope,
        CANSignal.slope float_str s = Done slope
        /\ writes !! (length members - S i)%nat
           = Some ("  write(ser, " +:+ str (CANSignal.size s) +:+ ", (data." +:+ m.1 +:+ " - "
                   +:+ str (CANSignal.min s) +:+ ") / " +:+ slope +:+ ");")
  | MRef typ =>
      exists bits,
        CANStruct.reference_size depth struct_defs typ = Done bits
        /\ writes !! (length members - S i)%nat
           = Some ("  write(ser, " +:+ str bits +:+ ", serialize(data." +:+ m.1 +:+ "));")
  end.
Proof.
  intros Hwrites Hi.
  assert (Hrev : reverse members !! (length members - S i)%nat = Some m).
  { apply lookup_lt_Some in Hi as Hlt. rewrite reverse_lookup by lia.
    rewrite <- Hi. f_equal. lia. }
  destruct (map_each_Done_lookup _ _ _ _ _ Hwrites Hrev) as (line & -> & Hline).
  destruct m as [field [s|typ]]; unfold CANStruct.serialize_line in Hline; simpl in *.
  - apply bind_Done in Hline as (slope & Hslope & [= <-]). exists slope. split; [done|].
    first [done|simpl; by rewrite ?append_assoc].
  - apply bind_Done in Hline as (n & Hn & [= <-]). exists n. split; [done|].
    first [done|simpl; by rewrite ?append_assoc].
Qed.

(** Where [read] is defined it returns the low [bits] bits and leaves the
    buffer shifted right by [bits]. *)
Lemma read_low_bits (buffer bits : Z) :
  0 <= bits < 31 ->
  Codec.read buffer bits = Some (buffer mod 2 ^ bits, buffer / 2 ^ bits).
Proof.
  intros Hbits. unfold Codec.read. rewrite Z.mod_small by lia.
  destruct (Z.ltb_spec bits 31); [|lia].
  rewrite Z.shiftl_1_l, Z.sub_1_r, <- Z.ones_equiv, Z.land_ones, Z.shiftr_div_pow2 by lia.
  done.
Qed.

(** Where [write] is defined it shifts the buffer left by [bits] and ORs
    the data in. *)
Lemma write_shift_or (buffer bits data : Z) :
  0 <= bits < 64 ->
  Codec.write buffer bits data = Some (Z.lor ((buffer * 2 ^ bits) mod 2 ^ 64) data).
Proof.
  intros Hbits. unfold Codec.write, Codec.uint64. rewrite Z.mod_small by lia.
  destruct (Z.ltb_spec bits 64); [|lia]. by rewrite Z.shiftl_mul_pow2 by lia.
Qed.

(** C6 (the code departs from the claim).  For the struct
    [{flag: bool, count: {range: [0, 100], size: 32}}] the decode lines are
    in declared order and the encode lines in reverse order, each with the
    member's width, as the claim says; but the emitted [read] computes its
    mask [(1 << bits) - 1] in [int], so the read of the 32-bit member has no
    defined result: it does not consume the low 32 bits. *)
Theorem wide_member_read_is_undefined (float_str : Z -> Z -> string) (depth : nat)
    (struct_defs : dict CANStruct.t) (buffer : Z) :
  (exists members, CANStruct.struct_members wide_struct = Some members
     /\ map_each (CANStruct.deserialize_line float_str depth struct_defs) members
        = Done ["  self.flag = bool_deserialize(read(buffer, 1));";
                "  self.count = (double)read(buffer, 32) * " +:+ float_str 100 32 +:+ " + 0;"]
     /\ map_each (CANStruct.serialize_line float_str depth struct_defs) (reverse members)
        = Done ["  write(ser, 32, (data.count - 0) / " +:+ float_str 100 32 +:+ ");";
                "  write(ser, 1, serialize(data.flag));"])
  /\ read_lines !! 2%nat = Some "  uint64_t res = buffer & ((1 << bits) - 1);"
  /\ Codec.read buffer 1 = Some (buffer mod 2, buffer / 2)
  /\ Codec.read (buffer / 2) 32 = None
  /\ Codec.deserialize 0 depth struct_defs wide_struct buffer = None.
Proof.
  split; [eexists; split; [reflexivity|]; split; reflexivity|].
  split; [reflexivity|]. split; [by apply (read_low_bits buffer 1)|].
  split; reflexivity.
Qed.

(** ** The emitted routines: round trips *)

(** C7 (the code departs from the claim).  For the scenario struct
    [{a: bool, b: {range: [0, 10], size: 4}}] the codec is generated, and
    the buffer 15 (a = 1, b at level 7) decodes to a record whose [b] is the
    exact level 7 (7 * slope + 0 in doubles).  Encoding that record yields
    13, not 15: [(data.b - 0) / slope] is just below 7 in doubles and the
    conversion to [uint64_t] truncates it to 6.  Decoding 13 gives another
    record, so neither round trip holds. *)
Theorem scenario_round_trip_loses_a_level (float_str : Z -> Z -> string) (depth : nat) :
  let S := scenario_struct "S" in
  let struct_defs := [("S", S)] in
  (exists lines, CANStruct.serialize_cpp float_str depth S struct_defs = Done lines)
  /\ exists record record',
       Codec.deserialize 0 depth struct_defs S 15 = Some record
       /\ Codec.serialize 0 depth struct_defs S record = Some 13
       /\ Codec.deserialize 0 depth struct_defs S 13 = Some record'
       /\ record' <> record.
Proof.
  intros S struct_defs. split; [by eexists|].
  eexists _, _. split; [vm_compute; reflexivity|].
  split; [vm_compute; reflexivity|]. split; [vm_compute; reflexivity|].
  intros [= H]. all: try (apply (f_equal Prim2SF) in H; vm_compute in H; discriminate).
Qed.

(** * Further properties of the generator *)

(** ** Loops *)

Lemma for_each_Done_elem {A S : Type} (f : S -> A -> outcome S) (l : list A) (s s' : S) (x : A) :
  for_each f l s = Done s' -> x ∈ l -> exists s1 s2, f s1 x = Done s2.
Proof.
  revert s. induction l as [|y l IH]; intros s; simpl; [by intros _ ?%elem_of_nil|].
  intros (s1 & Hy & Hrest)%bind_Done [->|Hx]%elem_of_cons; [by eexists _, _|].
  by apply (IH _ Hrest).
Qed.

Lemma map_each_Done_elem {A B : Type} (f : A -> outcome B) (l : list A) (r : list B) (x : A) :
  map_each f l = Done r -> x ∈ l -> exists y, f x = Done y.
Proof.
  intros Hr [i Hi]%list_elem_of_lookup.
  destruct (map_each_Done_lookup _ _ _ _ _ Hr Hi) as (y & _ & Hy). by exists y.
Qed.

Lemma map_each_Raise {A B : Type} (f : A -> outcome B) (l : list A) (e : exn) :
  map_each f l = Raise e -> exists x, x ∈ l /\ f x = Raise e.
Proof.
  induction l as [|y l IH]; simpl; [done|].
  intros [Hy|(b & _ & [Hl|(bs & _ & [=])]%bind_Raise)]%bind_Raise.
  - exists y. split; [by left|done].
  - destruct (IH Hl) as (x & ? & ?). exists x. split; [by right|done].
Qed.

(** ** The schema model loader *)

Lemma dict_get_Raise {V : Type} (k : string) (d : dict V) (e : exn) :
  dict_get k d = Raise e -> e = KeyError k /\ k ∉ keys d.
Proof.
  intros Hget. destruct (decide (k ∈ keys d)) as [[v Hv]%dict_get_Done|Hk].
  - by rewrite Hv in Hget.
  - split; [|done]. clear Hk. induction d as [|[k' v] d IH]; simpl in Hget.
    + by injection Hget as <-.
    + destruct (decide (k = k')); [done|by apply IH].
Qed.

Lemma dict_has_get {V : Type} (k : string) (d : dict V) :
  dict_has k d = true -> exists v, dict_get k d = Done v.
Proof. unfold dict_has. intros Hk%bool_decide_eq_true. by apply dict_get_Done. Qed.

(** What loading a signal can raise. *)
Lemma signal_load_errors (params : yaml) (e : exn) :
  CANSignal.__init__ params = Raise e ->
  e = TypeError \/ e = KeyError "range" \/ e = IndexError \/ e = OutsideModel.
Proof.
  destruct params as [s|l|d]; simpl; [by intros [= <-]; left..|].
  intros [Hunit|(unit & _ & [Hrange|(range & _ & [Hbounds|([lo hi] & _ & Hsize)]%bind_Raise)]
                             %bind_Raise)]%bind_Raise.
  - destruct (dict_has "unit" d) eqn:Hhas; [|done].
    apply dict_has_get in Hhas as [u Hu]. rewrite Hu in Hunit. simpl in Hunit.
    repeat case_match; simplify_eq; auto.
  - apply dict_get_Raise in Hrange as [-> _]. auto.
  - repeat case_match; simplify_eq; auto.
  - apply bind_Raise in Hsize as [Hsize|(n & _ & [=])].
    destruct (dict_has "size" d) eqn:Hhas; [|done].
    apply dict_has_get in Hhas as [u Hu]. rewrite Hu in Hsize. simpl in Hsize.
    repeat case_match; simplify_eq; auto.
Qed.

(** X1.  Loading a struct body keeps one member per element, in the order
    of the body, named by the first key of the element; the other keys of
    an element are not looked at. *)
Theorem struct_body_members (name : string) (items : list yaml) (def : CANStruct.t) :
  CANStruct.__init__ name (YList items) = Done def ->
  exists members,
    def = CANStruct.struct_def name members
    /\ length members = length items
    /\ forall i item,
         items !! i = Some item ->
         exists k v rest m,
           item = YDict ((k, v) :: rest)
           /\ CANStruct._member_type_to_signal v = Done m
           /\ members !! i = Some (k, m).
Proof.
  intros (members & Hmembers & [= <-])%bind_Done. exists members.
  split; [done|]. split; [by apply map_each_Done_length in Hmembers|].
  intros i item Hi.
  destruct (map_each_Done_lookup _ _ _ _ _ Hmembers Hi) as ([k m] & Hm & Hload).
  destruct item as [s|l|[|[k' v] rest]]; try done. simpl in Hload.
  apply bind_Done in Hload as (m' & Hv & [= <- <-]). by exists k', v, rest, m'.
Qed.

(** The theorem at a body whose second element has a second key [c]. *)
Lemma struct_body_members_witness :
  exists def members,
    CANStruct.__init__ "S" two_key_node = Done def
    /\ def = CANStruct.struct_def "S" members
    /\ members = [("a", MRef "bool"); ("b", MRef "Pos")]
    /\ length members = 2%nat.
Proof.
  destruct (CANStruct.__init__ "S" two_key_node) as [def|e] eqn:Hdef; [|done].
  destruct (struct_body_members "S" _ def Hdef) as (members & Hstruct & Hlen & _).
  exists def, members. split; [done|]. split; [done|]. split; [|done].
  injection Hdef as <-. by injection Hstruct as <-.
Defined.

(** X2.  [CANSemanticException] is raised for exactly one shape of node: a
    mapping whose list of keys is not [['enum']].  A list (whatever its
    members) and a scalar never raise it. *)
Theorem semantic_error_shape (name : string) (y : yaml) :
  CANStruct.__init__ name y = Raise CANSemanticException <->
  exists d, y = YDict d /\ keys d <> ["enum"].
Proof.
  split.
  - destruct y as [s|items|d]; simpl; [done| |].
    + intros [Hitems|(members & _ & [=])]%bind_Raise.
      apply map_each_Raise in Hitems as (item & _ & Hitem). exfalso.
      destruct item as [s|l|[|[k v] rest]]; try done. simpl in Hitem.
      apply bind_Raise in Hitem as [Hv|(m & _ & [=])].
      assert (exists params, CANSignal.__init__ params = Raise CANSemanticException)
        as [params Hparams].
      { destruct v as [[s| |]|l|d]; try done.
        exists (YDict d). unfold CANStruct._member_type_to_signal in Hv.
        destruct (CANSignal.__init__ (YDict d)) as [a|e]; cbn in Hv; [done|].
        by injection Hv as ->. }
      by apply signal_load_errors in Hparams as [?|[?|[?|?]]].
    + destruct (decide (keys d = ["enum"])) as [Hkeys|Hkeys]; [|by exists d].
      intros [Hget|(labels & Hget & Hlabels)]%bind_Raise; exfalso.
      * assert ("enum" ∈ keys d) as [v Hv]%dict_get_Done by (rewrite Hkeys; by left).
        by rewrite Hv in Hget.
      * destruct labels as [s|ls|d']; try done.
        apply bind_Raise in Hlabels as [Hls|(ls' & _ & [=])].
        apply map_each_Raise in Hls as (l & _ & Hl).
        by destruct l as [[]| |].
  - intros (d & -> & Hkeys). simpl. by rewrite decide_False.
Qed.

(** ** Enums in the two outputs *)

(** X3.  The label at position [i] of an enum gets the value [i] in both
    outputs: the [i]-th constant of the emitted [enum class] is
    [label = i], and the [i]-th [Label] of the descriptor's [LabelSet] has
    that name and the value [i]. *)
Theorem enum_labels_keep_their_index (float_str : Z -> Z -> string) (depth : nat)
    (name : string) (labels : list string) (struct_defs : dict CANStruct.t)
    (serializer : KCDMessageSerializer.t) (name_base : string) (i : nat) (label : string) :
  labels !! i = Some label ->
  (exists lines,
     CANStruct.serialize_cpp float_str depth (CANStruct.enum_def name labels) struct_defs
     = Done lines
     /\ lines !! 0%nat = Some ("enum class " +:+ name +:+ " {")
     /\ lines !! S i = Some ("  " +:+ label +:+ " = " +:+ str (Z.of_nat i) +:+ ","))
  /\ (exists serializer' leaf label_set,
        CANStruct.serialize_members_kcd float_str depth (CANStruct.enum_def name labels)
          serializer struct_defs name_base = Done serializer'
        /\ KCDMessageSerializer.contents serializer'
           = KCDMessageSerializer.contents serializer ++ [leaf]
        /\ XML.children leaf = [label_set]
        /\ XML.name label_set = "LabelSet"
        /\ XML.children label_set !! i
           = Some (XML.new "Label" [("name", label); ("value", str (Z.of_nat i))] [] "")).
Proof.
  intros Hi. split.
  - eexists. split; [reflexivity|]. split; [done|].
    unfold CANStruct.serialize_cpp_enum.
    change (([?x] ++ ?l) !! S i) with (l !! i).
    rewrite lookup_app_l.
    + by rewrite list_lookup_fmap, (enumerate_lookup _ _ _ Hi).
    + rewrite length_fmap. unfold enumerate. rewrite length_imap.
      by apply lookup_lt_Some in Hi.
  - rewrite serialize_members_kcd_unfold, size_unfold. cbn.
    assert (length labels <> 0%nat) as Hne.
    { apply lookup_lt_Some in Hi. lia. }
    unfold CANStruct.ceil_log2. rewrite decide_False by done. cbn.
    eexists _, _, _. split; [reflexivity|]. split; [reflexivity|].
    split; [reflexivity|]. split; [reflexivity|]. cbn.
    by rewrite list_lookup_fmap, (enumerate_lookup _ _ _ Hi).
Qed.

(** The theorem at [BLUE], the third label of the demo schema's enum. *)
Lemma enum_labels_keep_their_index_witness :
  exists lines,
    CANStruct.serialize_cpp (fun _ _ => "") 0 (CANStruct.enum_def "Color" ["RED"; "GREEN"; "BLUE"]) []
    = Done lines
    /\ lines !! 0%nat = Some "enum class Color {"
    /\ lines !! 3%nat = Some "  BLUE = 2,".
Proof.
  exact (proj1 (enum_labels_keep_their_index (fun _ _ => "") 0 "Color" ["RED"; "GREEN"; "BLUE"] []
                  KCDMessageSerializer.__init__ "" 2 "BLUE" eq_refl)).
Defined.

(** X4.  A message whose body is an enum is described by a single leaf, and
    that leaf's name is the empty string: the name is the (empty) prefix with
    its trailing underscores removed. *)
Theorem enum_message_is_one_nameless_leaf (float_str : Z -> Z -> string) (depth : nat)
    (name label : string) (labels : list string) (struct_defs : dict CANStruct.t) (id : Z) :
  exists leaf,
    CANStruct.serialize_message_kcd float_str depth
      (CANStruct.enum_def name (label :: labels)) struct_defs id
    = Done (XML.new "Message" [("id", str id); ("name", name)] [leaf] "")
    /\ XML.name leaf = "Signal"
    /\ XML.property "name" leaf = Done ""
    /\ XML.property "offset" leaf = Done "0"
    /\ XML.property "length" leaf
       = Done (str (Z.log2_up (Z.of_nat (length (label :: labels))))).
Proof.
  eexists. split; [|split; [|split; [|split]]].
  - unfold CANStruct.serialize_message_kcd. rewrite serialize_members_kcd_unfold, size_unfold.
    reflexivity.
  - reflexivity.
  - reflexivity.
  - reflexivity.
  - reflexivity.
Qed.

(** X5.  An enum without labels loads, and the codec emitter writes its
    type; but it has no size: [size] and the descriptor emitter raise
    [ValueError] (the logarithm of 0), and so does the bit count of any
    member of that type. *)
Theorem empty_enum_has_no_size (name : string) :
  CANStruct.__init__ name (YDict [("enum", YList [])]) = Done (CANStruct.enum_def name [])
  /\ (forall depth struct_defs,
        CANStruct.size depth struct_defs (CANStruct.enum_def name []) = Raise ValueError)
  /\ (forall float_str depth serializer struct_defs name_base,
        CANStruct.serialize_members_kcd float_str depth (CANStruct.enum_def name [])
          serializer struct_defs name_base = Raise ValueError)
  /\ (forall float_str depth struct_defs,
        exists lines,
          CANStruct.serialize_cpp float_str depth (CANStruct.enum_def name []) struct_defs
          = Done lines
          /\ take 2 lines = ["enum class " +:+ name +:+ " {"; "};"])
  /\ (forall depth struct_defs,
        dict_get name struct_defs = Done (CANStruct.enum_def name []) -> name <> "bool" ->
        CANStruct.reference_size depth struct_defs name = Raise ValueError).
Proof.
  split; [exact (enum_node_loaded name [])|].
  split; [by intros []|]. split; [by intros ? []|].
  split; [intros; by eexists|].
  intros depth struct_defs Hget Hname. unfold CANStruct.reference_size.
  rewrite decide_False by done. rewrite Hget. cbn. by destruct depth.
Qed.

(** ** Signals of width 0 *)

(** X6.  Nothing rejects a signal of size 0 when it is loaded, and [size]
    counts it as 0 bits; but its slope divides by [2 ** 0 - 1 = 0], so a
    struct that has such a member is emitted by neither emitter. *)
Theorem zero_width_signal_is_not_emitted (float_str : Z -> Z -> string) (depth : nat)
    (struct_defs : dict CANStruct.t) (name field : string)
    (members : list (string * member)) (s : CANSignal.t) :
  CANSignal.size s = 0 ->
  (field, MSignal s) ∈ members ->
  member_size depth struct_defs (MSignal s) = Done 0
  /\ (forall lines,
        CANStruct.serialize_cpp float_str depth (CANStruct.struct_def name members) struct_defs
        <> Done lines)
  /\ (forall serializer name_base serializer',
        CANStruct.serialize_members_kcd float_str depth (CANStruct.struct_def name members)
          serializer struct_defs name_base <> Done serializer').
Proof.
  intros Hsize Hin.
  assert (Hslope : CANSignal.slope float_str s = Raise ZeroDivisionError).
  { unfold CANSignal.slope. by rewrite decide_True. }
  split; [simpl; by rewrite Hsize|]. split.
  - intros lines Hlines. unfold CANStruct.serialize_cpp in Hlines. cbn in Hlines.
    apply bind_Done in Hlines as (reads & Hreads & _).
    destruct (map_each_Done_elem _ _ _ _ Hreads Hin) as [line Hline].
    unfold CANStruct.deserialize_line in Hline. simpl in Hline. by rewrite Hslope in Hline.
  - intros serializer name_base serializer'. rewrite serialize_members_kcd_unfold. cbn.
    intros Hloop. destruct (for_each_Done_elem _ _ _ _ _ Hloop Hin) as (s1 & s2 & Hstep).
    unfold member_kcd, CANSignal.serialize_kcd in Hstep. simpl in Hstep.
    by rewrite Hslope in Hstep.
Qed.

(** The theorem at the struct loaded from [{z: {range: [0, 10], size: 0}}]. *)
Lemma zero_width_signal_is_not_emitted_witness :
  CANStruct.__init__ "Z" zero_width_node
  = Done (CANStruct.struct_def "Z" [("z", MSignal (CANSignal.new "" 0 10 0))])
  /\ CANStruct.size 0 [] (CANStruct.struct_def "Z" [("z", MSignal (CANSignal.new "" 0 10 0))])
     = Done 0
  /\ forall lines,
       CANStruct.serialize_cpp (fun _ _ => "") 0
         (CANStruct.struct_def "Z" [("z", MSignal (CANSignal.new "" 0 10 0))]) []
       <> Done lines.
Proof.
  split; [reflexivity|]. split; [reflexivity|].
  apply (zero_width_signal_is_not_emitted (fun _ _ => "") 0 [] "Z" "z"
           [("z", MSignal (CANSignal.new "" 0 10 0))] (CANSignal.new "" 0 10 0) eq_refl).
  by left.
Defined.

(** ** The descriptor's bit layout *)

Lemma foldr_add_app (l1 l2 : list Z) :
  foldr Z.add 0 (l1 ++ l2) = foldr Z.add 0 l1 + foldr Z.add 0 l2.
Proof. induction l1 as [|x l1 IH]; simpl; lia. Qed.

Lemma contiguous_app (start : Z) (l1 l2 : list XML.t) (ns1 ns2 : list Z) :
  contiguous start l1 ns1 ->
  contiguous (start + foldr Z.add 0 ns1) l2 ns2 ->
  contiguous start (l1 ++ l2) (ns1 ++ ns2).
Proof.
  revert start ns1. induction l1 as [|x l1 IH]; intros start [|n ns1]; simpl; try done.
  - by rewrite Z.add_0_r.
  - intros [Hx Hl1] Hl2. split; [done|]. apply IH; [done|].
    by rewrite <- Z.add_assoc.
Qed.

Lemma laid_out_refl (serializer : KCDMessageSerializer.t) : laid_out serializer serializer.
Proof. exists [], []. split; [by rewrite app_nil_r|]. split; [done|simpl; lia]. Qed.

Lemma laid_out_trans (s1 s2 s3 : KCDMessageSerializer.t) :
  laid_out s1 s2 -> laid_out s2 s3 -> laid_out s1 s3.
Proof.
  intros (new1 & ns1 & Hc1 & Hl1 & Hp1) (new2 & ns2 & Hc2 & Hl2 & Hp2).
  exists (new1 ++ new2), (ns1 ++ ns2). split; [by rewrite Hc2, Hc1, app_assoc|].
  split; [apply contiguous_app; [done|by rewrite <- Hp1]|].
  rewrite Hp2, Hp1, foldr_add_app. lia.
Qed.

Lemma laid_out_write (serializer : KCDMessageSerializer.t) (xml : XML.t) (n : Z) :
  leaf_at xml (KCDMessageSerializer.bit_pos serializer) n ->
  laid_out serializer (KCDMessageSerializer.write serializer xml n).
Proof.
  intros Hleaf. exists [xml], [n]. split; [done|]. split; [done|simpl; lia].
Qed.

Lemma serialize_members_kcd_laid_out (float_str : Z -> Z -> string) (depth : nat)
    (self : CANStruct.t) (serializer serializer' : KCDMessageSerializer.t)
    (struct_defs : dict CANStruct.t) (name_base : string) :
  CANStruct.serialize_members_kcd float_str depth self serializer struct_defs name_base
  = Done serializer' ->
  laid_out serializer serializer'.
Proof.
  revert self serializer serializer' name_base.
  assert (Hstep : forall depth,
    (forall def s s' base, nested_kcd float_str depth def s struct_defs base = Done s' ->
                           laid_out s s') ->
    forall self s s' base,
      CANStruct.serialize_members_kcd float_str depth self s struct_defs base = Done s' ->
      laid_out s s').
  { intros d Hn self s s' base. rewrite serialize_members_kcd_unfold.
    intros ([] & _ & Hbody)%bind_Done.
    - apply bind_Done in Hbody as (len & _ & (labels & _ & [= <-])%bind_Done).
      by apply laid_out_write.
    - apply bind_Done in Hbody as (members & _ & Hloop). clear self.
      revert s Hloop. induction members as [|[field m] members IH]; intros s; simpl.
      + intros [= <-]. apply laid_out_refl.
      + intros (s1 & Hm & Hrest)%bind_Done.
        apply laid_out_trans with s1; [|by apply IH].
        unfold member_kcd in Hm. simpl in Hm. destruct m as [sig|typ].
        * unfold CANSignal.serialize_kcd in Hm.
          apply bind_Done in Hm as (slope & _ & [= <-]). by apply laid_out_write.
        * destruct (decide (typ = "bool")).
          -- injection Hm as <-. by apply laid_out_write.
          -- apply bind_Done in Hm as (def & _ & Hm). by apply Hn in Hm. }
  induction depth as [|d IH]; apply Hstep.
  - by intros def s s' base [=].
  - intros def s s' base. apply IH.
Qed.

(** X7.  The leaves of an emitted message tile it: the first leaf is at
    offset 0 and every other leaf starts where the one before it ends,
    however the members nest.  Where [size] returns for the message (in a
    schema that does not itself define a type called [bool]), the lengths of
    the leaves add up to that size. *)
Theorem message_leaves_are_contiguous (float_str : Z -> Z -> string) (depth : nat)
    (self : CANStruct.t) (struct_defs : dict CANStruct.t) (id : Z) (xml : XML.t) :
  CANStruct.serialize_message_kcd float_str depth self struct_defs id = Done xml ->
  exists ns,
    contiguous 0 (XML.children xml) ns
    /\ forall n, "bool" ∉ keys struct_defs ->
                 CANStruct.size depth struct_defs self = Done n ->
                 foldr Z.add 0 ns = n.
Proof.
  unfold CANStruct.serialize_message_kcd. intros (s & Hs & [= <-])%bind_Done.
  destruct (serialize_members_kcd_laid_out _ _ _ _ _ _ _ Hs) as (new & ns & Hc & Hl & Hp).
  exists ns. simpl in *. subst new. split; [done|].
  intros n Hbool Hsize.
  pose proof (serialize_members_kcd_size _ _ _ _ _ _ _ _ Hbool Hsize Hs) as Hpos.
  simpl in Hpos. lia.
Qed.

(** The theorem at the struct [Pos] of the demo schema, emitted as a message:
    two leaves of 4 bits, at 0 and at 4. *)
Lemma message_leaves_are_contiguous_witness :
  exists xml ns,
    CANStruct.serialize_message_kcd (fun _ _ => "s") 1
      (CANStruct.struct_def "Pos"
         [("x", MSignal (CANSignal.new "m" 0 10 4)); ("y", MSignal (CANSignal.new "m" 0 10 4))])
      demo_defs 0 = Done xml
    /\ length (XML.children xml) = 2%nat
    /\ contiguous 0 (XML.children xml) ns
    /\ foldr Z.add 0 ns = 8.
Proof.
  eexists.
  destruct (message_leaves_are_contiguous (fun _ _ => "s") 1
              (CANStruct.struct_def "Pos"
                 [("x", MSignal (CANSignal.new "m" 0 10 4));
                  ("y", MSignal (CANSignal.new "m" 0 10 4))])
              demo_defs 0 _ eq_refl) as (ns & Hns & Hsum).
  exists ns. split; [reflexivity|]. split; [reflexivity|]. split; [exact Hns|].
  apply Hsum; [|reflexivity].
  vm_compute. intros Hin. repeat (apply elem_of_cons in Hin as [Hin|Hin]; [discriminate|]).
  by apply elem_of_nil in Hin.
Defined.

(** ** The topological sort, whatever the graph *)

Lemma for_each_Raise {A S : Type} (f : S -> A -> outcome S) (l : list A) (s : S) (e : exn) :
  for_each f l s = Raise e -> exists x s', x ∈ l /\ f s' x = Raise e.
Proof.
  revert s. induction l as [|x l IH]; intros s; simpl; [done|].
  intros [Hx|(s1 & _ & Hrest)]%bind_Raise.
  - exists x, s. split; [by left|done].
  - destruct (IH _ Hrest) as (y & s' & Hy & Hf). exists y, s'. split; [by right|done].
Qed.

Section topological_sort_any_graph.
Context {T : Type} `{EqDecision T}.
Variable edges : T -> outcome (list T).

Local Abbreviation answered := (answered edges).

Lemma explore_answered (depth : nat) (node : T) (result result' : list T) :
  explore edges depth node result = Done result' -> answered result -> answered result'.
Proof.
  revert node result result'.
  assert (Hstep : forall depth,
    (forall node r r', nested edges depth r node = Done r' -> answered r -> answered r') ->
    forall node r r', explore edges depth node r = Done r' -> answered r -> answered r').
  { intros d Hn node r r'. rewrite explore_unfold.
    destruct (decide (node ∈ r)) as [|Hnotin]; [by intros [= <-]|].
    intros (targets & Hedges & (r1 & Hloop & [= <-])%bind_Done)%bind_Done Hr.
    assert (Hr1 : answered r1).
    { clear Hedges Hnotin. revert r Hloop Hr. induction targets as [|t targets IH]; intros r; simpl.
      - by intros [= <-].
      - intros (r2 & Ht & Hrest)%bind_Done Hr. eapply IH; [exact Hrest|]. by eapply Hn. }
    intros x [Hx|Hx]%elem_of_app; [by apply Hr1|].
    apply list_elem_of_singleton in Hx as ->. by exists targets. }
  induction depth as [|d IH]; apply Hstep.
  - by intros node r r' [=].
  - intros node r r'. apply IH.
Qed.

Lemma topological_sort_answered (depth : nat) (nodes result : list T) :
  _topological_sort edges depth nodes = Done result -> answered result.
Proof.
  unfold _topological_sort. assert (Hnil : answered []) by (by intros x ?%elem_of_nil).
  revert Hnil. generalize (@nil T) as r. induction nodes as [|n nodes IH]; intros r Hr; simpl.
  - by intros [= <-].
  - intros (r1 & Hn & Hrest)%bind_Done. eapply IH; [|exact Hrest]. by eapply explore_answered.
Qed.

(** An exception that escapes [explore] is the recursion limit's, or the one
    [edges] raised on the node or on a node that an edge leads to. *)
Lemma explore_Raise (depth : nat) (node : T) (result : list T) (e : exn) :
  explore edges depth node result = Raise e ->
  e = RecursionError \/ edges node = Raise e
  \/ exists x y, edge edges x y /\ edges y = Raise e.
Proof.
  revert node result.
  assert (Hstep : forall depth,
    (forall node r, nested edges depth r node = Raise e ->
       e = RecursionError \/ edges node = Raise e
       \/ exists x y, edge edges x y /\ edges y = Raise e) ->
    forall node r, explore edges depth node r = Raise e ->
       e = RecursionError \/ edges node = Raise e
       \/ exists x y, edge edges x y /\ edges y = Raise e).
  { intros d Hn node r. rewrite explore_unfold.
    destruct (decide (node ∈ r)); [done|].
    intros [Hedges|(targets & Hedges & Hbody)]%bind_Raise; [by right; left|].
    apply bind_Raise in Hbody as [Hloop|(r1 & _ & [=])].
    apply for_each_Raise in Hloop as (t & r' & Ht & Hloop).
    destruct (Hn _ _ Hloop) as [?|[?|?]]; [by left| |by right; right].
    right; right. exists node, t. split; [by exists targets|done]. }
  induction depth as [|d IH]; apply Hstep.
  - intros node r [= <-]. by left.
  - intros node r. apply IH.
Qed.

(** Nodes listed after everything they have edges to are explored one by
    one, each finding its targets in [result] already. *)
Lemma topological_sort_ordered_input (depth : nat) (nodes : list T) :
  NoDup nodes ->
  (forall i n, nodes !! i = Some n ->
     exists targets, edges n = Done targets /\ forall m, m ∈ targets -> m ∈ take i nodes) ->
  _topological_sort edges (S depth) nodes = Done nodes.
Proof.
  intros Hnodup Hord. unfold _topological_sort.
  enough (Hgen : forall post pre, nodes = pre ++ post ->
            for_each (fun result node => explore edges (S depth) node result) post pre
            = Done nodes) by (by apply (Hgen nodes [])).
  induction post as [|n post IH]; intros pre Hnodes; cbn [for_each].
  - by rewrite Hnodes, app_nil_r.
  - assert (Hi : nodes !! length pre = Some n) by (by rewrite Hnodes, list_lookup_middle).
    destruct (Hord _ _ Hi) as (targets & Hedges & Htargets).
    assert (Htake : take (length pre) nodes = pre) by (by rewrite Hnodes, take_app_length).
    rewrite Htake in Htargets.
    assert (Hnotin : n ∉ pre).
    { rewrite Hnodes in Hnodup. apply NoDup_app in Hnodup as (_ & Hdisj & _).
      intros Hin. apply (Hdisj n Hin). by left. }
    rewrite explore_unfold, decide_False by done. rewrite Hedges. cbn.
    assert (Hloop : for_each (nested edges (S depth)) targets pre = Done pre).
    { clear Hedges. induction targets as [|t targets IHt]; cbn [for_each nested]; [done|].
      rewrite explore_unfold, decide_True by (apply Htargets; by left). cbn.
      apply IHt. intros m Hm. apply Htargets. by right. }
    rewrite Hloop. cbn. apply IH. by rewrite Hnodes, <- app_assoc.
Qed.

End topological_sort_any_graph.

Lemma dependencies_of_Raise (struct_defs : dict CANStruct.t) (name : string) (e : exn) :
  dependencies_of struct_defs name = Raise e ->
  (e = KeyError name /\ name ∉ keys struct_defs)
  \/ (e = AttributeError /\ exists def, dict_get name struct_defs = Done def /\ ~ has_shape def).
Proof.
  unfold dependencies_of. intros [Hget|(def & Hget & Hdeps)]%bind_Raise.
  - left. by apply dict_get_Raise.
  - right. unfold CANStruct.dependencies in Hdeps.
    destruct (CANStruct.is_enum def) as [[]|] eqn:He; cbn in Hdeps; [done| |].
    + destruct (CANStruct.struct_members def) eqn:Hm; cbn in Hdeps; [done|].
      injection Hdeps as <-. split; [done|]. exists def. split; [done|].
      intros [?|[_ [? ?]]]; congruence.
    + injection Hdeps as <-. split; [done|]. exists def. split; [done|].
      intros [?|[? _]]; congruence.
Qed.

(** X8.  The order of the types is returned only for a sound schema: if the
    sort returns, every reference resolves and no type reaches itself, and
    the list holds every type name once, each after the types it
    references. *)
Theorem struct_order_returns_only_on_sound_schemas (struct_defs : dict CANStruct.t)
    (depth : nat) (order : list string) :
  struct_order depth struct_defs = Done order ->
  resolved struct_defs
  /\ schema_acyclic struct_defs
  /\ NoDup order
  /\ (forall name, name ∈ order <-> name ∈ keys struct_defs)
  /\ (forall A B, references struct_defs A B -> before B A order).
Proof.
  intros Hsort.
  destruct (topological_sort_Done _ _ _ _ Hsort) as ((Hord & Hnodup) & Hall & Honly).
  pose proof (topological_sort_answered _ _ _ _ Hsort) as Hans.
  assert (Hkeys : forall name, name ∈ order -> name ∈ keys struct_defs).
  { intros name [targets Hdeps]%Hans. unfold dependencies_of in Hdeps.
    apply bind_Done in Hdeps as (def & Hget & _). apply dict_get_Done. by exists def. }
  assert (Hbefore : forall A B, references struct_defs A B -> before B A order).
  { intros A B Href.
    pose proof (Hall A (references_key _ _ _ Href)) as [j Hj]%list_elem_of_lookup.
    pose proof (Hord j A B Hj (proj2 (edge_references _ _ _) Href)) as [i Hi]%list_elem_of_lookup.
    apply lookup_take_Some in Hi as [Hi Hlt]. by exists i, j. }
  assert (Hacyclic : schema_acyclic struct_defs).
  { intros A Hcycle.
    assert (HA : A ∈ keys struct_defs).
    { inversion Hcycle as [? ? Href|? ? ? Href _]; subst; by eapply references_key. }
    eapply dependency_ordered_no_cycle; [exact Hord|by apply Hall|].
    by apply tc_edge_references. }
  split; [|split; [done|split; [|split; [|done]]]].
  - intros A B Href. destruct (Hbefore A B Href) as (i & _ & Hi & _).
    apply Hkeys. by eapply list_elem_of_lookup_2.
  - by apply Hnodup, acyclic_schema.
  - intros name. split; [apply Hkeys|apply Hall].
Qed.

(** The theorem at the demo schema, whose message is declared first. *)
Lemma struct_order_returns_only_on_sound_schemas_witness :
  struct_order 1 demo_defs = Done ["Pos"; "Color"; "Pong"]
  /\ resolved demo_defs /\ schema_acyclic demo_defs /\ NoDup ["Pos"; "Color"; "Pong"].
Proof.
  split; [reflexivity|].
  destruct (struct_order_returns_only_on_sound_schemas demo_defs 1 ["Pos"; "Color"; "Pong"]
              eq_refl) as (Hres & Hacyc & Hnodup & _).
  split; [exact Hres|]. split; [exact Hacyc|exact Hnodup].
Defined.

(** X9.  What the sort of the types can raise: [RecursionError]; the
    [KeyError] of a name that some struct references and the schema does not
    define; or [AttributeError], and then only when some definition is
    neither a struct nor an enum. *)
Theorem struct_order_errors (struct_defs : dict CANStruct.t) (depth : nat) (e : exn) :
  struct_order depth struct_defs = Raise e ->
  e = RecursionError
  \/ (exists A B, references struct_defs A B /\ (B ∉ keys struct_defs) /\ e = KeyError B)
  \/ (e = AttributeError /\ ~ loaded struct_defs).
Proof.
  unfold struct_order, _topological_sort. intros (name & result & Hname & Hraise)%for_each_Raise.
  change (fun name => def ← dict_get name struct_defs; CANStruct.dependencies def)
    with (dependencies_of struct_defs) in Hraise.
  assert (Hdef : forall x, dependencies_of struct_defs x = Raise e -> x ∈ keys struct_defs ->
            e = AttributeError /\ ~ loaded struct_defs).
  { intros x [[_ Hnotin]|(-> & def & Hget & Hshape)]%dependencies_of_Raise Hx; [done|].
    split; [done|]. intros Hloaded. by apply Hshape, (Hloaded x). }
  apply explore_Raise in Hraise as [->|[Hraise|(A & B & Hedge & Hraise)]].
  - by left.
  - right; right. by apply (Hdef name).
  - apply edge_references in Hedge.
    destruct (decide (B ∈ keys struct_defs)) as [HB|HB].
    + right; right. by apply (Hdef B).
    + right; left. exists A, B. split; [done|]. split; [done|].
      apply dependencies_of_Raise in Hraise as [[-> _]|(_ & def & Hget & _)]; [done|].
      exfalso. apply HB, dict_get_Done. by exists def.
Qed.

(** The theorem at a struct that names a missing type. *)
Lemma struct_order_errors_witness :
  struct_order 5 dangling_defs = Raise (KeyError "Missing")
  /\ (KeyError "Missing" = RecursionError
      \/ (exists A B, references dangling_defs A B /\ (B ∉ keys dangling_defs)
                      /\ KeyError "Missing" = KeyError B)
      \/ (KeyError "Missing" = AttributeError /\ ~ loaded dangling_defs)).
Proof.
  split; [reflexivity|].
  exact (struct_order_errors dangling_defs 5 (KeyError "Missing") eq_refl).
Defined.

(** X10.  A schema declared leaves first is emitted in declaration order:
    when every type comes after the types it references, the sort returns
    the names as declared (one nested call is all it needs). *)
Theorem ordered_declarations_are_kept (struct_defs : dict CANStruct.t) (depth : nat) :
  NoDup (keys struct_defs) ->
  (forall i A, keys struct_defs !! i = Some A ->
     exists def targets,
       dict_get A struct_defs = Done def
       /\ CANStruct.dependencies def = Done targets
       /\ forall B, B ∈ targets -> B ∈ take i (keys struct_defs)) ->
  struct_order (S depth) struct_defs = Done (keys struct_defs).
Proof.
  intros Hnodup Hord. apply topological_sort_ordered_input; [done|].
  intros i A Hi. destruct (Hord i A Hi) as (def & targets & Hget & Hdeps & Htargets).
  exists targets. split; [by rewrite Hget|done].
Qed.

(** The theorem at the demo schema declared leaves first. *)
Lemma ordered_declarations_are_kept_witness :
  struct_order 1 ordered_defs = Done ["Color"; "Pos"; "Pong"].
Proof.
  apply (ordered_declarations_are_kept ordered_defs 0).
  - vm_compute. repeat constructor; intros Hin;
      repeat (apply elem_of_cons in Hin as [Hin|Hin]; [discriminate|]);
      by apply elem_of_nil in Hin.
  - intros [|[|[|i]]] A Hi; [| | |done]; injection Hi as <-;
      eexists _, _; (split; [reflexivity|]); (split; [reflexivity|]); intros B HB.
    + by apply elem_of_nil in HB.
    + by apply elem_of_nil in HB.
    + vm_compute in HB. vm_compute.
      repeat (apply elem_of_cons in HB as [->|HB]; [by repeat constructor|]).
      by apply elem_of_nil in HB.
Defined.

(** ** The driver: which files a run touches *)





(** X22.  An output file that cannot be opened ends the run with the
    exception of [open], before anything is generated for it.  When it is
    the descriptor file (opened first), no file has changed; when it is the
    codec file, the descriptor, if it was requested, has been written in
    full by then. *)
Theorem unopenable_output_ends_the_run (yaml_load : string -> outcome Database)
    (open_w : gmap string string -> string -> option exn)
    (float_str : Z -> Z -> string) (depth : nat) (parsed : Args)
    (fs : gmap string string) (text : string) (input : Database) :
  fs !! infile parsed = Some text ->
  yaml_load text = Done input ->
  (forall path e,
     given (kcd parsed) = Some path -> open_w fs path = Some e ->
     _main yaml_load open_w float_str depth parsed fs = (fs, Escaped e))
  /\ (forall path e,
        given (kcd parsed) = None -> given (hpp parsed) = Some path ->
        open_w fs path = Some e ->
        _main yaml_load open_w float_str depth parsed fs = (fs, Escaped e))
  /\ (forall kcd_path hpp_path xml e,
        given (kcd parsed) = Some kcd_path -> given (hpp parsed) = Some hpp_path ->
        open_w fs kcd_path = None ->
        database_to_kcd float_str depth input = Done xml ->
        open_w (<[kcd_path := XML.human_readable 2 xml]> fs) hpp_path = Some e ->
        _main yaml_load open_w float_str depth parsed fs
        = (<[kcd_path := XML.human_readable 2 xml]> fs, Escaped e)).
Proof.
  intros Hin Hload. unfold _main, write_file. rewrite Hin, Hload. repeat split.
  - intros path e -> ->. by destruct (given (hpp parsed)).
  - intros path e -> -> ->. reflexivity.
  - intros kcd_path hpp_path xml e -> -> -> -> Hopen. cbn.
    by rewrite insert_insert_eq, Hopen.
Qed.

(** The theorem at a run whose codec file lies in a directory that does not
    exist. *)
Lemma unopenable_output_ends_the_run_witness :
  exists xml,
    database_to_kcd (fun _ _ => "") 0 ping_pong_db = Done xml
    /\ _main (fun _ => Done ping_pong_db)
         (fun _ path => if decide (path = "net.hpp") then Some FileNotFoundError else None)
         (fun _ _ => "") 0 demo_args demo_fs
       = (<["net.kcd" := XML.human_readable 2 xml]> demo_fs, Escaped FileNotFoundError).
Proof.
  destruct (database_to_kcd (fun _ _ => "") 0 ping_pong_db) as [xml|] eqn:Hkcd;
    [|vm_compute in Hkcd; discriminate].
  exists xml. split; [reflexivity|].
  exact (proj2 (proj2 (unopenable_output_ends_the_run (fun _ => Done ping_pong_db)
                         (fun _ path => if decide (path = "net.hpp")
                                        then Some FileNotFoundError else None)
                         (fun _ _ => "") 0 demo_args demo_fs "(the schema text)" ping_pong_db
                         eq_refl eq_refl))
           "net.kcd" "net.hpp" xml FileNotFoundError eq_refl eq_refl eq_refl Hkcd eq_refl).
Defined.

(** ** [bool] below the top level *)

(** X13.  A struct with a [bool] member cannot be the type of a member, as
    far as the codec goes: the width of such a member is the nested struct's
    [size], which looks [bool] up in the schema; so the codec of every
    struct that has a member of that type is not emitted. *)
Theorem bool_in_nested_struct_stops_the_codec (float_str : Z -> Z -> string) (depth : nat)
    (struct_defs : dict CANStruct.t) (name field typ inner flag : string)
    (members inner_members : list (string * member)) :
  "bool" ∉ keys struct_defs ->
  (field, MRef typ) ∈ members ->
  dict_get typ struct_defs = Done (CANStruct.struct_def inner inner_members) ->
  (flag, MRef "bool") ∈ inner_members ->
  forall lines,
    CANStruct.serialize_cpp float_str depth (CANStruct.struct_def name members) struct_defs
    <> Done lines.
Proof.
  intros Hbool Hin Hget Hflag lines Hlines.
  unfold CANStruct.serialize_cpp in Hlines. cbn in Hlines.
  apply bind_Done in Hlines as (reads & Hreads & _).
  destruct (map_each_Done_elem _ _ _ _ Hreads Hin) as [line Hline].
  unfold CANStruct.deserialize_line, CANStruct.reference_size in Hline. simpl in Hline.
  destruct (decide (typ = "bool")) as [->|Hne].
  - apply Hbool, dict_get_Done. by eexists.
  - rewrite Hget in Hline. cbn in Hline.
    apply bind_Done in Hline as (n & Hsize & _).
    by apply (size_with_bool_member depth struct_defs inner flag inner_members Hbool Hflag n).
Qed.

(** The theorem at a message whose member is the struct [{ok: bool}]. *)
Lemma bool_in_nested_struct_stops_the_codec_witness :
  CANStruct.serialize_cpp (fun _ _ => "") 1000
    (CANStruct.struct_def "Status" [("flags", MRef "Flags")]) flags_defs
  = Raise (KeyError "bool")
  /\ forall lines,
       CANStruct.serialize_cpp (fun _ _ => "") 1000
         (CANStruct.struct_def "Status" [("flags", MRef "Flags")]) flags_defs
       <> Done lines.
Proof.
  split; [reflexivity|].
  apply (bool_in_nested_struct_stops_the_codec (fun _ _ => "") 1000 flags_defs
           "Status" "flags" "Flags" "Flags" "ok" [("flags", MRef "Flags")] [("ok", MRef "bool")]).
  - vm_compute. intros Hin.
    repeat (apply elem_of_cons in Hin as [Hin|Hin]; [discriminate|]).
    by apply elem_of_nil in Hin.
  - by left.
  - reflexivity.
  - by left.
Defined.

(** ** Names of the descriptor's leaves *)

Lemma rstrip_app (c : ascii) (s : string) : rstrip c (s +:+ String c "") = rstrip c s.
Proof.
  induction s as [|a s IH].
  - change (rstrip c (String c "") = ""). simpl. by rewrite decide_True.
  - change (rstrip c (String a (s +:+ String c "")) = rstrip c (String a s)).
    simpl. by rewrite IH.
Qed.

(** X14.  The leaf of a member of enum type is named by the prefix and the
    member's name with every trailing underscore removed, not only the
    separator that the nesting added: the members [f] and [f_] of one struct
    get leaves of the same name. *)
Theorem enum_member_leaf_name (float_str : Z -> Z -> string) (depth : nat)
    (struct_defs : dict CANStruct.t) (name field typ enum label : string)
    (labels : list string) (serializer : KCDMessageSerializer.t) (name_base : string) :
  typ <> "bool" ->
  dict_get typ struct_defs = Done (CANStruct.enum_def enum (label :: labels)) ->
  exists leaf leaf' n,
    CANStruct.serialize_members_kcd float_str (S depth)
      (CANStruct.struct_def name [(field, MRef typ)]) serializer struct_defs name_base
    = Done (KCDMessageSerializer.write serializer leaf n)
    /\ CANStruct.serialize_members_kcd float_str (S depth)
         (CANStruct.struct_def name [(field +:+ "_", MRef typ)]) serializer struct_defs name_base
       = Done (KCDMessageSerializer.write serializer leaf' n)
    /\ XML.property "name" leaf = Done (rstrip "_" (name_base +:+ field))
    /\ XML.property "name" leaf' = XML.property "name" leaf.
Proof.
  intros Hne Hget.
  exists (CANStruct.enum_signal serializer (name_base +:+ field +:+ "_")
            (Z.log2_up (Z.of_nat (length (label :: labels)))) (label :: labels)),
         (CANStruct.enum_signal serializer (name_base +:+ (field +:+ "_") +:+ "_")
            (Z.log2_up (Z.of_nat (length (label :: labels)))) (label :: labels)),
         (Z.log2_up (Z.of_nat (length (label :: labels)))).
  assert (Hrun : forall f,
    CANStruct.serialize_members_kcd float_str (S depth)
      (CANStruct.struct_def name [(f, MRef typ)]) serializer struct_defs name_base
    = Done (KCDMessageSerializer.write serializer
              (CANStruct.enum_signal serializer (name_base +:+ f +:+ "_")
                 (Z.log2_up (Z.of_nat (length (label :: labels)))) (label :: labels))
              (Z.log2_up (Z.of_nat (length (label :: labels)))))).
  { intros f. rewrite serialize_members_kcd_unfold. cbn.
    unfold member_kcd. cbn. rewrite decide_False by done. rewrite Hget. cbn.
    rewrite serialize_members_kcd_unfold, size_unfold. reflexivity. }
  split; [apply Hrun|]. split; [apply Hrun|].
  assert (Hname : forall f, rstrip "_" (name_base +:+ f +:+ "_") = rstrip "_" (name_base +:+ f)).
  { intros f. by rewrite <- append_assoc, rstrip_app. }
  unfold CANStruct.enum_signal, XML.property. cbn.
  rewrite !decide_True by done. rewrite !Hname.
  by split.
Qed.

(** The theorem at a member of the demo schema's enum type. *)
Lemma enum_member_leaf_name_witness :
  exists leaf n,
    CANStruct.serialize_members_kcd (fun _ _ => "") 1
      (CANStruct.struct_def "M" [("c_", MRef "Color")]) KCDMessageSerializer.__init__ demo_defs
      "pos_"
    = Done (KCDMessageSerializer.write KCDMessageSerializer.__init__ leaf n)
    /\ XML.property "name" leaf = Done "pos_c".
Proof.
  destruct (enum_member_leaf_name (fun _ _ => "") 0 demo_defs "M" "c" "Color" "Color" "RED"
              ["GREEN"; "BLUE"] KCDMessageSerializer.__init__ "pos_")
    as (leaf & leaf' & n & _ & Hrun & Hname & Hsame); [discriminate|reflexivity|].
  exists leaf', n. split; [exact Hrun|]. rewrite Hsame, Hname. reflexivity.
Defined.

(** ** The definition map of a database *)

Lemma load_section_lookup (section : dict yaml) (defs defs' : dict CANStruct.t) (name : string) :
  load_section section defs = Done defs' ->
  dict_get name defs'
  = if decide (name ∈ keys section)
    then y ← dict_get name section; CANStruct.__init__ name y
    else dict_get name defs.
Proof.
  unfold load_section. generalize (keys section) as names.
  intros names. revert defs. induction names as [|name0 names IH]; intros defs; cbn [for_each].
  - intros [= <-]. rewrite decide_False; [done|]. by intros ?%elem_of_nil.
  - intros (defs1 & (y & Hy & (def & Hinit & [= <-])%bind_Done)%bind_Done & Hrest)%bind_Done.
    rewrite (IH _ Hrest). destruct (decide (name ∈ names)) as [Hin|Hnotin].
    + rewrite decide_True; [done|by right].
    + rewrite dict_get_set. destruct (decide (name = name0)) as [->|Hne].
      * rewrite decide_True by (by left). by rewrite Hy.
      * rewrite decide_False; [done|]. by intros [?|?]%elem_of_cons.
Qed.

Lemma load_section_keys (section : dict yaml) (defs defs' : dict CANStruct.t) (name : string) :
  load_section section defs = Done defs' ->
  name ∈ keys defs' <-> name ∈ keys section \/ name ∈ keys defs.
Proof.
  unfold load_section. generalize (keys section) as names.
  intros names. revert defs. induction names as [|name0 names IH]; intros defs; cbn [for_each].
  - intros [= <-]. split; [by right|]. by intros [?%elem_of_nil|?].
  - intros (defs1 & (y & Hy & (def & Hinit & [= <-])%bind_Done)%bind_Done & Hrest)%bind_Done.
    rewrite (IH _ Hrest), keys_dict_set, elem_of_cons.
    destruct (decide (name0 ∈ keys defs)) as [Hin|Hnotin].
    + split; [intros [?|?]; auto|intros [[->|?]|?]; auto].
    + rewrite elem_of_app, list_elem_of_singleton.
      split; [intros [?|[?|?]]; auto|intros [[?|?]|?]; auto].
Qed.

(** X15.  The definition map of a database holds the names of both
    sections, and a message takes the place of a struct of the same name:
    a name declared under [messages] is defined by its message body, the
    struct body of that name being dropped. *)
Theorem messages_shadow_structs (database : Database) (struct_defs : dict CANStruct.t) :
  load_struct_defs database = Done struct_defs ->
  (forall name, name ∈ keys struct_defs
                <-> name ∈ keys (db_structs database) \/ name ∈ keys (db_messages database))
  /\ (forall name y, dict_get name (db_messages database) = Done y ->
                     dict_get name struct_defs = CANStruct.__init__ name y)
  /\ (forall name y, name ∉ keys (db_messages database) ->
                     dict_get name (db_structs database) = Done y ->
                     dict_get name struct_defs = CANStruct.__init__ name y).
Proof.
  intros (defs & Hstructs & Hmessages)%bind_Done. split; [|split].
  - intros name. rewrite (load_section_keys _ _ _ name Hmessages),
      (load_section_keys _ _ _ name Hstructs).
    split; [intros [?|[?|?%elem_of_nil]]|intros [?|?]]; auto; done.
  - intros name y Hy. rewrite (load_section_lookup _ _ _ name Hmessages).
    rewrite decide_True by (apply dict_get_Done; by eexists). by rewrite Hy.
  - intros name y Hnotin Hy. rewrite (load_section_lookup _ _ _ name Hmessages).
    rewrite decide_False by done. rewrite (load_section_lookup _ _ _ name Hstructs).
    rewrite decide_True by (apply dict_get_Done; by eexists). by rewrite Hy.
Qed.

(** The theorem at a database whose message [Ping] has the name of an enum. *)
Lemma messages_shadow_structs_witness :
  load_struct_defs shadow_db
  = Done [("Ping", CANStruct.struct_def "Ping" [("request", MRef "bool")])]
  /\ dict_get "Ping" [("Ping", CANStruct.struct_def "Ping" [("request", MRef "bool")])]
     = CANStruct.__init__ "Ping" (YList [YDict [("request", YScalar (SStr "bool"))]]).
Proof.
  split; [reflexivity|].
  exact (proj1 (proj2 (messages_shadow_structs shadow_db
                         [("Ping", CANStruct.struct_def "Ping" [("request", MRef "bool")])]
                         eq_refl))
           "Ping" (YList [YDict [("request", YScalar (SStr "bool"))]]) eq_refl).
Defined.

(** ** The emitted struct: fields, reads and writes *)

(** X16.  In the code emitted for a struct with [k] members (4k + 17
    lines, counted from 0), the member at position [i] has its field on line
    [1 + i], its read on line [k + 5 + i] and its write on line
    [2k + 10 + (k - 1 - i)]: the reads follow the declared order, the writes
    the reverse order.  A signal is read as
    [self.f = (double)read(buffer, size) * slope + min;] and written as
    [write(ser, size, (data.f - min) / slope);]; a member of type [T] is
    read as [self.f = T_deserialize(read(buffer, n));] and written as
    [write(ser, n, serialize(data.f));], with the same [n]: 1 for [bool],
    otherwise the size of [T]. *)
Theorem codec_routines_follow_member_order (float_str : Z -> Z -> string) (depth : nat)
    (struct_defs : dict CANStruct.t) (name : string) (members : list (string * member))
    (lines : list string) (i : nat) (m : string * member) :
  CANStruct.serialize_cpp float_str depth (CANStruct.struct_def name members) struct_defs
  = Done lines ->
  members !! i = Some m ->
  length lines = (4 * length members + 17)%nat
  /\ match m.2 with
     | MSignal s =>
         exists slope,
           CANSignal.slope float_str s = Done slope
           /\ lines !! S i = Some ("  double " +:+ m.1 +:+ ";")
           /\ lines !! (length members + 5 + i)%nat
              = Some ("  self." +:+ m.1 +:+ " = (double)read(buffer, "
                      +:+ str (CANSignal.size s) +:+ ") * " +:+ slope +:+ " + "
                      +:+ str (CANSignal.min s) +:+ ";")
           /\ lines !! (2 * length members + 10 + (length members - S i))%nat
              = Some ("  write(ser, " +:+ str (CANSignal.size s) +:+ ", (data." +:+ m.1
                      +:+ " - " +:+ str (CANSignal.min s) +:+ ") / " +:+ slope +:+ ");")
     | MRef typ =>
         exists bits,
           (if decide (typ = "bool") then bits = 1
            else exists def, dict_get typ struct_defs = Done def
                             /\ CANStruct.size depth struct_defs def = Done bits)
           /\ lines !! S i = Some ("  " +:+ typ +:+ " " +:+ m.1 +:+ ";")
           /\ lines !! (length members + 5 + i)%nat
              = Some ("  self." +:+ m.1 +:+ " = " +:+ typ +:+ "_deserialize(read(buffer, "
                      +:+ str bits +:+ "));")
           /\ lines !! (2 * length members + 10 + (length members - S i))%nat
              = Some ("  write(ser, " +:+ str bits +:+ ", serialize(data." +:+ m.1 +:+ "));")
     end.
Proof.
  intros Hlines Hi. unfold CANStruct.serialize_cpp in Hlines. cbn in Hlines.
  apply bind_Done in Hlines as (reads & Hreads & (writes & Hwrites & [= Hl])%bind_Done).
  pose proof (deserialize_lines_in_declared_order _ _ _ _ _ _ _ Hreads Hi) as Hread.
  pose proof (serialize_lines_in_reverse_order _ _ _ _ _ _ _ Hwrites Hi) as Hwrite.
  pose proof (map_each_Done_length _ _ _ Hreads) as Hlen_reads.
  pose proof (map_each_Done_length _ _ _ Hwrites) as Hlen_writes.
  rewrite length_reverse in Hlen_writes.
  pose proof (lookup_lt_Some _ _ _ Hi) as Hlt.
  assert (Hlen : length lines = (4 * length members + 17)%nat).
  { rewrite <- Hl.
    repeat (progress cbn [length] || rewrite length_app || rewrite length_map).
    rewrite Hlen_reads, Hlen_writes. lia. }
  assert (Hfield : lines !! S i
                   = Some ("  " +:+ match m.2 with MSignal _ => "double" | MRef typ => typ end
                           +:+ " " +:+ m.1 +:+ ";")).
  { rewrite <- Hl. change (?x :: ?l) with ([x] ++ l) at 1.
    rewrite lookup_app_r by (simpl; lia).
    rewrite lookup_app_l by (rewrite length_map; simpl; lia).
    rewrite list_lookup_fmap. simpl. by rewrite Nat.sub_0_r, Hi. }
  assert (Hread_at : forall line, reads !! i = Some line ->
                                  lines !! (length members + 5 + i)%nat = Some line).
  { intros line Hline. rewrite <- Hl, <- Hline.
    change (?x :: ?l) with ([x] ++ l) at 1. rewrite lookup_app_r by (simpl; lia).
    rewrite lookup_app_r by (rewrite length_map; simpl; lia).
    rewrite length_map.
    change (?a :: ?b :: ?c :: ?d :: reads ++ ?l) with ([a; b; c; d] ++ reads ++ l).
    rewrite lookup_app_r by (simpl; lia).
    rewrite lookup_app_l by (simpl; lia).
    f_equal. simpl. lia. }
  assert (Hwrite_at : forall line,
    writes !! (length members - S i)%nat = Some line ->
    lines !! (2 * length members + 10 + (length members - S i))%nat = Some line).
  { intros line Hline. rewrite <- Hl, <- Hline.
    change (?x :: ?l) with ([x] ++ l) at 1. rewrite lookup_app_r by (simpl; lia).
    rewrite lookup_app_r by (rewrite length_map; simpl; lia).
    rewrite length_map.
    change (?a :: ?b :: ?c :: ?d :: reads ++ ?l) with ([a; b; c; d] ++ reads ++ l).
    rewrite lookup_app_r by (simpl; lia).
    rewrite lookup_app_r by (simpl; lia).
    change (?a :: ?b :: ?c :: ?d :: ?e :: writes ++ ?l) with ([a; b; c; d; e] ++ writes ++ l).
    rewrite lookup_app_r by (simpl; lia).
    rewrite lookup_app_l by (simpl; lia).
    f_equal. simpl. lia. }
  clear Hl. split; [done|].
  destruct m as [field [s|typ]]; cbn [fst snd] in *.
  - destruct Hread as (slope & Hslope & Hread). destruct Hwrite as (slope' & Hslope' & Hwrite).
    rewrite Hslope in Hslope'. injection Hslope' as <-.
    exists slope. split; [done|]. split; [done|]. split; [by apply Hread_at|by apply Hwrite_at].
  - destruct Hread as (bits & Hbits & Hread). destruct Hwrite as (bits' & Hbits' & Hwrite).
    rewrite Hbits in Hbits'. injection Hbits' as <-.
    exists bits. split; [|split; [done|split; [by apply Hread_at|by apply Hwrite_at]]].
    unfold CANStruct.reference_size in Hbits. destruct (decide (typ = "bool")).
    + by injection Hbits.
    + apply bind_Done in Hbits as (def & Hget & Hsize). by exists def.
Qed.

(** The theorem at the first member of the demo schema's message: the
    struct [Pos], 8 bits wide. *)
Lemma codec_routines_follow_member_order_witness :
  exists lines,
    CANStruct.serialize_cpp (fun _ _ => "s") 1
      (CANStruct.struct_def "Pong"
         [("pos", MRef "Pos"); ("c", MRef "Color"); ("ok", MRef "bool")]) demo_defs
    = Done lines
    /\ length lines = 29%nat
    /\ lines !! 1%nat = Some "  Pos pos;"
    /\ lines !! 8%nat = Some "  self.pos = Pos_deserialize(read(buffer, 8));"
    /\ lines !! 18%nat = Some "  write(ser, 8, serialize(data.pos));".
Proof.
  destruct (CANStruct.serialize_cpp (fun _ _ => "s") 1
              (CANStruct.struct_def "Pong"
                 [("pos", MRef "Pos"); ("c", MRef "Color"); ("ok", MRef "bool")]) demo_defs)
    as [lines|] eqn:Hlines; [|vm_compute in Hlines; discriminate].
  destruct (codec_routines_follow_member_order _ _ _ _ _ _ 0 ("pos", MRef "Pos") Hlines eq_refl)
    as (Hlen & bits & Hbits & Hfield & Hread & Hwrite).
  simpl in Hbits. destruct Hbits as (def & Hget & Hsize).
  injection Hget as <-. vm_compute in Hsize. injection Hsize as <-.
  exists lines. split; [reflexivity|]. split; [exact Hlen|].
  split; [exact Hfield|]. split; [exact Hread|exact Hwrite].
Defined.

(** ** The emitted primitives *)

Lemma lor_disjoint (x n r : Z) :
  0 <= n -> 0 <= r < 2 ^ n -> Z.lor (x * 2 ^ n) r = x * 2 ^ n + r.
Proof.
  intros Hn Hr. rewrite <- Z.add_lor_land.
  enough (Z.land (x * 2 ^ n) r = 0) as -> by lia.
  apply Z.bits_inj'. intros i Hi. rewrite Z.land_spec, Z.bits_0.
  destruct (Z.lt_ge_cases i n) as [Hlt|Hge].
  - rewrite Z.mul_pow2_bits_low by lia. done.
  - rewrite <- (Z.mod_small r (2 ^ n)) by lia.
    rewrite Z.mod_pow2_bits_high by lia. apply andb_false_r.
Qed.

(** X17.  A [read] undoes the [write] before it, as long as the shifted
    buffer fits 64 bits and the data fits the width: it returns the data and
    leaves the buffer as it was.  [write] does not mask its data: bits of the
    data above the width end up in the buffer that the read leaves. *)
Theorem read_undoes_write (ser bits data : Z) :
  0 <= bits < 31 -> 0 <= ser -> ser * 2 ^ bits < 2 ^ 64 -> 0 <= data ->
  exists ser',
    Codec.write ser bits data = Some ser'
    /\ Codec.read ser' bits = Some (data mod 2 ^ bits, Z.lor ser (data / 2 ^ bits))
    /\ (data < 2 ^ bits -> Codec.read ser' bits = Some (data, ser)).
Proof.
  intros Hbits Hser Hfit Hdata.
  assert (Hwrite : Codec.write ser bits data = Some (Z.lor (ser * 2 ^ bits) data)).
  { unfold Codec.write, Codec.uint64. rewrite (Z.mod_small bits 256) by lia.
    destruct (Z.ltb_spec bits 64); [|lia].
    rewrite Z.shiftl_mul_pow2 by lia. rewrite Z.mod_small; [done|]. split; [|done].
    apply Z.mul_nonneg_nonneg; [done|]. apply Z.pow_nonneg. lia. }
  assert (Hread : Codec.read (Z.lor (ser * 2 ^ bits) data) bits
                  = Some (data mod 2 ^ bits, Z.lor ser (data / 2 ^ bits))).
  { unfold Codec.read. rewrite (Z.mod_small bits 256) by lia.
    destruct (Z.ltb_spec bits 31); [|lia].
    rewrite Z.shiftl_1_l, Z.sub_1_r, <- Z.ones_equiv, Z.land_ones by lia.
    f_equal. f_equal.
    - apply Z.bits_inj'. intros i Hi.
      destruct (Z.lt_ge_cases i bits) as [Hlt|Hge].
      + rewrite !Z.mod_pow2_bits_low, Z.lor_spec, Z.mul_pow2_bits_low by lia. done.
      + rewrite !Z.mod_pow2_bits_high by lia. done.
    - rewrite Z.shiftr_lor, <- Z.shiftl_mul_pow2, Z.shiftr_shiftl_l, Z.sub_diag by lia.
      by rewrite Z.shiftl_0_r, Z.shiftr_div_pow2 by lia. }
  exists (Z.lor (ser * 2 ^ bits) data). split; [done|]. split; [done|].
  intros Hsmall. rewrite Hread, Z.mod_small, Z.div_small, Z.lor_0_r by lia. done.
Qed.

(** The theorem at a 4-bit field written after a flag. *)
Lemma read_undoes_write_witness :
  exists ser',
    Codec.write 1 4 7 = Some ser' /\ Codec.read ser' 4 = Some (7, 1).
Proof.
  destruct (read_undoes_write 1 4 7) as (ser' & Hwrite & _ & Hread); [lia|lia|lia|lia|].
  exists ser'. split; [exact Hwrite|]. apply Hread. lia.
Defined.

(** ** Round trip of the emitted routines, without signals *)

Lemma deserialize_unfold (fuel depth : nat) (struct_defs : dict CANStruct.t)
    (self : CANStruct.t) (buffer : Z) :
  Codec.deserialize fuel depth struct_defs self buffer =
  e ← CANStruct.is_enum self;
  if e : bool then Some (Codec.VEnum (Codec.int32 buffer))
  else
    members ← CANStruct.struct_members self;
    Codec.VStruct <$> Codec.read_fields (read_field fuel depth struct_defs) members buffer.
Proof. destruct fuel; reflexivity. Qed.

Lemma serialize_unfold (fuel depth : nat) (struct_defs : dict CANStruct.t)
    (self : CANStruct.t) (data : Codec.value) :
  Codec.serialize fuel depth struct_defs self data =
  e ← CANStruct.is_enum self;
  if e : bool then
    match data with
    | Codec.VEnum n => Some (Codec.uint64 n)
    | _ => None
    end
  else
    members ← CANStruct.struct_members self;
    match data with
    | Codec.VStruct fields =>
        if decide (length fields = length members) then
          Codec.write_fields (write_field fuel depth struct_defs) (reverse (zip members fields)) 0
        else None
    | _ => None
    end.
Proof. destruct fuel; reflexivity. Qed.

(** A size computed under one recursion limit is the size under any larger
    one. *)
Lemma size_depth_S (depth : nat) (struct_defs : dict CANStruct.t) (self : CANStruct.t) (n : Z) :
  CANStruct.size depth struct_defs self = Done n ->
  CANStruct.size (S depth) struct_defs self = Done n.
Proof.
  revert self n. induction depth as [|d IH]; intros self n; rewrite !size_unfold;
    (destruct (getattr (CANStruct.is_enum self)) as [[]|]; cbn; [done| |done]);
    (destruct (getattr (CANStruct.struct_members self)) as [members|]; cbn; [|done]);
    intros (ns & Hns & ->)%for_each_sum; apply for_each_sum; exists ns; (split; [|done]);
    (eapply Forall2_impl; [exact Hns|]); intros [field [s|typ]] a; simpl; try done;
    (destruct (dict_get typ struct_defs) as [def|]; cbn; [|done]).
  - done.
  - apply IH.
Qed.

Lemma size_depth_le (d1 d2 : nat) (struct_defs : dict CANStruct.t) (self : CANStruct.t) (n : Z) :
  (d1 <= d2)%nat ->
  CANStruct.size d1 struct_defs self = Done n -> CANStruct.size d2 struct_defs self = Done n.
Proof. induction 1 as [|d2 _ IH]; [done|]. intros Hn. by apply size_depth_S, IH. Qed.

(** A definition has at most one size, whatever the recursion limit. *)
Lemma size_Done_agree (d1 d2 : nat) (struct_defs : dict CANStruct.t) (self : CANStruct.t)
    (n1 n2 : Z) :
  CANStruct.size d1 struct_defs self = Done n1 ->
  CANStruct.size d2 struct_defs self = Done n2 -> n1 = n2.
Proof.
  intros H1 H2. destruct (Nat.le_ge_cases d1 d2) as [Hle|Hle].
  - apply (size_depth_le _ _ _ _ _ Hle) in H1. congruence.
  - apply (size_depth_le _ _ _ _ _ Hle) in H2. congruence.
Qed.

(** For the members of a definition that has a size, the amounts that
    [size] adds up are the bit counts that the codec reads. *)
Lemma sizes_are_widths (d depth : nat) (struct_defs : dict CANStruct.t)
    (members : list (string * member)) (ns ws : list Z) :
  "bool" ∉ keys struct_defs ->
  Forall2 (fun (m : string * member) n => member_size d struct_defs m.2 = Done n) members ns ->
  Forall2 (fun (m : string * member) n => member_bits depth struct_defs m.2 = Done n) members ws ->
  ns = ws.
Proof.
  intros Hbool Hns. revert ws.
  induction Hns as [|[field m] n members ns Hn _ IH]; intros ws Hws.
  - by inversion Hws.
  - inversion Hws as [|? w ? ws' Hw Hws']; subst. f_equal; [|by apply IH].
    destruct m as [s|typ]; simpl in Hn, Hw; [congruence|].
    apply bind_Done in Hn as (def & Hget & Hn).
    unfold CANStruct.reference_size in Hw. destruct (decide (typ = "bool")) as [->|Hne].
    + exfalso. apply Hbool, dict_get_Done. by exists def.
    + rewrite Hget in Hw. cbn in Hw. destruct d as [|d]; [done|].
      by eapply size_Done_agree.
Qed.

Lemma write_fields_app {M : Type} (field : M -> Codec.value -> option (Z * Z))
    (l1 l2 : list (M * Codec.value)) (ser : Z) :
  Codec.write_fields field (l1 ++ l2) ser
  = ser' ← Codec.write_fields field l1 ser; Codec.write_fields field l2 ser'.
Proof.
  revert ser. induction l1 as [|[m v] l1 IH]; intros ser; simpl; [done|].
  destruct (field m v) as [[bits data]|]; cbn; [|done].
  destruct (Codec.write ser bits data); cbn; [apply IH|done].
Qed.

Lemma write_packs (x n r : Z) :
  0 <= n < 64 -> 0 <= r < 2 ^ n -> 0 <= x -> x * 2 ^ n < 2 ^ 64 ->
  Codec.write x n r = Some (x * 2 ^ n + r).
Proof.
  intros Hn Hr Hx Hfit. unfold Codec.write, Codec.uint64. rewrite (Z.mod_small n 256) by lia.
  destruct (Z.ltb_spec n 64); [|lia].
  rewrite Z.shiftl_mul_pow2, Z.mod_small, lor_disjoint by nia. done.
Qed.

Lemma int32_small (z : Z) : 0 <= z < 2 ^ 31 -> Codec.int32 z = z.
Proof. intros Hz. unfold Codec.int32. rewrite Z.mod_small by lia. lia. Qed.

Section signal_free_codec.
Variables (depth : nat) (struct_defs : dict CANStruct.t) (A : string).
Hypothesis Hbool : "bool" ∉ keys struct_defs.
Hypothesis Hfree :
  forall B def, rtc (references struct_defs) A B -> dict_get B struct_defs = Done def ->
                signal_free def.
Hypothesis Hsizes :
  forall B C, rtc (references struct_defs) A B -> references struct_defs B C ->
    exists def n, dict_get C struct_defs = Done def
                  /\ CANStruct.size depth struct_defs def = Done n /\ 0 <= n < 31.

(** One member that is not a signal: its read returns, and its write puts
    back the bits that were read, provided the nested routines do. *)
Lemma field_round_trip (fuel : nat) (B : string) (def : CANStruct.t)
    (all : list (string * member)) (field typ : string) (b : Z) :
  rtc (references struct_defs) A B ->
  dict_get B struct_defs = Done def ->
  CANStruct.is_enum def = Some false ->
  CANStruct.struct_members def = Some all ->
  (forall C defC n raw,
     references struct_defs B C -> dict_get C struct_defs = Done defC ->
     CANStruct.size depth struct_defs defC = Done n -> 0 <= n < 31 -> 0 <= raw < 2 ^ n ->
     exists fuel' v,
       fuel = S fuel'
       /\ Codec.deserialize fuel' depth struct_defs defC raw = Some v
       /\ Codec.serialize fuel' depth struct_defs defC v = Some raw) ->
  (field, MRef typ) ∈ all ->
  0 <= b < 2 ^ 64 ->
  exists n v,
    member_bits depth struct_defs (MRef typ) = Done n
    /\ 0 <= n < 31
    /\ read_field fuel depth struct_defs (field, MRef typ) b = Some (b / 2 ^ n, v)
    /\ write_field fuel depth struct_defs (field, MRef typ) v = Some (n, b mod 2 ^ n).
Proof.
  intros Hreach Hget He Hm Hnested Hin Hb.
  unfold read_field, write_field, member_bits, CANStruct.reference_size. cbn [snd].
  destruct (decide (typ = "bool")) as [->|Hne].
  - exists 1, (Codec.VBool (bool_decide (b mod 2 ≠ 0))).
    split; [done|]. split; [lia|]. cbn [Codec.generated mbind option_bind].
    rewrite (read_low_bits b 1) by lia. cbn [mbind option_bind]. change (2 ^ 1) with 2.
    split; [done|].
    assert (0 <= b mod 2 < 2) by (apply Z.mod_pos_bound; lia).
    case_bool_decide; do 2 f_equal; lia.
  - assert (Href : references struct_defs B typ)
      by (exists def, all, field; by repeat split).
    destruct (Hsizes B typ Hreach Href) as (defC & n & HgetC & Hsize & Hn).
    assert (Hraw : 0 <= b mod 2 ^ n < 2 ^ n) by (apply Z.mod_pos_bound, Z.pow_pos_nonneg; lia).
    destruct (Hnested typ defC n (b mod 2 ^ n) Href HgetC Hsize Hn Hraw)
      as (fuel' & v & -> & Hdes & Hser).
    exists n, v. rewrite HgetC. cbn [mbind outcome_bind]. rewrite Hsize.
    split; [done|]. split; [done|]. cbn [Codec.generated mbind option_bind].
    rewrite (read_low_bits b n) by lia. cbn [mbind option_bind].
    rewrite Hdes, Hser. done.
Qed.

(** A list of members of a signal-free definition: the reads return, and
    the writes in reverse order put back the bits that were read. *)
Lemma fields_round_trip (fuel : nat) (B : string) (def : CANStruct.t)
    (all : list (string * member)) :
  rtc (references struct_defs) A B ->
  dict_get B struct_defs = Done def ->
  CANStruct.is_enum def = Some false ->
  CANStruct.struct_members def = Some all ->
  (forall C defC n raw,
     references struct_defs B C -> dict_get C struct_defs = Done defC ->
     CANStruct.size depth struct_defs defC = Done n -> 0 <= n < 31 -> 0 <= raw < 2 ^ n ->
     exists fuel' v,
       fuel = S fuel'
       /\ Codec.deserialize fuel' depth struct_defs defC raw = Some v
       /\ Codec.serialize fuel' depth struct_defs defC v = Some raw) ->
  forall members b,
    (forall x, x ∈ members -> x ∈ all) ->
    0 <= b < 2 ^ 64 ->
    exists vs widths,
      Codec.read_fields (read_field fuel depth struct_defs) members b = Some vs
      /\ Forall2 (fun (m : string * member) n => member_bits depth struct_defs m.2 = Done n)
           members widths
      /\ length vs = length members
      /\ 0 <= foldr Z.add 0 widths
      /\ Codec.write_fields (write_field fuel depth struct_defs) (reverse (zip members vs)) 0
         = Some (b mod 2 ^ foldr Z.add 0 widths).
Proof.
  intros Hreach Hget He Hm Hnested.
  induction members as [|[field m] members IH]; intros b Hsub Hb.
  - exists [], []. split; [done|]. split; [constructor|]. split; [done|]. split; [done|].
    simpl. by rewrite Z.mod_1_r.
  - destruct m as [s|typ].
    { exfalso. apply (Hfree B def Hreach Hget all field s Hm), Hsub. by left. }
    destruct (field_round_trip fuel B def all field typ b Hreach Hget He Hm Hnested)
      as (n & v & Hn & Hrange & Hread & Hwrite); [apply Hsub; by left|done|].
    assert (Hpow : 0 < 2 ^ n) by (apply Z.pow_pos_nonneg; lia).
    assert (Hb1 : 0 <= b / 2 ^ n < 2 ^ 64).
    { split; [apply Z.div_pos; lia|]. apply Z.div_lt_upper_bound; nia. }
    destruct (IH (b / 2 ^ n)) as (vs & widths & Hvs & Hwidths & Hlen & Hsum & Hser);
      [intros x Hx; apply Hsub; by right|done|].
    exists (v :: vs), (n :: widths).
    split; [cbn [Codec.read_fields]; rewrite Hread; cbn [mbind option_bind];
            by rewrite Hvs|].
    split; [by constructor|]. split; [simpl; by rewrite Hlen|]. split; [simpl; lia|].
    cbn [zip zip_with]. rewrite reverse_cons, write_fields_app, Hser.
    cbn [mbind option_bind Codec.write_fields]. rewrite Hwrite. cbn [mbind option_bind].
    assert (Hpow' : 0 < 2 ^ foldr Z.add 0 widths) by (apply Z.pow_pos_nonneg; lia).
    pose proof (Z.mod_pos_bound (b / 2 ^ n) _ Hpow') as Hmod.
    pose proof (Z.mod_le (b / 2 ^ n) _ (proj1 Hb1) Hpow') as Hle.
    pose proof (Z.mul_div_le b _ Hpow) as Hdiv.
    rewrite write_packs; [| lia | apply Z.mod_pos_bound; lia | lia | nia].
    cbn [mbind option_bind foldr]. f_equal. rewrite Z.pow_add_r, Z.rem_mul_r by lia. lia.
Qed.

(** The routines of a definition that can be reached from [A] and has a
    size: on a value of that many bits the decode routine returns, and the
    encode routine gives the value back. *)
Lemma nested_round_trip (d : nat) (B : string) (def : CANStruct.t) (n raw : Z) (fuel : nat) :
  rtc (references struct_defs) A B ->
  dict_get B struct_defs = Done def ->
  CANStruct.size d struct_defs def = Done n ->
  (d <= fuel)%nat ->
  0 <= n < 31 ->
  0 <= raw < 2 ^ n ->
  exists v,
    Codec.deserialize fuel depth struct_defs def raw = Some v
    /\ Codec.serialize fuel depth struct_defs def v = Some raw.
Proof.
  revert B def n raw fuel.
  induction d as [|d IH]; intros B def n raw fuel Hreach Hget Hsize Hfuel Hn Hraw.
  all: assert (Hraw31 : 0 <= raw < 2 ^ 31)
         by (assert (2 ^ n <= 2 ^ 31) by (apply Z.pow_le_mono_r; lia); lia).
  all: rewrite deserialize_unfold; setoid_rewrite serialize_unfold.
  all: rewrite size_unfold in Hsize.
  all: destruct (CANStruct.is_enum def) as [[]|] eqn:He; cbn in Hsize |- *; [| |done].
  1,3: eexists; split; [reflexivity|]; cbn;
       rewrite int32_small by done; unfold Codec.uint64; by rewrite Z.mod_small by lia.
  all: destruct (CANStruct.struct_members def) as [all|] eqn:Hm; cbn in Hsize |- *; [|done].
  all: apply for_each_sum in Hsize as (ns & Hns & ->); rewrite Z.add_0_l in *.
  all: destruct (fields_round_trip fuel B def all Hreach Hget He Hm) with (members := all)
         (b := raw) as (vs & widths & Hvs & Hwidths & Hlen & _ & Hser);
       [|done|lia|
        rewrite Hvs; cbn; exists (Codec.VStruct vs); split; [done|];
        rewrite decide_True by done;
        rewrite Hser, <- (sizes_are_widths _ _ _ _ _ _ Hbool Hns Hwidths);
        by rewrite Z.mod_small].
  all: intros C defC nC rawC Href HgetC HsizeC HnC HrawC.
  all: destruct Href as (def' & all' & field & Hget' & _ & Hm' & Hin & Hne).
  all: rewrite Hget in Hget'; injection Hget' as <-.
  all: rewrite Hm in Hm'; injection Hm' as <-.
  all: apply list_elem_of_lookup in Hin as [i Hi].
  all: destruct (Forall2_lookup_l _ _ _ _ _ Hns Hi) as (a & _ & Ha); simpl in Ha.
  all: rewrite HgetC in Ha; cbn in Ha.
  - done.
  - destruct fuel as [|fuel']; [lia|].
    pose proof (size_Done_agree _ _ _ _ _ _ Ha HsizeC) as ->.
    destruct (IH C defC nC rawC fuel') as (v & Hdes & Hser); try done.
    + eapply rtc_r; [exact Hreach|].
      exists def, all, field. repeat split; try done. by eapply list_elem_of_lookup_2.
    + lia.
    + by exists fuel', v.
Qed.

End signal_free_codec.

(** X18.  For a struct of the schema that has no signal at any level (its
    members are flags, enums and structs of that kind) and whose member
    types, at every level, have a size below 31 bits, in a schema that
    defines no type called [bool]: the decode routine returns a record for
    every 64-bit buffer, and encoding that record gives back the bits that
    were read, [serialize(T_deserialize(buffer))] being [buffer] reduced to
    the struct's width.  The reads in declared order and the writes in
    reverse order are inverse to each other.  ([fuel] bounds the nesting of
    the emitted calls; more than the generator's recursion limit is
    enough.) *)
Theorem signal_free_struct_round_trip (fuel depth : nat) (struct_defs : dict CANStruct.t)
    (A name : string) (members : list (string * member)) (buffer : Z) :
  "bool" ∉ keys struct_defs ->
  dict_get A struct_defs = Done (CANStruct.struct_def name members) ->
  (forall B def, rtc (references struct_defs) A B -> dict_get B struct_defs = Done def ->
                 signal_free def) ->
  (forall B C, rtc (references struct_defs) A B -> references struct_defs B C ->
     exists def n, dict_get C struct_defs = Done def
                   /\ CANStruct.size depth struct_defs def = Done n /\ 0 <= n < 31) ->
  (depth < fuel)%nat ->
  0 <= buffer < 2 ^ 64 ->
  exists record widths,
    Codec.deserialize fuel depth struct_defs (CANStruct.struct_def name members) buffer
    = Some record
    /\ Forall2 (fun (m : string * member) n => member_bits depth struct_defs m.2 = Done n)
         members widths
    /\ Codec.serialize fuel depth struct_defs (CANStruct.struct_def name members) record
       = Some (buffer mod 2 ^ foldr Z.add 0 widths).
Proof.
  intros Hbool Hget Hfree Hsizes Hfuel Hb.
  destruct (fields_round_trip depth struct_defs A Hfree Hsizes fuel A
              (CANStruct.struct_def name members) members (rtc_refl _ _) Hget eq_refl eq_refl)
    with (members := members) (b := buffer)
    as (vs & widths & Hvs & Hwidths & Hlen & _ & Hser); [|done|done|].
  - intros C defC n raw Href HgetC Hsize Hn Hraw.
    destruct fuel as [|fuel']; [lia|].
    destruct (nested_round_trip depth struct_defs A Hbool Hfree Hsizes depth C defC n raw fuel')
      as (v & Hdes & Hser); try done.
    + by apply rtc_once.
    + lia.
    + by exists fuel', v.
  - exists (Codec.VStruct vs), widths.
    rewrite deserialize_unfold, serialize_unfold. cbn. rewrite Hvs. cbn.
    split; [done|]. split; [done|]. by rewrite decide_True.
Qed.

Lemma lamp_defs_sizes (B C : string) :
  references lamp_defs B C ->
  exists def n, dict_get C lamp_defs = Done def
                /\ CANStruct.size 5 lamp_defs def = Done n /\ 0 <= n < 31.
Proof.
  intros (def & members & field & Hget & He & Hm & Hin & Hne).
  assert (C = "Color" \/ C = "Pair") as [-> | ->].
  { simpl in Hget.
    repeat (case_decide; [injection Hget as <-; simpl in Hm; try discriminate;
                          injection Hm as <-|]); try done;
      repeat (apply elem_of_cons in Hin as [Hin|Hin];
              [injection Hin as _ ->; solve [auto|done]|]);
      by apply elem_of_nil in Hin. }
  - exists (CANStruct.enum_def "Color" ["RED"; "GREEN"; "BLUE"]), 2.
    split; [reflexivity|]. split; [by vm_compute|lia].
  - exists (CANStruct.struct_def "Pair" [("first", MRef "Color"); ("second", MRef "Color")]), 4.
    split; [reflexivity|]. split; [by vm_compute|lia].
Qed.

(** The theorem at the message [Lamp] of a signal-free schema and the
    7-bit buffer 77. *)
Lemma signal_free_struct_round_trip_witness :
  exists record widths,
    Codec.deserialize 6 5 lamp_defs
      (CANStruct.struct_def "Lamp"
         [("on", MRef "bool"); ("pair", MRef "Pair"); ("c", MRef "Color")]) 77
    = Some record
    /\ Forall2 (fun (m : string * member) n => member_bits 5 lamp_defs m.2 = Done n)
         [("on", MRef "bool"); ("pair", MRef "Pair"); ("c", MRef "Color")] widths
    /\ Codec.serialize 6 5 lamp_defs
         (CANStruct.struct_def "Lamp"
            [("on", MRef "bool"); ("pair", MRef "Pair"); ("c", MRef "Color")]) record
       = Some (77 mod 2 ^ foldr Z.add 0 widths).
Proof.
  apply (signal_free_struct_round_trip 6 5 lamp_defs "Lamp" "Lamp"
           [("on", MRef "bool"); ("pair", MRef "Pair"); ("c", MRef "Color")] 77).
  - vm_compute. intros Hin.
    repeat (apply elem_of_cons in Hin as [Hin|Hin]; [discriminate|]).
    by apply elem_of_nil in Hin.
  - reflexivity.
  - intros B def _ Hget members field s Hm Hin. simpl in Hget.
    repeat (case_decide; [injection Hget as <-; simpl in Hm; try discriminate;
                          injection Hm as <-|]); try done;
      repeat (apply elem_of_cons in Hin as [Hin|Hin]; [discriminate|]);
      by apply elem_of_nil in Hin.
  - intros B C _. apply lamp_defs_sizes.
  - lia.
  - lia.
Defined.

(** ** The descriptor of a message that reaches a cycle *)

Lemma reaches_cycle_step (struct_defs : dict CANStruct.t) (A C : string) :
  rtc (references struct_defs) A C -> tc (references struct_defs) C C ->
  exists B, references struct_defs A B
            /\ rtc (references struct_defs) B C /\ tc (references struct_defs) C C.
Proof.
  intros Hreach Hcycle. inversion Hreach as [|? B ? Href Hrest]; subst.
  - inversion Hcycle as [? ? Href|? B ? Href HBC]; subst.
    + exists C. split; [done|]. split; [apply rtc_refl|done].
    + exists B. split; [done|]. split; [by apply tc_rtc|done].
  - exists B. by split.
Qed.

Lemma serialize_members_kcd_reaching_cycle (float_str : Z -> Z -> string)
    (struct_defs : dict CANStruct.t) (C : string) (depth : nat) (A : string)
    (def : CANStruct.t) (serializer serializer' : KCDMessageSerializer.t) (name_base : string) :
  tc (references struct_defs) C C ->
  rtc (references struct_defs) A C ->
  dict_get A struct_defs = Done def ->
  CANStruct.serialize_members_kcd float_str depth def serializer struct_defs name_base
  <> Done serializer'.
Proof.
  intros Hcycle. revert A def serializer serializer' name_base.
  induction depth as [|d IH]; intros A def s s' base Hreach Hget Hrun.
  all: destruct (reaches_cycle_step _ _ _ Hreach Hcycle) as (B & Href & HB & _).
  all: destruct Href as (def' & members & field & Hget' & He & Hm & Hin & Hne).
  all: rewrite Hget in Hget'; injection Hget' as <-.
  all: rewrite serialize_members_kcd_unfold, He in Hrun; cbn in Hrun.
  all: rewrite Hm in Hrun; cbn in Hrun.
  all: destruct (for_each_Done_elem _ _ _ _ _ Hrun Hin) as (s1 & s2 & Hstep).
  all: unfold member_kcd in Hstep; simpl in Hstep.
  all: rewrite decide_False in Hstep by done.
  all: apply bind_Done in Hstep as (defB & HgetB & Hstep); simpl in Hstep.
  - done.
  - by apply (IH B defB _ _ _ HB HgetB) in Hstep.
Qed.

(** X19.  A message from which a reference cycle can be reached has no
    descriptor: whatever the recursion limit, [database_to_kcd] does not
    return for a database that declares such a message. *)
Theorem cyclic_message_has_no_descriptor (float_str : Z -> Z -> string)
    (database : Database) (struct_defs : dict CANStruct.t) (M C : string) :
  load_struct_defs database = Done struct_defs ->
  M ∈ keys (db_messages database) ->
  rtc (references struct_defs) M C ->
  tc (references struct_defs) C C ->
  forall depth xml, database_to_kcd float_str depth database <> Done xml.
Proof.
  intros Hload HM Hreach Hcycle depth xml Hkcd.
  unfold database_to_kcd in Hkcd. rewrite Hload in Hkcd. cbn in Hkcd.
  apply bind_Done in Hkcd as (messages & Hmessages & _).
  apply list_elem_of_lookup in HM as [i Hi].
  pose proof (list_elem_of_lookup_2 _ _ _ (enumerate_lookup _ _ _ Hi)) as Hin.
  destruct (map_each_Done_elem _ _ _ _ Hmessages Hin) as [message Hmessage].
  simpl in Hmessage. apply bind_Done in Hmessage as (def & Hget & Hmessage).
  unfold CANStruct.serialize_message_kcd in Hmessage.
  apply bind_Done in Hmessage as (s & Hs & _).
  by eapply serialize_members_kcd_reaching_cycle in Hs.
Qed.

(** The theorem at a message that refers to one of two structs that
    reference each other. *)
Lemma cyclic_message_has_no_descriptor_witness :
  load_struct_defs cyclic_message_db = Done cyclic_message_defs
  /\ forall depth xml, database_to_kcd (fun _ _ => "") depth cyclic_message_db <> Done xml.
Proof.
  split; [reflexivity|].
  assert (HMA : references cyclic_message_defs "M" "A").
  { exists (CANStruct.struct_def "M" [("a", MRef "A")]), [("a", MRef "A")], "a".
    repeat split; try done. by left. }
  assert (HAB : references cyclic_message_defs "A" "B").
  { exists (CANStruct.struct_def "A" [("b", MRef "B")]), [("b", MRef "B")], "b".
    repeat split; try done. by left. }
  assert (HBA : references cyclic_message_defs "B" "A").
  { exists (CANStruct.struct_def "B" [("a", MRef "A")]), [("a", MRef "A")], "a".
    repeat split; try done. by left. }
  apply (cyclic_message_has_no_descriptor (fun _ _ => "") cyclic_message_db
           cyclic_message_defs "M" "A" eq_refl).
  - by left.
  - by apply rtc_once.
  - apply tc_l with "B"; [done|by apply tc_once].
Defined.

(** ** The descriptor of a well-formed message is produced *)

Lemma slope_Done (float_str : Z -> Z -> string) (s : CANSignal.t) :
  emittable s ->
  CANSignal.slope float_str s
  = Done (float_str (CANSignal.max s - CANSignal.min s) (CANSignal.size s)).
Proof.
  intros (Hsize & Hrange & _). unfold CANSignal.slope.
  rewrite decide_False by lia. by rewrite Hrange.
Qed.

Lemma for_each_Done_all {A S : Type} (f : S -> A -> outcome S) (l : list A) :
  (forall x s, x ∈ l -> exists s', f s x = Done s') ->
  forall s, exists s', for_each f l s = Done s'.
Proof.
  induction l as [|x l IH]; intros Hf s; simpl; [by eexists|].
  destruct (Hf x s) as [s1 ->]; [by left|]. cbn.
  apply IH. intros y s2 Hy. apply Hf. by right.
Qed.

Lemma serialize_members_kcd_terminates (float_str : Z -> Z -> string)
    (struct_defs : dict CANStruct.t) (depth : nat) (A : string) (stack : list string)
    (def : CANStruct.t) (serializer : KCDMessageSerializer.t) (name_base : string) :
  loaded struct_defs -> resolved struct_defs -> schema_acyclic struct_defs ->
  (forall k def, dict_get k struct_defs = Done def -> well_formed def) ->
  chain (dependencies_of struct_defs) (A :: stack) ->
  (forall x, x ∈ A :: stack -> x ∈ keys struct_defs) ->
  dict_get A struct_defs = Done def ->
  (length (keys struct_defs) <= depth + length (A :: stack))%nat ->
  exists serializer',
    CANStruct.serialize_members_kcd float_str depth def serializer struct_defs name_base
    = Done serializer'.
Proof.
  intros Hloaded Hresolved Hacyclic Hwf. revert A stack def serializer name_base.
  induction depth as [|d IH]; intros A stack def s base Hchain Hsub Hget Hlen;
    rewrite serialize_members_kcd_unfold;
    destruct (Hwf A def Hget) as [Henum Hsignals];
    (destruct (Hloaded A def Hget) as [He|[He [members Hm]]]; rewrite He;
     cbn -[CANStruct.size];
     [destruct (Henum He) as (label & labels & Hlabels);
      rewrite size_unfold, He; cbn; rewrite Hlabels; cbn; by eexists|]);
    rewrite Hm; cbn; apply for_each_Done_all; intros [field m] s1 Hin;
    unfold member_kcd; simpl; destruct m as [sig|typ].
  1,3: unfold CANSignal.serialize_kcd; rewrite slope_Done by (by eapply Hsignals);
       cbn; by eexists.
  all: destruct (decide (typ = "bool")) as [->|Hne]; [by eexists|].
  all: assert (Href : references struct_defs A typ)
         by (exists def, members, field; by repeat split).
  all: pose proof (Hresolved A typ Href) as Hkey.
  all: destruct (proj1 (dict_get_Done typ struct_defs) Hkey) as [defB HgetB].
  all: rewrite HgetB; cbn.
  all: assert (Hchain' : chain (dependencies_of struct_defs) (typ :: A :: stack))
         by (constructor; [by apply edge_references|done]).
  all: assert (Hsub' : forall x, x ∈ typ :: A :: stack -> x ∈ keys struct_defs)
         by (intros x [->|Hx]%elem_of_cons; [done|by apply Hsub]).
  - exfalso. apply chain_NoDup in Hchain'; [|by apply acyclic_schema].
    apply NoDup_submseteq with (k := keys struct_defs) in Hchain'; [|done].
    apply submseteq_length in Hchain'. simpl in *. lia.
  - apply (IH typ (A :: stack)); [done|done|done|simpl in *; lia].
Qed.

(** X20.  The descriptor of a message is produced whenever the schema is
    well formed: definitions that are structs or enums, references that
    resolve, no reference cycle, no enum without labels, and signals that
    can be written (a width from 1 to 64, a range that gives a slope
    within the doubles, bounds of at most 4300 digits).  A recursion limit
    that allows one nested call per type is enough. *)
Theorem well_formed_message_has_descriptor (float_str : Z -> Z -> string) (depth : nat)
    (struct_defs : dict CANStruct.t) (M : string) (def : CANStruct.t) (id : Z) :
  loaded struct_defs -> resolved struct_defs -> schema_acyclic struct_defs ->
  (forall k def, dict_get k struct_defs = Done def -> well_formed def) ->
  dict_get M struct_defs = Done def ->
  (length struct_defs <= S depth)%nat ->
  exists leaves,
    CANStruct.serialize_message_kcd float_str depth def struct_defs id
    = Done (XML.new "Message" [("id", str id); ("name", CANStruct.name def)] leaves "").
Proof.
  intros Hloaded Hresolved Hacyclic Hwf Hget Hlen.
  destruct (serialize_members_kcd_terminates float_str struct_defs depth M [] def
              KCDMessageSerializer.__init__ "" Hloaded Hresolved Hacyclic Hwf)
    as [s Hs].
  - constructor.
  - intros x ->%list_elem_of_singleton. apply dict_get_Done. by exists def.
  - done.
  - unfold keys. rewrite length_fmap. simpl. lia.
  - unfold CANStruct.serialize_message_kcd. rewrite Hs. by eexists.
Qed.

Lemma demo_defs_well_formed (k : string) (def : CANStruct.t) :
  dict_get k demo_defs = Done def -> well_formed def.
Proof.
  intros Hget. simpl in Hget.
  repeat (case_decide; [injection Hget as <-|]); try done;
    (split; simpl;
     [first [done|intros _; by eexists _, _]
     |first [done
            |intros members field s [= <-] Hin;
             repeat (apply elem_of_cons in Hin as [Hin|Hin];
                     [first [discriminate
                            |injection Hin as _ ->; repeat split; by vm_compute]|]);
             by apply elem_of_nil in Hin]]).
Qed.

(** The theorem at the message of the demo schema. *)
Lemma well_formed_message_has_descriptor_witness :
  exists leaves,
    CANStruct.serialize_message_kcd (fun _ _ => "s") 2
      (CANStruct.struct_def "Pong"
         [("pos", MRef "Pos"); ("c", MRef "Color"); ("ok", MRef "bool")]) demo_defs 0
    = Done (XML.new "Message" [("id", "0"); ("name", "Pong")] leaves "").
Proof.
  destruct demo_defs_ok as (_ & Hloaded & Hresolved & Hacyclic).
  apply (well_formed_message_has_descriptor (fun _ _ => "s") 2 demo_defs "Pong"
           (CANStruct.struct_def "Pong"
              [("pos", MRef "Pos"); ("c", MRef "Color"); ("ok", MRef "bool")]) 0
           Hloaded Hresolved Hacyclic demo_defs_well_formed).
  - reflexivity.
  - simpl. lia.
Defined.

(** ** The codec of a well-formed schema is produced *)

Lemma map_each_Done_all {A B : Type} (f : A -> outcome B) (l : list A) :
  (forall x, x ∈ l -> exists y, f x = Done y) -> exists ys, map_each f l = Done ys.
Proof.
  induction l as [|x l IH]; intros Hf; simpl; [by eexists|].
  destruct (Hf x) as [y ->]; [by left|]. cbn.
  destruct IH as [ys ->]; [intros z Hz; apply Hf; by right|]. cbn. by eexists.
Qed.

Lemma size_terminates (struct_defs : dict CANStruct.t) (depth : nat) (A : string)
    (stack : list string) (def : CANStruct.t) :
  loaded struct_defs -> resolved struct_defs -> schema_acyclic struct_defs ->
  (forall k def, dict_get k struct_defs = Done def -> well_formed def) ->
  member_types_flag_free struct_defs ->
  flag_free def ->
  chain (dependencies_of struct_defs) (A :: stack) ->
  (forall x, x ∈ A :: stack -> x ∈ keys struct_defs) ->
  dict_get A struct_defs = Done def ->
  (length (keys struct_defs) <= depth + length (A :: stack))%nat ->
  exists n, CANStruct.size depth struct_defs def = Done n.
Proof.
  intros Hloaded Hresolved Hacyclic Hwf Hff. revert A stack def.
  induction depth as [|d IH]; intros A stack def Hflags Hchain Hsub Hget Hlen;
    rewrite size_unfold;
    destruct (Hwf A def Hget) as [Henum _];
    (destruct (Hloaded A def Hget) as [He|[He [members Hm]]]; rewrite He; cbn;
     [destruct (Henum He) as (label & labels & Hlabels); rewrite Hlabels; cbn; by eexists|]);
    rewrite Hm; cbn; apply for_each_Done_all; intros [field m] total Hin;
    simpl; (destruct m as [sig|typ]; simpl; [by eexists|]).
  all: assert (Hne : typ <> "bool") by (intros ->; by apply (Hflags members field Hm)).
  all: assert (Href : references struct_defs A typ)
         by (exists def, members, field; by repeat split).
  all: pose proof (Hresolved A typ Href) as Hkey.
  all: destruct (proj1 (dict_get_Done typ struct_defs) Hkey) as [defB HgetB].
  all: rewrite HgetB; cbn.
  all: assert (Hchain' : chain (dependencies_of struct_defs) (typ :: A :: stack))
         by (constructor; [by apply edge_references|done]).
  all: assert (Hsub' : forall x, x ∈ typ :: A :: stack -> x ∈ keys struct_defs)
         by (intros x [->|Hx]%elem_of_cons; [done|by apply Hsub]).
  - exfalso. apply chain_NoDup in Hchain'; [|by apply acyclic_schema].
    apply NoDup_submseteq with (k := keys struct_defs) in Hchain'; [|done].
    apply submseteq_length in Hchain'. simpl in *. lia.
  - destruct (IH typ (A :: stack) defB) as [n ->];
      [by eapply Hff|done|done|done|simpl in *; lia|].
    cbn. by eexists.
Qed.

Lemma serialize_cpp_terminates (float_str : Z -> Z -> string) (depth : nat)
    (struct_defs : dict CANStruct.t) (A : string) (def : CANStruct.t) :
  loaded struct_defs -> resolved struct_defs -> schema_acyclic struct_defs ->
  (forall k def, dict_get k struct_defs = Done def -> well_formed def) ->
  member_types_flag_free struct_defs ->
  dict_get A struct_defs = Done def ->
  (length (keys struct_defs) <= S depth)%nat ->
  exists lines, CANStruct.serialize_cpp float_str depth def struct_defs = Done lines.
Proof.
  intros Hloaded Hresolved Hacyclic Hwf Hff Hget Hlen. unfold CANStruct.serialize_cpp.
  destruct (Hwf A def Hget) as [Henum Hsignals].
  destruct (Hloaded A def Hget) as [He|[He [members Hm]]]; rewrite He; cbn.
  { destruct (Henum He) as (label & labels & ->). cbn. by eexists. }
  rewrite Hm. cbn.
  assert (Hslope : forall field s, (field, MSignal s) ∈ members ->
            exists text, CANSignal.slope float_str s = Done text).
  { intros field s Hin. rewrite slope_Done by (by eapply Hsignals). by eexists. }
  assert (Hbits : forall field typ, (field, MRef typ) ∈ members ->
            exists n, CANStruct.reference_size depth struct_defs typ = Done n).
  { intros field typ Hin. unfold CANStruct.reference_size.
    destruct (decide (typ = "bool")) as [->|Hne]; [by eexists|].
    assert (Href : references struct_defs A typ)
      by (exists def, members, field; by repeat split).
    pose proof (Hresolved A typ Href) as Hkey.
    destruct (proj1 (dict_get_Done typ struct_defs) Hkey) as [defB HgetB].
    rewrite HgetB. cbn.
    apply (size_terminates struct_defs depth typ [] defB); try done.
    - by eapply Hff.
    - constructor.
    - by intros x ->%list_elem_of_singleton.
    - simpl. lia. }
  destruct (map_each_Done_all (CANStruct.deserialize_line float_str depth struct_defs) members)
    as [reads ->].
  { intros [field [s|typ]] Hin; unfold CANStruct.deserialize_line; simpl.
    - destruct (Hslope field s Hin) as [text ->]. cbn. by eexists.
    - destruct (Hbits field typ Hin) as [n ->]. cbn. by eexists. }
  destruct (map_each_Done_all (CANStruct.serialize_line float_str depth struct_defs)
              (reverse members)) as [writes ->].
  { intros [field [s|typ]] Hin; rewrite elem_of_reverse in Hin;
      unfold CANStruct.serialize_line; simpl.
    - destruct (Hslope field s Hin) as [text ->]. cbn. by eexists.
    - destruct (Hbits field typ Hin) as [n ->]. cbn. by eexists. }
  cbn. by eexists.
Qed.

(** X21.  The header of a database is produced whenever its schema is well
    formed (structs and enums only, references that resolve, no reference
    cycle, no enum without labels, signals that can be written: a width
    from 1 to 64, a range that gives a slope within the doubles, bounds of
    at most 4300 digits) and no struct used as a member type has a [bool]
    member.  A recursion limit that allows one nested call per type is
    enough. *)
Theorem well_formed_database_has_codec (float_str : Z -> Z -> string) (depth : nat)
    (database : Database) (struct_defs : dict CANStruct.t) :
  load_struct_defs database = Done struct_defs ->
  loaded struct_defs -> resolved struct_defs -> schema_acyclic struct_defs ->
  (forall k def, dict_get k struct_defs = Done def -> well_formed def) ->
  member_types_flag_free struct_defs ->
  (length struct_defs <= S depth)%nat ->
  exists header, database_to_cpp float_str depth database = Done header.
Proof.
  intros Hload Hloaded Hresolved Hacyclic Hwf Hff Hlen.
  assert (Hlen' : (length (keys struct_defs) <= S depth)%nat)
    by (unfold keys; by rewrite length_fmap).
  unfold database_to_cpp, database_to_cpp_lines. rewrite Hload. cbn.
  destruct (topological_sort_terminates (dependencies_of struct_defs) (keys struct_defs) depth)
    as [order Horder]; [by apply closed_keys|by apply acyclic_schema|done|].
  pose proof (topological_sort_answered _ _ _ _ Horder) as Hans.
  change (struct_order depth struct_defs = Done order) in Horder. rewrite Horder. cbn.
  destruct (map_each_Done_all
              (fun struct_name =>
                 if decide (struct_name = "bool") then Done []
                 else def ← dict_get struct_name struct_defs;
                      CANStruct.serialize_cpp float_str depth def struct_defs) order)
    as [body ->].
  { intros name [targets Hdeps]%Hans. destruct (decide (name = "bool")); [by eexists|].
    unfold dependencies_of in Hdeps. apply bind_Done in Hdeps as (def & Hget & _).
    rewrite Hget. cbn. by eapply serialize_cpp_terminates. }
  cbn. by eexists.
Qed.

Lemma demo_defs_member_types_flag_free : member_types_flag_free demo_defs.
Proof.
  intros A B def [_ [->| ->]]%demo_defs_references [= <-] members field; simpl; [|done].
  intros [= <-] Hin.
  repeat (apply elem_of_cons in Hin as [Hin|Hin]; [discriminate|]).
  by apply elem_of_nil in Hin.
Qed.

(** The theorem at the demo schema. *)
Lemma well_formed_database_has_codec_witness :
  load_struct_defs demo_db = Done demo_defs
  /\ exists header, database_to_cpp (fun _ _ => "s") 2 demo_db = Done header.
Proof.
  split; [reflexivity|].
  destruct demo_defs_ok as (_ & Hloaded & Hresolved & Hacyclic).
  apply (well_formed_database_has_codec (fun _ _ => "s") 2 demo_db demo_defs eq_refl
           Hloaded Hresolved Hacyclic demo_defs_well_formed demo_defs_member_types_flag_free).
  simpl. lia.
Defined.
